(** * Unreachable-memory detector (MemUnreachable): a shallow embedding

    The development follows [src/libcutils/sched_policy.c], second part
    (the MemUnreachable translation unit): the mapping classifier, the
    collection of allocations and roots, the sweep wrapper that builds the
    leak records, the fork/pipe protocol of [GetUnreachableMemory] and the
    logging front end.

    Conventions.
    - [uintptr_t] and [size_t] are 64-bit unsigned integers, modelled as [Z]
      with the wrap-around written out ([wrap]); [int] has 32 bits and
      plain [char] is unsigned, as on 64-bit ARM.
    - Process memory is a partial map from addresses to bytes; an address
      that is not readable has no byte, and a raw read of it is a fault.
    - The classes whose implementation is not part of the translation unit
      (HeapWalker, LeakPipe, the constant [Leak::contents_length]) are
      modelled from the specification and marked as such.
    - Outcomes of operating-system services (thread capture, fork, the
      opening of pipe ends, the semaphore deadline) are fields of an
      environment record, and so is what a receive that fails leaves in its
      target, which neither the sources nor the specification say.
    - Of the log output, the lines written by the calling thread are
      modelled; the child process and the collection thread log to the
      same sink from other contexts and no property below observes them. *)

From Stdlib Require Import ZArith List Bool String Ascii Lia Sorted Permutation.
From Stdlib Require Import DecimalString HexadecimalString.
Import ListNotations.
Open Scope string_scope.
Open Scope list_scope.
Open Scope Z_scope.

(* ================================================================== *)
(** * Machine words                                                    *)
(* ================================================================== *)

Definition ptr_bits : Z := 64.
Definition ptr_modulus : Z := 2 ^ ptr_bits.
Arguments ptr_modulus : simpl never.

(** Reduction of an integer to a [size_t] / [uintptr_t]. *)
Definition wrap (x : Z) : Z := x mod ptr_modulus.

(** Whether plain [char] is signed.  It is unsigned on the 64-bit ARM
    target of the conventions above; where it is signed, a byte of 128 or
    more is a negative [char]. *)
Definition plain_char_signed : bool := false.

(** Width of [int]. *)
Definition int_bits : Z := 32.

(* ================================================================== *)
(** * Data model                                                       *)
(* ================================================================== *)

(** Modelled from the spec: [struct Mapping] of ProcessMappings.h, a
    "Region plus: readable/writable/executable bits, name string".  The
    code reads its fields [begin], [end], [read], [execute] and [name]. *)
Record Mapping : Type := mkMapping {
  map_begin : Z;
  map_end : Z;
  map_read : bool;
  map_write : bool;
  map_execute : bool;
  map_name : string
}.

(** Modelled from the spec: [struct Range] of HeapWalker.h, a half-open
    byte range [begin, end). *)
Record Range : Type := mkRange {
  range_begin : Z;
  range_end : Z
}.

(** Modelled from the spec: [struct ThreadInfo] of ThreadCapture.h,
    "{ tid, register_bytes[], stack_top }".  The code reads the register
    file as [regs] and the stack pointer as [stack.first]. *)
Record ThreadInfo : Type := mkThreadInfo {
  tid : Z;
  regs : list Z;
  stack : Z * Z
}.

(** Modelled from the spec: the constant [Leak::contents_length] of
    memunreachable.h, "the first 32 bytes of the allocation by
    convention". *)
Definition contents_length : Z := 32.

(** Modelled from the spec: [struct Leak] of memunreachable.h,
    "{ begin, size, contents[:CONTENTS_LEN] }". *)
Record Leak : Type := mkLeak {
  leak_begin : Z;
  leak_size : Z;
  leak_contents : list Z
}.

(** Modelled from the spec: [struct UnreachableMemoryInfo] of
    memunreachable.h, "{ num_allocations, allocation_bytes, num_leaks,
    leak_bytes, leaks[] }". *)
Record UnreachableMemoryInfo : Type := mkInfo {
  leaks : list Leak;
  num_leaks : Z;
  leak_bytes : Z;
  num_allocations : Z;
  allocation_bytes : Z
}.

(* ================================================================== *)
(** * The mapping classifier                                           *)
(* ================================================================== *)

(** [has_prefix]: [s.compare(0, strlen(prefix), prefix) == 0].  The
    compared substring of [s] is clipped to the length of [s]. *)
Definition has_prefix (s : string) (prefix : string) : bool :=
  String.eqb (substring 0 (String.length prefix) s) prefix.

(** The four output vectors and the loop-carried [current_lib]. *)
Record Classified : Type := mkClassified {
  current_lib : string;
  heap_mappings : list Mapping;
  anon_mappings : list Mapping;
  globals_mappings : list Mapping;
  stack_mappings : list Mapping
}.

Definition set_current_lib (c : Classified) (n : string) : Classified :=
  mkClassified n (heap_mappings c) (anon_mappings c)
               (globals_mappings c) (stack_mappings c).

Definition emplace_heap (c : Classified) (m : Mapping) : Classified :=
  mkClassified (current_lib c) (heap_mappings c ++ [m]) (anon_mappings c)
               (globals_mappings c) (stack_mappings c).

Definition emplace_globals (c : Classified) (m : Mapping) : Classified :=
  mkClassified (current_lib c) (heap_mappings c) (anon_mappings c)
               (globals_mappings c ++ [m]) (stack_mappings c).

Definition emplace_stack (c : Classified) (m : Mapping) : Classified :=
  mkClassified (current_lib c) (heap_mappings c) (anon_mappings c)
               (globals_mappings c) (stack_mappings c ++ [m]).

(** One iteration of the loop of [MemUnreachable::ClassifyMappings]. *)
Definition classify_step (c : Classified) (it : Mapping) : Classified :=
  if map_execute it then set_current_lib c (map_name it)
  else if negb (map_read it) then c
  else
    let mapping_name := map_name it in
    if String.eqb mapping_name "[anon:.bss]" then emplace_globals c it
    else if String.eqb mapping_name (current_lib c) then emplace_globals c it
    else if String.eqb mapping_name "[anon:libc_malloc]" then emplace_heap c it
    else if has_prefix mapping_name "/dev/ashmem/dalvik" then emplace_globals c it
    else if has_prefix mapping_name "[stack" then emplace_stack c it
    else if Nat.eqb (String.length mapping_name) 0 then emplace_globals c it
    else if has_prefix mapping_name "[anon:"
            && negb (String.eqb mapping_name "[anon:leak_detector_malloc]")
         then emplace_globals c it
    else c.

(** [MemUnreachable::ClassifyMappings].  The four vectors passed in are
    cleared first; the result is always [true]. *)
Definition ClassifyMappings (mappings : list Mapping)
    (heap anon globals stacks : list Mapping) : bool * Classified :=
  let cleared := mkClassified "" [] [] [] [] in
  (true, fold_left classify_step mappings cleared).

(** ** The classification table, as the specification words it *)

Inductive Target : Type := Dropped | ToGlobals | ToHeap | ToStacks.

Definition Target_eqb (a b : Target) : bool :=
  match a, b with
  | Dropped, Dropped | ToGlobals, ToGlobals
  | ToHeap, ToHeap | ToStacks, ToStacks => true
  | _, _ => false
  end.

(** The ordered rule list; the first rule whose predicate holds decides. *)
Definition rule_table (current_library : string)
  : list ((Mapping -> bool) * Target) :=
  [ (fun m => map_execute m, Dropped);
    (fun m => negb (map_read m), Dropped);
    (fun m => String.eqb (map_name m) "[anon:.bss]", ToGlobals);
    (fun m => String.eqb (map_name m) current_library, ToGlobals);
    (fun m => String.eqb (map_name m) "[anon:libc_malloc]", ToHeap);
    (fun m => String.prefix "/dev/ashmem/dalvik" (map_name m), ToGlobals);
    (fun m => String.prefix "[stack" (map_name m), ToStacks);
    (fun m => String.eqb (map_name m) "", ToGlobals);
    (fun m => String.prefix "[anon:" (map_name m)
              && negb (String.eqb (map_name m) "[anon:leak_detector_malloc]"),
     ToGlobals) ].

Fixpoint first_match (rules : list ((Mapping -> bool) * Target))
    (m : Mapping) : Target :=
  match rules with
  | [] => Dropped
  | (p, t) :: rest => if p m then t else first_match rest m
  end.

(** Every mapping paired with its target; an executable mapping becomes
    the current library of the mappings after it. *)
Fixpoint assign_targets (current_library : string) (ms : list Mapping)
  : list (Mapping * Target) :=
  match ms with
  | [] => []
  | m :: rest =>
      (m, first_match (rule_table current_library) m)
      :: assign_targets
           (if map_execute m then map_name m else current_library) rest
  end.

Definition assigned_to (t : Target) (a : list (Mapping * Target))
  : list Mapping :=
  map fst (filter (fun p => Target_eqb (snd p) t) a).

(* ================================================================== *)
(** * Process memory                                                   *)
(* ================================================================== *)

(** The memory image of the process: the byte at an address, or [None]
    where the address is not readable. *)
Definition Memory : Type := Z -> option Z.

(** A raw read of [n] consecutive bytes; [None] is a fault. *)
Fixpoint read_bytes (mem : Memory) (addr : Z) (n : nat) : option (list Z) :=
  match n with
  | O => Some []
  | S k =>
      match mem addr, read_bytes mem (addr + 1) k with
      | Some b, Some bs => Some (b :: bs)
      | _, _ => None
      end
  end.

Fixpoint le_combine (bs : list Z) : Z :=
  match bs with
  | [] => 0
  | b :: rest => b + 256 * le_combine rest
  end.

Definition word_size : Z := ptr_bits / 8.

(** A pointer-sized little-endian word. *)
Definition read_word (mem : Memory) (addr : Z) : option Z :=
  option_map le_combine (read_bytes mem addr (Z.to_nat word_size)).

(** Result of code that touches raw memory: a value, or the death of the
    process on a fault. *)
Inductive Outcome (A : Type) : Type :=
| Returned (a : A)
| Fault.
Arguments Returned {A} a.
Arguments Fault {A}.

(* ================================================================== *)
(** * The heap walker                                                  *)
(* ================================================================== *)

(** [end - begin] as a [size_t]. *)
Definition range_size (r : Range) : Z := wrap (range_end r - range_begin r).

(** Modelled from the spec: a node of the allocation index of
    HeapWalker.h, "an interval container keyed by begin, each node storing
    (end, referenced)". *)
Record AllocationInfo : Type := mkAlloc {
  alloc_range : Range;
  referenced : bool
}.

(** Modelled from the spec: the state of class HeapWalker (HeapWalker.h):
    the allocation index in ascending order of [begin], the queued root
    regions, and the register blobs copied into internal storage. *)
Record HeapWalker : Type := mkWalker {
  allocations : list AllocationInfo;
  roots : list Range;
  root_vals : list (list Z)
}.

(** Modelled from the spec: the HeapWalker constructor, an empty index. *)
Definition HeapWalker_new : HeapWalker := mkWalker [] [] [].

(** Modelled from the spec: two half-open regions overlap. *)
Definition overlaps (a b : Range) : bool :=
  (range_begin a <? range_end b) && (range_begin b <? range_end a).

(** Modelled from the spec: insertion into the index "keyed by begin". *)
Fixpoint insert_by_begin (a : AllocationInfo) (l : list AllocationInfo)
  : list AllocationInfo :=
  match l with
  | [] => [a]
  | b :: rest =>
      if range_begin (alloc_range a) <=? range_begin (alloc_range b)
      then a :: b :: rest
      else b :: insert_by_begin a rest
  end.

(** Modelled from the spec: [HeapWalker::Allocation(begin, end)], "insert
    an interval.  Overlap with an existing interval is rejected (logged)
    and the input ignored". *)
Definition Allocation (w : HeapWalker) (b e : Z) : HeapWalker :=
  let r := mkRange b e in
  if existsb (fun a => overlaps r (alloc_range a)) (allocations w)
  then w
  else mkWalker (insert_by_begin (mkAlloc r false) (allocations w))
                (roots w) (root_vals w).

(** Modelled from the spec: [HeapWalker::Root(begin, end)], "queue a root
    region for the mark phase". *)
Definition Root (w : HeapWalker) (b e : Z) : HeapWalker :=
  mkWalker (allocations w) (roots w ++ [mkRange b e]) (root_vals w).

(** Modelled from the spec: [HeapWalker::Root(vals)], "register blobs are
    copied into internal storage". *)
Definition RootVals (w : HeapWalker) (vals : list Z) : HeapWalker :=
  mkWalker (allocations w) (roots w) (root_vals w ++ [vals]).

(** Modelled from the spec: a sum of region sizes, accumulated in a
    [size_t]. *)
Definition sum_sizes (l : list Range) : Z :=
  fold_left (fun acc r => wrap (acc + range_size r)) l 0.

(** Modelled from the spec: [HeapWalker::Allocations()], the number of
    allocations in the index. *)
Definition HeapWalker_Allocations (w : HeapWalker) : Z :=
  wrap (Z.of_nat (List.length (allocations w))).

(** Modelled from the spec: [HeapWalker::AllocationBytes()], their total
    size. *)
Definition HeapWalker_AllocationBytes (w : HeapWalker) : Z :=
  sum_sizes (map alloc_range (allocations w)).

(** ** Mark *)

(** Modelled from the spec: "interval containing the value", so interior
    pointers count. *)
Definition contains (r : Range) (v : Z) : bool :=
  (range_begin r <=? v) && (v <? range_end r).

(** Modelled from the spec: the bounds [min_allocation_begin] and
    [max_allocation_end] of the index. *)
Definition min_allocation_begin (l : list AllocationInfo) : Z :=
  fold_right (fun a acc => Z.min (range_begin (alloc_range a)) acc)
             ptr_modulus l.

(** Modelled from the spec: see [min_allocation_begin]. *)
Definition max_allocation_end (l : list AllocationInfo) : Z :=
  fold_right (fun a acc => Z.max (range_end (alloc_range a)) acc) 0 l.

(** Modelled from the spec: the allocation containing [v], if not yet
    referenced, gets its referenced bit set and its full extent is returned
    for scanning. *)
Fixpoint reference (v : Z) (l : list AllocationInfo)
  : list AllocationInfo * list Range :=
  match l with
  | [] => ([], [])
  | a :: rest =>
      if contains (alloc_range a) v then
        if referenced a then (a :: rest, [])
        else (mkAlloc (alloc_range a) true :: rest, [alloc_range a])
      else
        let (rest', found) := reference v rest in (a :: rest', found)
  end.

(** Modelled from the spec: the treatment of one word read during the
    mark phase. *)
Definition scan_value (st : list AllocationInfo * list Range) (v : Z)
  : list AllocationInfo * list Range :=
  let (allocs, queue) := st in
  if (min_allocation_begin allocs <=? v) && (v <? max_allocation_end allocs)
  then let (allocs', found) := reference v allocs in
       (allocs', queue ++ found)
  else st.

(** Modelled from the spec: the scan of the words of one region. *)
Definition scan_values (vals : list Z)
    (st : list AllocationInfo * list Range)
  : list AllocationInfo * list Range :=
  fold_left scan_value vals st.

(** Modelled from the spec: the first word-aligned address at or above
    [a]. *)
Definition align_up (a : Z) : Z := (a + (word_size - 1)) / word_size * word_size.

(** Modelled from the spec: the values of [n] consecutive words. *)
Fixpoint words_from (mem : Memory) (addr : Z) (n : nat) : list Z :=
  match n with
  | O => []
  | S k =>
      match read_word mem addr with
      | Some v => v :: words_from mem (addr + word_size) k
      | None => words_from mem (addr + word_size) k
      end
  end.

(** Modelled from the spec: "for each region, iterate word-aligned
    offsets; read a pointer-sized word".  A word that cannot be read
    contributes no value. *)
Definition region_words (mem : Memory) (r : Range) : list Z :=
  let first := align_up (range_begin r) in
  words_from mem first (Z.to_nat ((range_end r - first) / word_size)).

(** The allocations whose referenced bit is not set. *)
Definition unreferenced (l : list AllocationInfo) : list AllocationInfo :=
  filter (fun a => negb (referenced a)) l.

(** Modelled from the spec: the work-queue loop of the mark phase.  The
    result carries the queue that is left, which is empty unless the fuel
    ran out. *)
Fixpoint mark_loop (fuel : nat) (mem : Memory)
    (allocs : list AllocationInfo) (queue : list Range)
  : list AllocationInfo * list Range :=
  match queue with
  | [] => (allocs, [])
  | r :: rest =>
      match fuel with
      | O => (allocs, queue)
      | S f =>
          let (allocs', queue') :=
            scan_values (region_words mem r) (allocs, rest) in
          mark_loop f mem allocs' queue'
      end
  end.

(** Modelled from the spec: "each allocation can be enqueued at most
    once", so this many iterations drain the queue. *)
Definition mark_fuel (allocs : list AllocationInfo) (queue : list Range)
  : nat :=
  (List.length queue + List.length (unreferenced allocs))%nat.

(** Modelled from the spec: the mark phase of HeapWalker, "a work queue of
    regions to scan, seeded with every root ... if the value is within
    [min_allocation_begin, max_allocation_end) and there exists an
    allocation containing that address, and that allocation is not yet
    referenced, set its referenced bit and enqueue its full extent". *)
Definition mark (mem : Memory) (w : HeapWalker)
  : list AllocationInfo * list Range :=
  let (allocs, queue) :=
    scan_values (List.concat (root_vals w)) (allocations w, roots w) in
  mark_loop (mark_fuel allocs queue) mem allocs queue.

(** Modelled from the spec: the walker after the mark phase. *)
Definition DetectLeaks (mem : Memory) (w : HeapWalker) : HeapWalker :=
  mkWalker (fst (mark mem w)) (roots w) (root_vals w).

(** ** Sweep *)

(** Modelled from the spec: "sorted by decreasing size, tie-broken by
    ascending begin". *)
Definition leak_before (a b : Range) : bool :=
  (range_size b <? range_size a)
  || ((range_size a =? range_size b) && (range_begin a <=? range_begin b)).

(** Modelled from the spec: insertion into a list in that order. *)
Fixpoint insert_leak (r : Range) (l : list Range) : list Range :=
  match l with
  | [] => [r]
  | x :: rest =>
      if leak_before r x then r :: x :: rest else x :: insert_leak r rest
  end.

(** Modelled from the spec: the leaks in that order. *)
Definition sort_leaks (l : list Range) : list Range :=
  fold_right insert_leak [] l.

(** Modelled from the spec: "every allocation with referenced == false
    is a leak"; their regions in index order. *)
Definition unreferenced_ranges (w : HeapWalker) : list Range :=
  map alloc_range (unreferenced (allocations w)).

(** Modelled from the spec: [HeapWalker::Leaked(leaked, limit, num_leaks,
    leak_bytes)], "run mark, then sweep ... every allocation with
    referenced == false is a leak.  Emit up to limit leaks, sorted by
    decreasing size, tie-broken by ascending begin.  Always report the
    true total counts".  The components are the boolean result, the walker
    after marking, the emitted regions and the two totals. *)
Definition Leaked (mem : Memory) (w : HeapWalker) (limit : Z)
  : bool * HeapWalker * list Range * Z * Z :=
  let w' := DetectLeaks mem w in
  let leaked := unreferenced_ranges w' in
  (true, w',
   firstn (Z.to_nat limit) (sort_leaks leaked),
   wrap (Z.of_nat (List.length leaked)),
   sum_sizes leaked).

(* ================================================================== *)
(** * The environment of one collection                                *)
(* ================================================================== *)

(** Modelled from the spec: the messages of LeakPipe.h.  "send<T>(x) writes
    the byte image of x; send_vector<T>(v) writes length then
    elements". *)
Inductive Message : Type :=
| MsgValue (v : Z)
| MsgElements (l : list Leak).

(** Modelled from the spec: what the collaborators answer during one call
    (ThreadCapture, ProcessMappings, PtracerThread, Semaphore and LeakPipe
    are not part of the translation unit): the memory image shared
    copy-on-write with the forked child, the allocator's enumeration
    callback, and the outcome of each service the protocol relies on. *)
Record Environment : Type := mkEnv {
  parent_pid : Z;
  memory : Memory;
  (** [malloc_iterate base length]: the (base, size) pairs reported. *)
  malloc_iterate : Z -> Z -> list (Z * Z);
  (** [ThreadCapture::CaptureThreads]. *)
  capture_threads_ok : bool;
  (** [ThreadCapture::CapturedThreadInfo]: the captured threads, or failure. *)
  captured_thread_info : option (list ThreadInfo);
  (** [ProcessMappings]: the parsed map, or failure. *)
  process_mappings : option (list Mapping);
  (** Value returned by [fork] in the collection thread. *)
  fork_result : Z;
  (** [LeakPipe::OpenSender] in the child. *)
  open_sender_ok : bool;
  (** Number of messages the pipe accepts before the peer is gone. *)
  sender_quota : nat;
  (** Whether the semaphore is posted before the deadline of the wait. *)
  post_within_deadline : bool;
  (** [LeakPipe::OpenReceiver] in the original thread. *)
  open_receiver_ok : bool;
  (** What a [Receive] that fails leaves in its target, from what the
      target held and what the pipe holds unread. *)
  failed_receive : Z -> list Message -> Z;
  (** What a [ReceiveVector] that fails leaves in its target. *)
  failed_receive_vector : list Leak -> list Message -> list Leak
}.

(* ================================================================== *)
(** * MemUnreachable                                                   *)
(* ================================================================== *)

Record MemUnreachable : Type := mkMemUnreachable {
  pid_ : Z;
  heap_walker_ : HeapWalker
}.

Definition with_walker (u : MemUnreachable) (w : HeapWalker) : MemUnreachable :=
  mkMemUnreachable (pid_ u) w.

Definition Allocations (u : MemUnreachable) : Z :=
  HeapWalker_Allocations (heap_walker_ u).

Definition AllocationBytes (u : MemUnreachable) : Z :=
  HeapWalker_AllocationBytes (heap_walker_ u).

(** [HeapIterate]: the calls [func(base, size)] made for one heap mapping. *)
Definition HeapIterate (env : Environment) (heap_mapping : Mapping)
  : list (Z * Z) :=
  malloc_iterate env (map_begin heap_mapping)
                 (wrap (map_end heap_mapping - map_begin heap_mapping)).

(** The inner loop over the stack mappings, for one thread. *)
Definition add_stack_roots (thread : ThreadInfo) (stacks : list Mapping)
    (w : HeapWalker) : HeapWalker :=
  fold_left
    (fun w it =>
       if (fst (stack thread) >=? map_begin it)
          && (fst (stack thread) <=? map_end it)
       then Root w (fst (stack thread)) (map_end it)
       else w)
    stacks w.

(** [MemUnreachable::CollectAllocations]. *)
Definition CollectAllocations (env : Environment) (u : MemUnreachable)
    (threads : list ThreadInfo) (mappings : list Mapping)
  : bool * MemUnreachable :=
  let (classified, c) :=
    ClassifyMappings mappings mappings mappings mappings mappings in
  if negb classified then (false, u)
  else
    let w := heap_walker_ u in
    let w :=
      fold_left
        (fun w it =>
           fold_left
             (fun w (bs : Z * Z) =>
                Allocation w (fst bs) (wrap (fst bs + snd bs)))
             (HeapIterate env it) w)
        (heap_mappings c) w in
    let w :=
      fold_left (fun w it => Allocation w (map_begin it) (map_end it))
                (anon_mappings c) w in
    let w :=
      fold_left (fun w it => Root w (map_begin it) (map_end it))
                (globals_mappings c) w in
    let w :=
      fold_left
        (fun w thread_it =>
           RootVals (add_stack_roots thread_it (stack_mappings c) w)
                    (regs thread_it))
        threads w in
    (true, with_walker u w).

(** [memcpy(dst, src, n)] from process memory into a byte array: the first
    [n] bytes of [dst] are replaced; [None] is a fault. *)
Definition memcpy (dst : list Z) (mem : Memory) (src : Z) (n : Z)
  : option (list Z) :=
  match read_bytes mem src (Z.to_nat n) with
  | Some bytes => Some (bytes ++ skipn (List.length bytes) dst)
  | None => None
  end.

(** [Leak leak{}]: value-initialised, the contents all zero. *)
Definition Leak_zero : Leak :=
  mkLeak 0 0 (repeat 0 (Z.to_nat contents_length)).

(** The body of the loop over [leaked] in
    [MemUnreachable::GetUnreachableMemory]. *)
Definition make_leak (mem : Memory) (it : Range) : option Leak :=
  let leak := Leak_zero in
  let begin := range_begin it in
  let size := wrap (range_end it - range_begin it) in
  match memcpy (leak_contents leak) mem begin (Z.min size contents_length) with
  | Some contents => Some (mkLeak begin size contents)
  | None => None
  end.

Fixpoint make_leaks (mem : Memory) (leaked : list Range) (leaks : list Leak)
  : Outcome (list Leak) :=
  match leaked with
  | [] => Returned leaks
  | it :: rest =>
      match make_leak mem it with
      | Some leak => make_leaks mem rest (leaks ++ [leak])
      | None => Fault
      end
  end.

(** [MemUnreachable::GetUnreachableMemory]: the boolean result, the object
    after the call, and the three out-parameters. *)
Definition MemUnreachable_GetUnreachableMemory (mem : Memory)
    (u : MemUnreachable) (leaks : list Leak) (limit : Z)
  : Outcome (bool * MemUnreachable * list Leak * Z * Z) :=
  let leaks : list Leak := [] in
  let '(swept, w, leaked, num_leaks, leak_bytes) :=
    Leaked mem (heap_walker_ u) limit in
  if negb swept
  then Returned (false, with_walker u w, leaks, num_leaks, leak_bytes)
  else
    match make_leaks mem leaked leaks with
    | Returned leaks =>
        Returned (true, with_walker u w, leaks, num_leaks, leak_bytes)
    | Fault => Fault
    end.

(* ================================================================== *)
(** * The leak pipe                                                    *)
(* ================================================================== *)

(** Modelled from the spec: the sending end of LeakPipe; a message is
    delivered in full "or the peer closes". *)
Record Sender : Type := mkSender {
  delivered : list Message;
  quota : nat
}.

(** Modelled from the spec: the write of one message. *)
Definition Send (s : Sender) (m : Message) : bool * Sender :=
  match quota s with
  | O => (false, s)
  | S k => (true, mkSender (delivered s ++ [m]) k)
  end.

(** Modelled from the spec: [LeakPipe::Sender::Send(value)]. *)
Definition SendValue (s : Sender) (v : Z) : bool * Sender :=
  Send s (MsgValue v).

(** Modelled from the spec: [LeakPipe::Sender::SendVector(vector)]. *)
Definition SendVector (s : Sender) (l : list Leak) : bool * Sender :=
  let (ok, s1) := SendValue s (wrap (Z.of_nat (List.length l))) in
  if ok then Send s1 (MsgElements l) else (false, s1).

(** Modelled from the spec: [LeakPipe::Receiver::Receive(&value)] on the
    stream of messages not yet read.  The end of the stream is the death of
    the peer; it and a message of the wrong shape fail the read. *)
Definition Receive (r : list Message) : option Z * list Message :=
  match r with
  | MsgValue v :: rest => (Some v, rest)
  | _ => (None, r)
  end.

(** Modelled from the spec: [LeakPipe::Receiver::ReceiveVector(vector)]. *)
Definition ReceiveVector (r : list Message)
  : option (list Leak) * list Message :=
  match Receive r with
  | (Some n, MsgElements l :: rest) =>
      if Z.of_nat (List.length l) =? n then (Some l, rest) else (None, r)
  | _ => (None, r)
  end.

(* ================================================================== *)
(** * The heap walker process                                          *)
(* ================================================================== *)

(** How a process ends: [_exit(status)], or killed by a fault. *)
Inductive ProcessEnd : Type :=
| Exited (status : Z)
| Killed.

(** [ok = ok && pipe.Sender().Send(...)]. *)
Definition and_send (st : bool * Sender) (send : Sender -> bool * Sender)
  : bool * Sender :=
  if fst st then send (snd st) else st.

(** The child branch of the fork in [GetUnreachableMemory]: how the
    process ends and what it delivered to the pipe. *)
Definition heap_walker_process (env : Environment)
    (thread_info : list ThreadInfo) (mappings : list Mapping) (limit : Z)
  : ProcessEnd * list Message :=
  if negb (open_sender_ok env) then (Exited 1, [])
  else
    let sender := mkSender [] (sender_quota env) in
    let unreachable := mkMemUnreachable (parent_pid env) HeapWalker_new in
    let (collected, unreachable) :=
      CollectAllocations env unreachable thread_info mappings in
    if negb collected then (Exited 2, delivered sender)
    else
      let num_allocations := Allocations unreachable in
      let allocation_bytes := AllocationBytes unreachable in
      match MemUnreachable_GetUnreachableMemory
              (memory env) unreachable [] limit with
      | Fault => (Killed, delivered sender)
      | Returned (ok, _, leaks, num_leaks, leak_bytes) =>
          let st := (ok, sender) in
          let st := and_send st (fun s => SendValue s num_allocations) in
          let st := and_send st (fun s => SendValue s allocation_bytes) in
          let st := and_send st (fun s => SendValue s num_leaks) in
          let st := and_send st (fun s => SendValue s leak_bytes) in
          let st := and_send st (fun s => SendVector s leaks) in
          if negb (fst st) then (Exited 3, delivered (snd st))
          else (Exited 0, delivered (snd st))
      end.

(* ================================================================== *)
(** * The collection thread                                            *)
(* ================================================================== *)

(** What the collection thread leaves behind: its return value, whether it
    posted the semaphore, and the heap walker process if one was forked. *)
Record ThreadRun : Type := mkThreadRun {
  thread_ret : Z;
  posted : bool;
  walker_process : option (ProcessEnd * list Message)
}.

(** The lambda run by [PtracerThread].  A negative [fork_result] is the
    failure of [fork]; otherwise the call returns twice, with 0 in the
    child, which runs the heap walker process, and with the child's pid in
    the collection thread, which returns 0. *)
Definition collection_thread (env : Environment) (limit : Z) : ThreadRun :=
  if negb (capture_threads_ok env) then mkThreadRun 1 false None
  else
    match captured_thread_info env with
    | None => mkThreadRun 1 false None
    | Some thread_info =>
        match process_mappings env with
        | None => mkThreadRun 1 false None
        | Some mappings =>
            let ret := fork_result env in
            if ret <? 0 then mkThreadRun 1 true None
            else
              mkThreadRun 0 true
                (Some (heap_walker_process env thread_info mappings limit))
        end
    end.

(* ================================================================== *)
(** * The original thread                                              *)
(* ================================================================== *)

(** Lines written to the log by the calling process. *)
Inductive LogLine : Type :=
| ALOGI (text : string)
| ALOGE (text : string).

(** [%zu]. *)
Definition dec (n : Z) : string :=
  DecimalString.NilZero.string_of_uint (N.to_uint (Z.to_N n)).

(** [std::hex] and [%PRIxPTR]. *)
Definition hex (n : Z) : string :=
  HexadecimalString.NilZero.string_of_uint (N.to_hex_uint (Z.to_N n)).

Definition set_num_allocations (info : UnreachableMemoryInfo) (v : Z) :=
  mkInfo (leaks info) (num_leaks info) (leak_bytes info) v
         (allocation_bytes info).

Definition set_allocation_bytes (info : UnreachableMemoryInfo) (v : Z) :=
  mkInfo (leaks info) (num_leaks info) (leak_bytes info)
         (num_allocations info) v.

Definition set_num_leaks (info : UnreachableMemoryInfo) (v : Z) :=
  mkInfo (leaks info) v (leak_bytes info) (num_allocations info)
         (allocation_bytes info).

Definition set_leak_bytes (info : UnreachableMemoryInfo) (v : Z) :=
  mkInfo (leaks info) (num_leaks info) v (num_allocations info)
         (allocation_bytes info).

Definition set_leaks (info : UnreachableMemoryInfo) (l : list Leak) :=
  mkInfo l (num_leaks info) (leak_bytes info) (num_allocations info)
         (allocation_bytes info).

(** State of the receive sequence: [ok], the caller's [info], and the
    unread stream. *)
Definition ReceiveState : Type :=
  (bool * UnreachableMemoryInfo * list Message)%type.

(** [ok = ok && pipe.Receiver().Receive(&info.field)]: the receive is
    handed the address of the field, read here by [field] and written by
    [store]; a successful receive stores the value received, a failed one
    leaves in the field what the environment says. *)
Definition and_receive (env : Environment) (st : ReceiveState)
    (field : UnreachableMemoryInfo -> Z)
    (store : UnreachableMemoryInfo -> Z -> UnreachableMemoryInfo)
  : ReceiveState :=
  let '(ok, info, r) := st in
  if ok then
    match Receive r with
    | (Some v, r') => (true, store info v, r')
    | (None, r') =>
        (false, store info (failed_receive env (field info) r), r')
    end
  else st.

(** [ok = ok && pipe.Receiver().ReceiveVector(info.leaks)]. *)
Definition and_receive_vector (env : Environment) (st : ReceiveState)
  : ReceiveState :=
  let '(ok, info, r) := st in
  if ok then
    match ReceiveVector r with
    | (Some l, r') => (true, set_leaks info l, r')
    | (None, r') =>
        (false, set_leaks info (failed_receive_vector env (leaks info) r), r')
    end
  else st.

Definition plural (n : Z) : string := if n =? 1 then "" else "s".

Definition summary_line (info : UnreachableMemoryInfo) : string :=
  (dec (leak_bytes info) ++ " bytes in " ++ dec (num_leaks info)
   ++ " allocation" ++ plural (num_leaks info)
   ++ " unreachable out of " ++ dec (allocation_bytes info)
   ++ " bytes in " ++ dec (num_allocations info)
   ++ " allocation" ++ plural (num_allocations info))%string.

(** The part of [GetUnreachableMemory] run by the calling thread once the
    collection thread has been started: [wait_result] is what
    [continue_parent_sem.Wait(100s)] returned, [ret] what [thread.Join()]
    returned, [receiver_ok] the result of [pipe.OpenReceiver()] and
    [stream] what the pipe holds.  The result of the wait is not
    examined. *)
Definition original_thread (env : Environment) (wait_result : bool)
    (ret : Z) (receiver_ok : bool) (stream : list Message)
    (info : UnreachableMemoryInfo)
  : bool * UnreachableMemoryInfo * list LogLine :=
  if negb (ret =? 0) then (false, info, [])
  else if negb receiver_ok then (false, info, [])
  else
    let st : ReceiveState := (true, info, stream) in
    let st := and_receive env st num_allocations set_num_allocations in
    let st := and_receive env st allocation_bytes set_allocation_bytes in
    let st := and_receive env st num_leaks set_num_leaks in
    let st := and_receive env st leak_bytes set_leak_bytes in
    let st := and_receive_vector env st in
    let '(ok, info, _) := st in
    if negb ok then (false, info, [])
    else
      (true, info,
       [ALOGI "unreachable memory detection done";
        ALOGE (summary_line info)]).

(** What the pipe holds for the receiver: the messages of the forked
    child, if there is one. *)
Definition pipe_stream (run : ThreadRun) : list Message :=
  match walker_process run with
  | Some (_, msgs) => msgs
  | None => []
  end.

(** [GetUnreachableMemory(info, limit)]: the result, the caller's [info]
    afterwards, and the lines logged by the calling thread. *)
Definition GetUnreachableMemory (env : Environment)
    (info : UnreachableMemoryInfo) (limit : Z)
  : bool * UnreachableMemoryInfo * list LogLine :=
  let run := collection_thread env limit in
  let wait_result := posted run && post_within_deadline env in
  original_thread env wait_result (thread_ret run) (open_receiver_ok env)
                  (pipe_stream run) info.

(* ================================================================== *)
(** * Logging front end                                                *)
(* ================================================================== *)

Definition bytes_per_line : Z := 16.

Definition newline : string := String (ascii_of_nat 10) EmptyString.

(** [static_cast<int>(c)] for the plain [char] that holds the byte [b]. *)
Definition char_to_int (b : Z) : Z :=
  if plain_char_signed && (128 <=? b) then b - 256 else b.

(** [setfill('0') << setw(2) << static_cast<int>(c)] under [std::hex]:
    an [int] is printed as the hexadecimal digits of its value taken as
    unsigned, so a negative one takes eight digits, and a single digit is
    padded to two. *)
Definition hex_byte (b : Z) : string :=
  let n := char_to_int b mod 2 ^ int_bits in
  if n <? 16 then ("0" ++ hex n)%string else hex n.

(** The character shown for a byte: itself when printable, else a dot. *)
Definition shown_char (b : Z) : string :=
  if (b <? 32) || (b >=? 127) then "."
  else String (ascii_of_N (Z.to_N b)) EmptyString.

(** One line of the dump, for the bytes at offsets [i, i + 16) below
    [bytes]. *)
Definition dump_line (leak : Leak) (bytes : Z) (i : Z) : string :=
  let stop := Z.min bytes (i + bytes_per_line) in
  let row := firstn (Z.to_nat (stop - i)) (skipn (Z.to_nat i) (leak_contents leak)) in
  (hex (wrap (leak_begin leak + i)) ++ ": "
   ++ String.concat "" (map (fun b => hex_byte b ++ " ") row)
   ++ String.concat "" (repeat "   " (Z.to_nat (i + bytes_per_line - stop)))
   ++ String.concat "" (map shown_char row)
   ++ newline)%string.

(** [LogUnreachable(leak, log_contents)]. *)
Definition LogUnreachable (leak : Leak) (log_contents : bool)
  : list LogLine :=
  ALOGE ("unreachable allocation at " ++ hex (leak_begin leak)
         ++ " of approximate size " ++ dec (leak_size leak))%string
  :: (if log_contents then
        let bytes := Z.min (leak_size leak) contents_length in
        map (fun k => ALOGE (dump_line leak bytes (bytes_per_line * Z.of_nat k)))
            (seq 0 (Z.to_nat ((bytes + bytes_per_line - 1) / bytes_per_line)))
      else []).

(** A default-constructed [UnreachableMemoryInfo]. *)
Definition UnreachableMemoryInfo_new : UnreachableMemoryInfo :=
  mkInfo [] 0 0 0 0.

(** [LogUnreachableMemory(log_contents, limit)]: the result and the lines
    logged by the calling thread. *)
Definition LogUnreachableMemory (env : Environment) (log_contents : bool)
    (limit : Z) : bool * list LogLine :=
  let info := UnreachableMemoryInfo_new in
  let '(ok, info, log) := GetUnreachableMemory env info limit in
  if negb ok then (false, log)
  else
    (true,
     log ++ flat_map (fun it => LogUnreachable it log_contents) (leaks info)).

(* ================================================================== *)
(** * Notions used to state the properties                             *)
(* ================================================================== *)

(** ** Well-formed allocation index *)

(** The regions are non-empty, lie in the address space at or above [lo],
    are in ascending order and do not overlap. *)
Fixpoint disjoint_from (lo : Z) (l : list Range) : Prop :=
  match l with
  | [] => True
  | r :: rest =>
      lo <= range_begin r /\ range_begin r < range_end r
      /\ range_end r < ptr_modulus /\ disjoint_from (range_end r) rest
  end.

Definition index_ok (w : HeapWalker) : Prop :=
  disjoint_from 0 (map alloc_range (allocations w)).

(** The allocator reports non-empty chunks inside the address space. *)
Definition chunks_ok (env : Environment) : Prop :=
  forall base len b s,
    In (b, s) (malloc_iterate env base len) ->
    0 <= b /\ 0 < s /\ b + s < ptr_modulus.

(** ** The total size of a list of regions *)

Definition total_bytes (l : list Range) : Z :=
  fold_right (fun r acc => (range_end r - range_begin r) + acc) 0 l.

(** ** Reachable allocations *)

(** The value [v] is a pointer-sized word of the region [r]: the word
    read at an address that is aligned to the word size, with the whole
    word inside the region. *)
Definition word_in (mem : Memory) (r : Range) (v : Z) : Prop :=
  exists a,
    a mod word_size = 0
    /\ range_begin r <= a /\ a + word_size <= range_end r
    /\ read_word mem a = Some v.

(** The value [v] points into the region [r], at its begin or inside. *)
Definition points_into (v : Z) (r : Range) : Prop :=
  range_begin r <= v < range_end r.

(** The allocations the conservative mark phase of the specification has
    to reach, stated without a work queue.  An allocation that is not yet
    referenced is reached when a value of a register blob points into it,
    or a word of a root region does, or a word of an allocation that is
    itself reached.  Allocations whose referenced bit is set before the
    walk are not scanned and reach nothing. *)
Inductive reached (mem : Memory) (w : HeapWalker) : Range -> Prop :=
| reached_by_blob (blob : list Z) (v : Z) (a : AllocationInfo) :
    In blob (root_vals w) -> In v blob ->
    In a (allocations w) -> referenced a = false ->
    points_into v (alloc_range a) ->
    reached mem w (alloc_range a)
| reached_from_root (r : Range) (v : Z) (a : AllocationInfo) :
    In r (roots w) -> word_in mem r v ->
    In a (allocations w) -> referenced a = false ->
    points_into v (alloc_range a) ->
    reached mem w (alloc_range a)
| reached_through (r : Range) (v : Z) (a : AllocationInfo) :
    reached mem w r -> word_in mem r v ->
    In a (allocations w) -> referenced a = false ->
    points_into v (alloc_range a) ->
    reached mem w (alloc_range a).

(** The region of an allocation of the index that is not referenced
    before the walk and is not reached: a leak. *)
Definition unreachable (mem : Memory) (w : HeapWalker) (r : Range) : Prop :=
  (exists a, In a (allocations w) /\ alloc_range a = r
             /\ referenced a = false)
  /\ ~ reached mem w r.

(** ** Notions for the proof of the mark phase *)

(** Every allocation that holds [v] is referenced. *)
Definition pointed (allocs : list AllocationInfo) (v : Z) : Prop :=
  forall a, In a allocs -> contains (alloc_range a) v = true ->
            referenced a = true.

(** An allocation before and after the scan of the values [vals] that
    leaves [queue]: the region is kept, a referenced bit is only ever set,
    it is set for a value of [vals] inside the region, and the region is
    then queued. *)
Definition marks (vals : list Z) (queue : list Range)
    (a a' : AllocationInfo) : Prop :=
  alloc_range a' = alloc_range a
  /\ (referenced a = true -> referenced a' = true)
  /\ (referenced a' = true ->
      referenced a = true
      \/ exists v, In v vals /\ contains (alloc_range a) v = true)
  /\ (referenced a = false -> referenced a' = true ->
      In (alloc_range a) queue).

(** An allocation of the index of [w] and its state while marking, with
    [queue] left to scan and the values [scanned] read so far. *)
Definition marked_from (mem : Memory) (w : HeapWalker) (queue : list Range)
    (scanned : list Z) (a0 a : AllocationInfo) : Prop :=
  alloc_range a = alloc_range a0
  /\ (referenced a0 = true -> referenced a = true)
  /\ (referenced a = true ->
      referenced a0 = true \/ reached mem w (alloc_range a0))
  /\ (referenced a = true ->
      referenced a0 = true \/ In (alloc_range a0) queue
      \/ forall v, In v (region_words mem (alloc_range a0)) -> In v scanned).

(** The invariant of the work-queue loop. *)
Definition mark_invariant (mem : Memory) (w : HeapWalker)
    (allocs : list AllocationInfo) (queue : list Range) (scanned : list Z)
  : Prop :=
  Forall2 (marked_from mem w queue scanned) (allocations w) allocs
  /\ (forall r, In r queue -> In r (roots w) \/ reached mem w r)
  /\ (forall v, In v scanned -> pointed allocs v)
  /\ (forall r, In r (roots w) ->
        In r queue
        \/ forall v, In v (region_words mem r) -> In v scanned)
  /\ (forall blob v, In blob (root_vals w) -> In v blob -> In v scanned).

(** ** Order of the reported leaks *)

(** The order of the emitted regions: decreasing size, ties by ascending
    begin. *)
Definition range_before (a b : Range) : Prop :=
  range_size b < range_size a
  \/ (range_size a = range_size b /\ range_begin a <= range_begin b).

(** Decreasing size, ties by ascending begin. *)
Definition leak_order (a b : Leak) : Prop :=
  leak_size b < leak_size a
  \/ (leak_size a = leak_size b /\ leak_begin a <= leak_begin b).

(** ** Contents of a reported leak *)

(** The bytes at [begin, begin + n) are in [contents], followed by zeros
    up to [contents_length]. *)
Definition contents_copied (mem : Memory) (leak : Leak) : Prop :=
  let n := Z.min (leak_size leak) contents_length in
  Z.of_nat (List.length (leak_contents leak)) = contents_length
  /\ (forall i, 0 <= i < n ->
        mem (leak_begin leak + i)
        = Some (nth (Z.to_nat i) (leak_contents leak) 0))
  /\ (forall i, n <= i < contents_length ->
        nth (Z.to_nat i) (leak_contents leak) 0 = 0).

(** The contents the specification asks for: a byte that cannot be read
    is replaced by zero. *)
Fixpoint safe_contents (mem : Memory) (addr : Z) (n : nat) : list Z :=
  match n with
  | O => []
  | S k =>
      match mem addr with
      | Some b => b :: safe_contents mem (addr + 1) k
      | None => repeat 0 (S k)
      end
  end.

Definition safe_leak (mem : Memory) (it : Range) : Leak :=
  let n := Z.to_nat (Z.min (range_size it) contents_length) in
  mkLeak (range_begin it) (range_size it)
         (safe_contents mem (range_begin it) n
          ++ repeat 0 (Z.to_nat contents_length - n)).

(** ** Stack roots of a thread *)

(** [m.begin <= stack_top <= m.end], both bounds inclusive. *)
Definition contains_stack_top (thread : ThreadInfo) (m : Mapping) : bool :=
  (map_begin m <=? fst (stack thread)) && (fst (stack thread) <=? map_end m).

(** One region [stack_top, m.end) for each stack mapping that contains the
    stack pointer of the thread. *)
Definition stack_roots_of (stacks : list Mapping) (thread : ThreadInfo)
  : list Range :=
  map (fun m => mkRange (fst (stack thread)) (map_end m))
      (filter (contains_stack_top thread) stacks).

Definition whole_mapping (m : Mapping) : Range :=
  mkRange (map_begin m) (map_end m).

(** ** The exit-status table of the specification *)

Inductive ChildFailure : Type :=
| NoFailure
| CaptureOrForkFailure
| CollectionFailure
| PipeFailure.

Definition table_status (f : ChildFailure) : Z :=
  match f with
  | NoFailure => 0
  | CaptureOrForkFailure => 1
  | CollectionFailure => 2
  | PipeFailure => 3
  end.

(** Messages written by a complete run: four values, the vector length
    and the vector elements. *)
Definition messages_of_run : nat := 6.

(** The failure of a run of the child in the table's terms: opening the
    sender and sending are pipe failures. *)
Definition child_failure (env : Environment)
    (thread_info : list ThreadInfo) (mappings : list Mapping) : ChildFailure :=
  if negb (open_sender_ok env) then PipeFailure
  else if negb (fst (CollectAllocations env
                       (mkMemUnreachable (parent_pid env) HeapWalker_new)
                       thread_info mappings))
  then CollectionFailure
  else if (sender_quota env <? messages_of_run)%nat then PipeFailure
  else NoFailure.

(** ** What the child computes *)

(** The [MemUnreachable] object of the child after [CollectAllocations]. *)
Definition child_unreachable (env : Environment)
    (thread_info : list ThreadInfo) (mappings : list Mapping)
  : MemUnreachable :=
  snd (CollectAllocations env
         (mkMemUnreachable (parent_pid env) HeapWalker_new)
         thread_info mappings).

(** The five values computed in the child, as an [UnreachableMemoryInfo];
    [None] when no child gets that far. *)
Definition child_values (env : Environment) (limit : Z)
  : option UnreachableMemoryInfo :=
  match captured_thread_info env, process_mappings env with
  | Some thread_info, Some mappings =>
      let u := child_unreachable env thread_info mappings in
      match MemUnreachable_GetUnreachableMemory (memory env) u [] limit with
      | Returned (_, _, leaks, num_leaks, leak_bytes) =>
          Some (mkInfo leaks num_leaks leak_bytes
                       (Allocations u) (AllocationBytes u))
      | Fault => None
      end
  | _, _ => None
  end.

(** ** Complete results on the pipe *)

(** The six messages of a complete run, for the values [v]: the four
    header values, the vector length and the vector elements. *)
Definition messages_for (v : UnreachableMemoryInfo) : list Message :=
  [MsgValue (num_allocations v); MsgValue (allocation_bytes v);
   MsgValue (num_leaks v); MsgValue (leak_bytes v);
   MsgValue (wrap (Z.of_nat (List.length (leaks v))));
   MsgElements (leaks v)].

(** The stream starts with four values and a vector whose announced
    length is its length. *)
Definition complete_stream (r : list Message) : bool :=
  match r with
  | MsgValue _ :: MsgValue _ :: MsgValue _ :: MsgValue _
    :: MsgValue n :: MsgElements l :: _ => Z.of_nat (List.length l) =? n
  | _ => false
  end.

(** ** Partially received results *)

(** The header fields of [info], in the order of the receives. *)
Definition header_values (info : UnreachableMemoryInfo) : list Z :=
  [num_allocations info; allocation_bytes info;
   num_leaks info; leak_bytes info].

(** ** Environments that differ in one answer *)

Definition with_deadline (env : Environment) (met : bool) : Environment :=
  mkEnv (parent_pid env) (memory env) (malloc_iterate env)
        (capture_threads_ok env) (captured_thread_info env)
        (process_mappings env) (fork_result env) (open_sender_ok env)
        (sender_quota env) met (open_receiver_ok env)
        (failed_receive env) (failed_receive_vector env).

Definition with_sender (env : Environment) (opened : bool) (q : nat)
  : Environment :=
  mkEnv (parent_pid env) (memory env) (malloc_iterate env)
        (capture_threads_ok env) (captured_thread_info env)
        (process_mappings env) (fork_result env) opened q
        (post_within_deadline env) (open_receiver_ok env)
        (failed_receive env) (failed_receive_vector env).

Definition with_memory (env : Environment) (mem : Memory) : Environment :=
  mkEnv (parent_pid env) mem (malloc_iterate env)
        (capture_threads_ok env) (captured_thread_info env)
        (process_mappings env) (fork_result env) (open_sender_ok env)
        (sender_quota env) (post_within_deadline env) (open_receiver_ok env)
        (failed_receive env) (failed_receive_vector env).

(** ** Scenario S5: five leaked allocations of sizes 10 to 50 *)

Definition S5_library_text : Mapping :=
  mkMapping 256 512 true false true "/system/lib/libc.so".
Definition S5_library_data : Mapping :=
  mkMapping 512 768 true true false "/system/lib/libc.so".
Definition S5_heap : Mapping :=
  mkMapping 4096 8192 true true false "[anon:libc_malloc]".
Definition S5_stack : Mapping :=
  mkMapping 12288 12544 true true false "[stack:2]".

(** Every mapped byte is zero, so nothing points into the heap. *)
Definition S5_memory : Memory :=
  fun a =>
    if ((512 <=? a) && (a <? 768)) || ((4096 <=? a) && (a <? 8192))
       || ((12288 <=? a) && (a <? 12544))
    then Some 0 else None.

Definition S5_chunks : list (Z * Z) :=
  [(4096, 10); (4352, 20); (4608, 30); (4864, 40); (5120, 50)].

Definition S5_env : Environment :=
  mkEnv 1 S5_memory
        (fun base _ => if base =? 4096 then S5_chunks else [])
        true
        (Some [mkThreadInfo 2 [0; 0] (12400, 0)])
        (Some [S5_library_text; S5_library_data; S5_heap; S5_stack])
        77 true messages_of_run true true
        (fun held _ => held) (fun held _ => held).

Definition S5_threads : list ThreadInfo := [mkThreadInfo 2 [0; 0] (12400, 0)].

Definition S5_mappings : list Mapping :=
  [S5_library_text; S5_library_data; S5_heap; S5_stack].

(** The memory of S5 when the first allocation holds the bytes 1, 2, 3, 4
    and nothing from address 4100 on can be read. *)
Definition torn_memory : Memory :=
  fun a =>
    if 4100 <=? a then None
    else if 4096 <=? a then Some (a - 4095)
    else S5_memory a.

(** The memory of S5 with two pointers: the library data at 520 points
    16 bytes into the allocation at 4608, and that allocation at its offset
    8 points to the allocation at 5120. *)
Definition pointer_memory : Memory :=
  fun a =>
    if a =? 520 then Some 16 else if a =? 521 then Some 18
    else if a =? 4617 then Some 20 else S5_memory a.

(** Mappings of every kind of the table, after the library of S5. *)
Definition table_mappings : list Mapping :=
  [S5_library_text; S5_library_data;
   mkMapping 1024 2048 true true false "[anon:.bss]";
   S5_heap;
   mkMapping 16384 20480 true true false "/dev/ashmem/dalvik-main space";
   S5_stack;
   mkMapping 20480 24576 true true false "";
   mkMapping 24576 28672 true true false "[anon:linker_alloc]";
   mkMapping 28672 32768 true true false "[anon:leak_detector_malloc]";
   mkMapping 32768 36864 true false false "/system/fonts/Roboto.ttf";
   mkMapping 36864 40960 false false false "[anon:.bss]"].

(** An [info] of the caller with distinctive contents. *)
Definition stale_info : UnreachableMemoryInfo := mkInfo [] 91 92 93 94.

(** ** Notions for the classifier's output *)

(** What holds of the output vectors at every point of the loop of
    [ClassifyMappings] over [ms]: every entry is a readable,
    non-executable mapping of [ms], carrying the name its vector stands
    for. *)
Definition classified_from (ms : list Mapping) (c : Classified) : Prop :=
  Forall (fun m => In m ms /\ map_read m = true /\ map_execute m = false
                   /\ map_name m = "[anon:libc_malloc]")
         (heap_mappings c)
  /\ Forall (fun m => In m ms /\ map_read m = true /\ map_execute m = false
                      /\ has_prefix (map_name m) "[stack" = true)
            (stack_mappings c)
  /\ Forall (fun m => In m ms /\ map_read m = true /\ map_execute m = false)
            (globals_mappings c)
  /\ anon_mappings c = [].

(** The name of the detector's own arena. *)
Definition arena_name : string := "[anon:leak_detector_malloc]".

(** No vector holds a mapping named [n]. *)
Definition never_classified (n : string) (c : Classified) : Prop :=
  Forall (fun m => map_name m <> n)
         (heap_mappings c ++ globals_mappings c ++ stack_mappings c).

(** ** Where an allocation comes from *)

(** The region [r] was reported by the allocator: [HeapIterate] on a
    readable, non-executable mapping of [mappings] named
    "[anon:libc_malloc]" called back with a pair [(base, size)], and [r] is
    [base, base + size). *)
Definition enumerated (env : Environment) (mappings : list Mapping)
    (r : Range) : Prop :=
  exists m bs,
    In m mappings
    /\ map_name m = "[anon:libc_malloc]"
    /\ map_read m = true /\ map_execute m = false
    /\ In bs (HeapIterate env m)
    /\ r = mkRange (fst bs) (wrap (fst bs + snd bs)).

(** ** The shape of the log *)

(** Number of dump rows for a leak of [size] bytes: none when the leak is
    empty, one for up to 16 bytes, two beyond. *)
Definition rows_of (size : Z) : nat :=
  if size <=? 0 then 0%nat else if size <=? 16 then 1%nat else 2%nat.

(** The bytes shown on the dump row at offset [i] below [bytes]. *)
Definition dump_row (leak : Leak) (bytes : Z) (i : Z) : list Z :=
  firstn (Z.to_nat (Z.min bytes (i + 16) - i))
         (skipn (Z.to_nat i) (leak_contents leak)).

(** A leak of 20 bytes holding the letters A to T. *)
Definition letters_leak : Leak :=
  mkLeak 4352 20 (map Z.of_nat (seq 65 20) ++ repeat 0 12).

(* ================================================================== *)
(** * The scheduling-policy helper                                     *)
(* ================================================================== *)

(** The first translation unit of [src/libcutils/sched_policy.c], in its
    Android configuration ([__ANDROID__] defined, [POLICY_DEBUG] 0).  The
    log calls ([SLOGE], [SLOGW]) are not modelled. *)

(** ** Declarations the code relies on *)

(** The enumerators of [SchedPolicy] are declared in
    cutils/sched_policy.h, which is not part of the sources: their values
    are the fields of this record, a parameter of every function that
    names one.  A policy is the integer value of the enumeration. *)
Record SchedPolicyHeader : Type := mkHeader {
  SP_DEFAULT : Z;
  SP_BACKGROUND : Z;
  SP_FOREGROUND : Z;
  SP_SYSTEM : Z;
  SP_AUDIO_APP : Z;
  SP_AUDIO_SYS : Z;
  SP_REALTIME : Z;
  SP_CNT : Z;
  SP_SYSTEM_DEFAULT : Z
}.

(** Values of the Linux headers <errno.h>, <sched.h> and of the macros
    defined at the top of the file. *)
Definition ENOENT : Z := 2.
Definition ESRCH : Z := 3.
Definition EINVAL : Z := 22.
Definition ERANGE : Z := 34.
Definition SCHED_NORMAL : Z := 0.
Definition SCHED_RR : Z := 2.
Definition SCHED_BATCH : Z := 3.
Definition PR_SET_TIMERSLACK_PID : Z := 41.
Definition TIMER_SLACK_BG : Z := 40000000.
Definition TIMER_SLACK_FG : Z := 50000.

(** What a system call returns: its value, and the [errno] it sets when
    the value is negative. *)
Record Ret : Type := mkRet {
  ret_value : Z;
  ret_errno : Z
}.

(** The answers of the kernel and of libc to the calls the code makes. *)
Record Kernel : Type := mkKernel {
  k_gettid : Z;
  (** [access(path, F_OK)]. *)
  k_access : string -> Ret;
  (** [open(path, flags)]. *)
  k_open : string -> Ret;
  (** [read(fd, buf, count)]: the bytes read, and the return value. *)
  k_read : Z -> Z -> string * Ret;
  (** [close(fd)]. *)
  k_close : Z -> Ret;
  (** [write(fd, text, strlen(text))]. *)
  k_write : Z -> string -> Ret;
  (** [sched_setscheduler(tid, policy, &param)], by priority. *)
  k_sched_setscheduler : Z -> Z -> Z -> Ret;
  (** [sched_getscheduler(tid)]. *)
  k_sched_getscheduler : Z -> Ret;
  (** [prctl(option, arg2, arg3)]. *)
  k_prctl : Z -> Z -> Z -> Ret;
  (** [fopen("/proc/<tid>/cgroup", "r")]: the contents of the file, or
      [None] when it cannot be opened. *)
  k_fopen_cgroup : Z -> option string;
  (** The [errno] of a failed [fopen]. *)
  k_fopen_errno : Z -> Z;
  (** The bytes the automatic array [lineBuf] of [getSchedulerGroup] holds
      when the function is entered; the array is not initialised, and its
      first 256 bytes are taken. *)
  k_lineBuf : string
}.

(** The file-scope variables of the translation unit, the three
    [pthread_once_t] controls (set once their routine has run) and the
    [errno] of the calling thread. *)
Record SchedState : Type := mkSchedState {
  the_once : bool;
  sched_once : bool;
  cpuset_once : bool;
  __sys_supports_schedgroups : Z;
  __sys_supports_cpusets : Z;
  proc_name : string;
  bg_cgroup_fd : Z;
  fg_cgroup_fd : Z;
  system_bg_cpuset_fd : Z;
  bg_cpuset_fd : Z;
  fg_cpuset_fd : Z;
  errno : Z
}.

(** The initialisers of the file-scope variables; [errno] is whatever the
    thread had. *)
Definition SchedState_initial (errno0 : Z) : SchedState :=
  mkSchedState false false false (-1) (-1) "" (-1) (-1) (-1) (-1) (-1) errno0.

Definition set_the_once (s : SchedState) (v : bool) : SchedState :=
  mkSchedState v (sched_once s) (cpuset_once s)
    (__sys_supports_schedgroups s) (__sys_supports_cpusets s) (proc_name s)
    (bg_cgroup_fd s) (fg_cgroup_fd s) (system_bg_cpuset_fd s)
    (bg_cpuset_fd s) (fg_cpuset_fd s) (errno s).

Definition set_sched_once (s : SchedState) (v : bool) : SchedState :=
  mkSchedState (the_once s) v (cpuset_once s)
    (__sys_supports_schedgroups s) (__sys_supports_cpusets s) (proc_name s)
    (bg_cgroup_fd s) (fg_cgroup_fd s) (system_bg_cpuset_fd s)
    (bg_cpuset_fd s) (fg_cpuset_fd s) (errno s).

Definition set_cpuset_once (s : SchedState) (v : bool) : SchedState :=
  mkSchedState (the_once s) (sched_once s) v
    (__sys_supports_schedgroups s) (__sys_supports_cpusets s) (proc_name s)
    (bg_cgroup_fd s) (fg_cgroup_fd s) (system_bg_cpuset_fd s)
    (bg_cpuset_fd s) (fg_cpuset_fd s) (errno s).

Definition set_supports_schedgroups (s : SchedState) (v : Z) : SchedState :=
  mkSchedState (the_once s) (sched_once s) (cpuset_once s)
    v (__sys_supports_cpusets s) (proc_name s)
    (bg_cgroup_fd s) (fg_cgroup_fd s) (system_bg_cpuset_fd s)
    (bg_cpuset_fd s) (fg_cpuset_fd s) (errno s).

Definition set_supports_cpusets (s : SchedState) (v : Z) : SchedState :=
  mkSchedState (the_once s) (sched_once s) (cpuset_once s)
    (__sys_supports_schedgroups s) v (proc_name s)
    (bg_cgroup_fd s) (fg_cgroup_fd s) (system_bg_cpuset_fd s)
    (bg_cpuset_fd s) (fg_cpuset_fd s) (errno s).

Definition set_proc_name (s : SchedState) (v : string) : SchedState :=
  mkSchedState (the_once s) (sched_once s) (cpuset_once s)
    (__sys_supports_schedgroups s) (__sys_supports_cpusets s) v
    (bg_cgroup_fd s) (fg_cgroup_fd s) (system_bg_cpuset_fd s)
    (bg_cpuset_fd s) (fg_cpuset_fd s) (errno s).

Definition set_bg_cgroup_fd (s : SchedState) (v : Z) : SchedState :=
  mkSchedState (the_once s) (sched_once s) (cpuset_once s)
    (__sys_supports_schedgroups s) (__sys_supports_cpusets s) (proc_name s)
    v (fg_cgroup_fd s) (system_bg_cpuset_fd s)
    (bg_cpuset_fd s) (fg_cpuset_fd s) (errno s).

Definition set_fg_cgroup_fd (s : SchedState) (v : Z) : SchedState :=
  mkSchedState (the_once s) (sched_once s) (cpuset_once s)
    (__sys_supports_schedgroups s) (__sys_supports_cpusets s) (proc_name s)
    (bg_cgroup_fd s) v (system_bg_cpuset_fd s)
    (bg_cpuset_fd s) (fg_cpuset_fd s) (errno s).

Definition set_system_bg_cpuset_fd (s : SchedState) (v : Z) : SchedState :=
  mkSchedState (the_once s) (sched_once s) (cpuset_once s)
    (__sys_supports_schedgroups s) (__sys_supports_cpusets s) (proc_name s)
    (bg_cgroup_fd s) (fg_cgroup_fd s) v
    (bg_cpuset_fd s) (fg_cpuset_fd s) (errno s).

Definition set_bg_cpuset_fd (s : SchedState) (v : Z) : SchedState :=
  mkSchedState (the_once s) (sched_once s) (cpuset_once s)
    (__sys_supports_schedgroups s) (__sys_supports_cpusets s) (proc_name s)
    (bg_cgroup_fd s) (fg_cgroup_fd s) (system_bg_cpuset_fd s)
    v (fg_cpuset_fd s) (errno s).

Definition set_fg_cpuset_fd (s : SchedState) (v : Z) : SchedState :=
  mkSchedState (the_once s) (sched_once s) (cpuset_once s)
    (__sys_supports_schedgroups s) (__sys_supports_cpusets s) (proc_name s)
    (bg_cgroup_fd s) (fg_cgroup_fd s) (system_bg_cpuset_fd s)
    (bg_cpuset_fd s) v (errno s).

Definition set_errno (s : SchedState) (v : Z) : SchedState :=
  mkSchedState (the_once s) (sched_once s) (cpuset_once s)
    (__sys_supports_schedgroups s) (__sys_supports_cpusets s) (proc_name s)
    (bg_cgroup_fd s) (fg_cgroup_fd s) (system_bg_cpuset_fd s)
    (bg_cpuset_fd s) (fg_cpuset_fd s) v.

(** The state after a system call: a negative return value comes with an
    [errno]. *)
Definition after_call (s : SchedState) (r : Ret) : SchedState :=
  if ret_value r <? 0 then set_errno s (ret_errno r) else s.

(** The calls that act on the scheduling of a thread, in the order they
    are made. *)
Inductive Action : Type :=
| ActWrite (fd : Z) (text : string)
| ActSetScheduler (tid posix_policy priority : Z)
| ActTimerSlack (slack tid : Z).

(** ** [_policy] *)

(** [_policy]: [SP_DEFAULT] stands for the system default policy. *)
Definition _policy (h : SchedPolicyHeader) (p : Z) : Z :=
  if p =? SP_DEFAULT h then SP_SYSTEM_DEFAULT h else p.

(** ** [add_tid_to_cgroup] *)

(** ['0' + d]. *)
Definition digit_char (d : Z) : ascii := ascii_of_N (Z.to_N (48 + d)).

(** The loop [while (tid > 0)] that writes the digits of [tid] backwards
    from the end of [text]; [room] is the number of bytes left before the
    start of the buffer. *)
Fixpoint itoa_loop (room : nat) (tid : Z) (text : string) : string :=
  match room with
  | O => text
  | S room' =>
      if tid >? 0
      then itoa_loop room' (Z.quot tid 10)
                     (String (digit_char (Z.rem tid 10)) text)
      else text
  end.

(** The text between [ptr] and [end] after the loop.  [char text[22]]
    leaves 21 bytes before the terminator, more than the digits of an
    [int]. *)
Definition itoa (tid : Z) : string := itoa_loop 21 tid "".

(** [add_tid_to_cgroup(tid, fd)]: the return value, the state and the
    write attempted. *)
Definition add_tid_to_cgroup (k : Kernel) (s : SchedState) (tid fd : Z)
  : Z * SchedState * list Action :=
  if fd <? 0 then (-1, set_errno s EINVAL, [])
  else
    let text := itoa tid in
    let r := k_write k fd text in
    let s := after_call s r in
    if ret_value r <? 0 then
      if errno s =? ESRCH then (0, s, [ActWrite fd text])
      else (-1, set_errno s EINVAL, [ActWrite fd text])
    else (0, s, [ActWrite fd text]).

(** ** Initialisation *)

(** [sprintf("%d")] of a thread id. *)
Definition dec_int (n : Z) : string :=
  if n <? 0 then ("-" ++ dec (- n))%string else dec n.

(** [__initialize]. *)
Definition __initialize (k : Kernel) (s : SchedState) : SchedState :=
  let ptid := k_gettid k in
  let s := set_proc_name s ("/proc/" ++ dec_int ptid ++ "/cmdline")%string in
  let r := k_open k (proc_name s) in
  let s := after_call s r in
  let pfd := ret_value r in
  let s := set_proc_name s "" in
  if pfd >? 0 then
    let (bytes, rr) := k_read k pfd 254 in
    let s := after_call (set_proc_name s bytes) rr in
    after_call s (k_close k pfd)
  else s.

(** [pthread_once(&the_once, __initialize)]. *)
Definition once_initialize (k : Kernel) (s : SchedState) : SchedState :=
  if the_once s then s else __initialize k (set_the_once s true).

(** [__init_sched]. *)
Definition __init_sched (k : Kernel) (s : SchedState) : SchedState :=
  let s := once_initialize k s in
  let a := k_access k "/dev/cpuctl/tasks" in
  let s := after_call s a in
  if ret_value a =? 0 then
    let s := set_supports_schedgroups s 1 in
    let r := k_open k "/dev/cpuctl/tasks" in
    let s := set_fg_cgroup_fd (after_call s r) (ret_value r) in
    let s := if fg_cgroup_fd s <? 0 then set_supports_schedgroups s 0 else s in
    let r := k_open k "/dev/cpuctl/bg_non_interactive/tasks" in
    let s := set_bg_cgroup_fd (after_call s r) (ret_value r) in
    let s := if bg_cgroup_fd s <? 0 then set_supports_schedgroups s 0 else s in
    if __sys_supports_schedgroups s =? 0 then
      let s := after_call s (k_close k (bg_cgroup_fd s)) in
      let s := set_bg_cgroup_fd s (-1) in
      let s := after_call s (k_close k (fg_cgroup_fd s)) in
      set_fg_cgroup_fd s (-1)
    else s
  else set_supports_schedgroups s 0.

(** [__init_cpuset]; [use_cpusets] tells whether [USE_CPUSETS] is
    defined. *)
Definition __init_cpuset (use_cpusets : bool) (k : Kernel) (s : SchedState)
  : SchedState :=
  let s := once_initialize k s in
  if use_cpusets then
    let a := k_access k "/dev/cpuset/tasks" in
    let s := after_call s a in
    if ret_value a =? 0 then
      let s := set_supports_cpusets s 1 in
      let r := k_open k "/dev/cpuset/foreground/tasks" in
      let s := set_fg_cpuset_fd (after_call s r) (ret_value r) in
      let s := if fg_cpuset_fd s <? 0 then set_supports_cpusets s 0 else s in
      let r := k_open k "/dev/cpuset/background/tasks" in
      let s := set_bg_cpuset_fd (after_call s r) (ret_value r) in
      let s := if bg_cpuset_fd s <? 0 then set_supports_cpusets s 0 else s in
      let r := k_open k "/dev/cpuset/system-background/tasks" in
      let s := set_system_bg_cpuset_fd (after_call s r) (ret_value r) in
      let s :=
        if system_bg_cpuset_fd s <? 0 then set_supports_cpusets s 0 else s in
      if __sys_supports_cpusets s =? 0 then
        let s := after_call s (k_close k (fg_cpuset_fd s)) in
        let s := set_fg_cpuset_fd s (-1) in
        let s := after_call s (k_close k (bg_cpuset_fd s)) in
        let s := set_bg_cpuset_fd s (-1) in
        let s := after_call s (k_close k (system_bg_cpuset_fd s)) in
        set_system_bg_cpuset_fd s (-1)
      else s
    else set_supports_cpusets s 0
  else s.

(** [pthread_once(&sched_once, __init_sched)]. *)
Definition once_init_sched (k : Kernel) (s : SchedState) : SchedState :=
  if sched_once s then s else __init_sched k (set_sched_once s true).

(** [pthread_once(&cpuset_once, __init_cpuset)]. *)
Definition once_init_cpuset (use_cpusets : bool) (k : Kernel)
    (s : SchedState) : SchedState :=
  if cpuset_once s then s
  else __init_cpuset use_cpusets k (set_cpuset_once s true).

(** ** [set_sched_policy] and [set_cpuset_policy] *)

(** [set_sched_policy(tid, policy)]: the return value, the state and the
    actions. *)
Definition set_sched_policy (h : SchedPolicyHeader) (k : Kernel)
    (s : SchedState) (tid policy : Z) : Z * SchedState * list Action :=
  let tid := if tid =? 0 then k_gettid k else tid in
  let policy := _policy h policy in
  let s := once_init_sched k s in
  let slack :=
    if policy =? SP_BACKGROUND h then TIMER_SLACK_BG else TIMER_SLACK_FG in
  if negb (__sys_supports_schedgroups s =? 0)
     && negb (policy =? SP_REALTIME h)
  then
    let fd :=
      if policy =? SP_BACKGROUND h then bg_cgroup_fd s
      else if (policy =? SP_FOREGROUND h) || (policy =? SP_AUDIO_APP h)
              || (policy =? SP_AUDIO_SYS h)
      then fg_cgroup_fd s
      else -1 in
    let '(added, s, acts) := add_tid_to_cgroup k s tid fd in
    if negb (added =? 0)
       && (negb (errno s =? ESRCH) && negb (errno s =? ENOENT))
    then (- errno s, s, acts)
    else
      let s := after_call s (k_prctl k PR_SET_TIMERSLACK_PID slack tid) in
      (0, s, acts ++ [ActTimerSlack slack tid])
  else
    let posix_policy :=
      if policy =? SP_BACKGROUND h then SCHED_BATCH
      else if policy =? SP_REALTIME h then SCHED_RR
      else SCHED_NORMAL in
    let priority :=
      if policy =? SP_BACKGROUND h then 0
      else if policy =? SP_REALTIME h then 1
      else 0 in
    let s := after_call s (k_sched_setscheduler k tid posix_policy priority) in
    let s := after_call s (k_prctl k PR_SET_TIMERSLACK_PID slack tid) in
    (0, s, [ActSetScheduler tid posix_policy priority;
            ActTimerSlack slack tid]).

(** [set_cpuset_policy(tid, policy)]. *)
Definition set_cpuset_policy (use_cpusets : bool) (h : SchedPolicyHeader)
    (k : Kernel) (s : SchedState) (tid policy : Z)
  : Z * SchedState * list Action :=
  if negb use_cpusets then set_sched_policy h k s tid policy
  else
    let tid := if tid =? 0 then k_gettid k else tid in
    let s := once_init_cpuset use_cpusets k s in
    if __sys_supports_cpusets s =? 0 then set_sched_policy h k s tid policy
    else
      let policy := _policy h policy in
      let fd :=
        if policy =? SP_BACKGROUND h then bg_cpuset_fd s
        else if (policy =? SP_FOREGROUND h) || (policy =? SP_AUDIO_APP h)
                || (policy =? SP_AUDIO_SYS h)
        then fg_cpuset_fd s
        else if policy =? SP_SYSTEM h then system_bg_cpuset_fd s
        else -1 in
      let '(added, s, acts) := add_tid_to_cgroup k s tid fd in
      if negb (added =? 0)
         && (negb (errno s =? ESRCH) && negb (errno s =? ENOENT))
      then (- errno s, s, acts)
      else (0, s, acts).

(** ** [getSchedulerGroup] and [get_sched_policy] *)

Definition NUL : ascii := ascii_of_nat 0.
Definition LF : ascii := ascii_of_nat 10.
Definition COLON : ascii := ascii_of_nat 58.

(** The C string held by a buffer: its bytes up to the first NUL. *)
Fixpoint c_str (s : string) : string :=
  match s with
  | EmptyString => EmptyString
  | String c rest => if Ascii.eqb c NUL then EmptyString
                     else String c (c_str rest)
  end.

(** At most [k] characters of the stream, up to and including the first
    newline, and the stream that is left. *)
Fixpoint fgets_take (k : nat) (stream : string) : string * string :=
  match k, stream with
  | O, _ => (EmptyString, stream)
  | _, EmptyString => (EmptyString, EmptyString)
  | S k', String c rest =>
      if Ascii.eqb c LF then (String c EmptyString, rest)
      else let (line, remaining) := fgets_take k' rest in
           (String c line, remaining)
  end.

(** [fgets(buf, n, fp)]: at most [n - 1] characters; [None] at the end of
    the file. *)
Definition fgets (n : nat) (stream : string) : option (string * string) :=
  match stream with
  | EmptyString => None
  | _ => Some (fgets_take (n - 1) stream)
  end.

(** The token up to the first colon, and what follows the colon if there
    is one. *)
Fixpoint split_colon (s : string) : string * option string :=
  match s with
  | EmptyString => (EmptyString, None)
  | String c rest =>
      if Ascii.eqb c COLON then (EmptyString, Some rest)
      else let (token, next) := split_colon rest in (String c token, next)
  end.

(** [strsep(&next, ":")] on a pointer that is [None] when NULL: the token
    returned and the new value of [next]. *)
Definition strsep (next : option string) : option string * option string :=
  match next with
  | None => (None, None)
  | Some s => let (token, next') := split_colon s in (Some token, next')
  end.

(** The C string at the start of an array when its terminator lies inside
    the array: the bytes before the first NUL.  [None] when the array
    holds no NUL, so that reading the string runs past its end. *)
Fixpoint terminated (s : string) : option string :=
  match s with
  | EmptyString => None
  | String c rest =>
      if Ascii.eqb c NUL then Some EmptyString
      else option_map (String c) (terminated rest)
  end.

(** The array from the offset [n] on. *)
Fixpoint skip_chars (n : nat) (s : string) : string :=
  match n, s with
  | O, _ => s
  | S _, EmptyString => EmptyString
  | S n', String _ rest => skip_chars n' rest
  end.

(** The array [lineBuf] after [fgets] has stored a line in it: the
    characters read, a NUL, and behind it what the array held before. *)
Definition fgets_store (lineBuf line : string) : string :=
  (line ++ String NUL (skip_chars (S (String.length line)) lineBuf))%string.

(** [strsep] overwrites the delimiter it finds with NUL: the array after
    [strsep] has scanned the C string at the offset [off], whose first
    colon, if it has one, is replaced. *)
Fixpoint strsep_store (off : nat) (lineBuf : string) : string :=
  match lineBuf with
  | EmptyString => EmptyString
  | String c rest =>
      match off with
      | S off' => String c (strsep_store off' rest)
      | O =>
          if Ascii.eqb c NUL then lineBuf
          else if Ascii.eqb c COLON then String NUL rest
          else String c (strsep_store O rest)
      end
  end.

(** The array after the two [strsep] calls made on a line that is
    skipped: the second call starts behind the first colon. *)
Definition lineBuf_skipped (lineBuf : string) : string :=
  let first := fst (split_colon (c_str lineBuf)) in
  strsep_store (S (String.length first)) (strsep_store 0 lineBuf).

(** The string without its last character. *)
Fixpoint drop_last (s : string) : string :=
  match s with
  | EmptyString => EmptyString
  | String c EmptyString => EmptyString
  | String c rest => String c (drop_last rest)
  end.

(** What one iteration of the loop of [getSchedulerGroup] does with the
    line read: go on to the next line, leave by [out_bad_data], return 0
    with [buf] filled, or step outside of [lineBuf] or [buf]. *)
Inductive LineResult : Type :=
| NextLine
| BadData
| GroupFound (buf : string)
| OutOfBuffer.

(** The body of the loop of [getSchedulerGroup] on the array [lineBuf] as
    [fgets] left it.  After the third [strsep], [grp++] skips the first
    character of the token; when the token is empty the pointer moves past
    its terminator, onto what follows the colon or, without a colon, onto
    the byte behind the terminator of the line, where the array still
    holds what an earlier [fgets] and the [strsep] calls left there. *)
Definition scan_cgroup_line (lineBuf : string) (bufLen : Z) : LineResult :=
  let next := Some (c_str lineBuf) in
  match strsep next with
  | (None, _) => BadData
  | (Some _, next) =>
      match strsep next with
      | (None, _) => BadData
      | (Some subsys, next) =>
          if negb (String.eqb subsys "cpu") then NextLine
          else
            match strsep next with
            | (None, _) => BadData
            | (Some grp, next) =>
                let grp :=
                  match grp with
                  | String _ tail => Some tail
                  | EmptyString =>
                      match next with
                      | Some rest => Some rest
                      | None =>
                          terminated
                            (skip_chars
                               (S (String.length (c_str lineBuf))) lineBuf)
                      end
                  end in
                match grp with
                | None => OutOfBuffer
                | Some grp =>
                    let len := Z.of_nat (String.length grp) in
                    let grp := drop_last grp in
                    let len :=
                      if bufLen <=? len then wrap (bufLen - 1) else len in
                    if bufLen <=? len then OutOfBuffer
                    else GroupFound (substring 0 (Z.to_nat len) grp)
                end
            end
      end
  end.

(** What [getSchedulerGroup] does: return 0 with [buf] filled, return -1,
    or step outside of a buffer.  [FuelExhausted] is the end of the fuel of
    the model's loop. *)
Inductive GroupResult : Type :=
| Group (buf : string)
| GroupError
| GroupOutOfBuffer
| FuelExhausted.

(** The loop [while (fgets(lineBuf, sizeof(lineBuf) - 1, fp))], from
    what [lineBuf] holds before the [fgets]. *)
Fixpoint scan_cgroup (fuel : nat) (stream : string) (lineBuf : string)
    (bufLen : Z) : GroupResult :=
  match fuel with
  | O => FuelExhausted
  | S fuel' =>
      match fgets 255 stream with
      | None => GroupError
      | Some (line, remaining) =>
          let lineBuf := fgets_store lineBuf line in
          match scan_cgroup_line lineBuf bufLen with
          | NextLine =>
              scan_cgroup fuel' remaining (lineBuf_skipped lineBuf) bufLen
          | BadData => GroupError
          | GroupFound buf => Group buf
          | OutOfBuffer => GroupOutOfBuffer
          end
      end
  end.

(** [getSchedulerGroup(tid, buf, bufLen)].  Every [fgets] that returns a
    line takes at least one character, so the length of the file bounds
    the number of iterations. *)
Definition getSchedulerGroup (k : Kernel) (s : SchedState) (tid : Z)
    (bufLen : Z) : GroupResult * SchedState :=
  match k_fopen_cgroup k tid with
  | None => (GroupError, set_errno s (k_fopen_errno k tid))
  | Some file =>
      (scan_cgroup (S (String.length file)) file
                   (substring 0 256 (k_lineBuf k)) bufLen, s)
  end.

(** [get_sched_policy(tid, policy)]: the return value, the value stored
    through [policy] if one is stored, and the state; [None] when
    [getSchedulerGroup] steps outside of a buffer. *)
Definition get_sched_policy (h : SchedPolicyHeader) (k : Kernel)
    (s : SchedState) (tid : Z) : option (Z * option Z * SchedState) :=
  let tid := if tid =? 0 then k_gettid k else tid in
  let s := once_init_sched k s in
  if negb (__sys_supports_schedgroups s =? 0) then
    match getSchedulerGroup k s tid 32 with
    | (Group grpBuf, s) =>
        if String.eqb grpBuf "" then Some (0, Some (SP_FOREGROUND h), s)
        else if String.eqb grpBuf "bg_non_interactive"
        then Some (0, Some (SP_BACKGROUND h), s)
        else Some (-1, None, set_errno s ERANGE)
    | (GroupError, s) => Some (-1, None, s)
    | (_, _) => None
    end
  else
    let r := k_sched_getscheduler k tid in
    let s := after_call s r in
    let rc := ret_value r in
    if rc <? 0 then Some (-1, None, s)
    else if rc =? SCHED_NORMAL then Some (0, Some (SP_FOREGROUND h), s)
    else if rc =? SCHED_BATCH then Some (0, Some (SP_BACKGROUND h), s)
    else if rc =? SCHED_RR then Some (0, Some (SP_REALTIME h), s)
    else Some (-1, None, set_errno s ERANGE).

(** ** [get_sched_policy_name] *)

(** The designated initialisers of [strings], in the order written. *)
Definition strings_initializers (h : SchedPolicyHeader)
  : list (Z * string) :=
  [(SP_BACKGROUND h, "bg"); (SP_FOREGROUND h, "fg"); (SP_SYSTEM h, "  ");
   (SP_AUDIO_APP h, "aa"); (SP_AUDIO_SYS h, "as"); (SP_REALTIME h, "rt")].

(** [strings[i]] for an index inside the array: the last initialiser for
    [i], or [None] for the null pointer of an element without one. *)
Definition strings (h : SchedPolicyHeader) (i : Z) : option string :=
  option_map snd
    (find (fun e => fst e =? i) (rev (strings_initializers h))).

(** [get_sched_policy_name(policy)]; [None] when [strings[policy]] is read
    before the start of the array. *)
Definition get_sched_policy_name (h : SchedPolicyHeader) (policy : Z)
  : option string :=
  let policy := _policy h policy in
  if policy <? SP_CNT h then
    if policy <? 0 then None
    else
      match strings h policy with
      | Some name => Some name
      | None => Some "error"
      end
  else Some "error".

(** ** Notions used to state the properties of the helper *)

(** The value of a decimal digit character. *)
Definition digit_value (c : ascii) : Z := Z.of_N (N_of_ascii c) - 48.

(** The number read from decimal digits, most significant first. *)
Fixpoint decimal_from (acc : Z) (s : string) : Z :=
  match s with
  | EmptyString => acc
  | String c rest => decimal_from (acc * 10 + digit_value c) rest
  end.

Definition decimal_value (s : string) : Z := decimal_from 0 s.

Definition is_digit (c : ascii) : bool :=
  (0 <=? digit_value c) && (digit_value c <=? 9).

Fixpoint all_digits (s : string) : bool :=
  match s with
  | EmptyString => true
  | String c rest => is_digit c && all_digits rest
  end.

(** The largest [int]. *)
Definition INT_MAX : Z := 2147483647.

(** The variables of the scheduling groups agree: before
    [__init_sched] has run both descriptors are -1; afterwards either the
    groups are supported and both descriptors are open, or they are not
    supported and both descriptors are -1. *)
Definition schedgroups_consistent (s : SchedState) : Prop :=
  if sched_once s then
    (__sys_supports_schedgroups s = 1
     /\ 0 <= fg_cgroup_fd s /\ 0 <= bg_cgroup_fd s)
    \/ (__sys_supports_schedgroups s = 0
        /\ fg_cgroup_fd s = -1 /\ bg_cgroup_fd s = -1)
  else fg_cgroup_fd s = -1 /\ bg_cgroup_fd s = -1.

(** The policies that [set_sched_policy] maps to a scheduling group. *)
Definition has_schedgroup (h : SchedPolicyHeader) (p : Z) : bool :=
  (p =? SP_BACKGROUND h) || (p =? SP_FOREGROUND h)
  || (p =? SP_AUDIO_APP h) || (p =? SP_AUDIO_SYS h).


Definition is_write (a : Action) : bool :=
  match a with ActWrite _ _ => true | _ => false end.

Definition is_timer_slack (a : Action) : bool :=
  match a with ActTimerSlack _ _ => true | _ => false end.

(** The timer slack that goes with a policy. *)
Definition slack_of (h : SchedPolicyHeader) (p : Z) : Z :=
  if p =? SP_BACKGROUND h then TIMER_SLACK_BG else TIMER_SLACK_FG.

(** The thread a call acts on: the caller when [tid] is 0. *)
Definition target_tid (k : Kernel) (tid : Z) : Z :=
  if tid =? 0 then k_gettid k else tid.

(** The character [c] does not occur in [s]. *)
Fixpoint free_of (c : ascii) (s : string) : bool :=
  match s with
  | EmptyString => true
  | String d rest => negb (Ascii.eqb d c) && free_of c rest
  end.

(** A line as [fgets] returns it whole: it ends with its only newline and
    fits the 254 characters read at a time. *)
Definition complete_line (l : string) : Prop :=
  exists body,
    l = (body ++ String LF EmptyString)%string
    /\ free_of LF body = true
    /\ (String.length l <= 254)%nat.

(** The designators of [strings] are distinct and inside the array, as
    the declaration of an array of [SP_CNT] elements requires. *)
Definition designators_ok (h : SchedPolicyHeader) : Prop :=
  NoDup (map fst (strings_initializers h))
  /\ Forall (fun e => 0 <= fst e < SP_CNT h) (strings_initializers h).

(** The lines of a file, one after the other. *)
Definition join_lines (ls : list string) : string :=
  fold_right String.append EmptyString ls.

(** ** Sample parameters *)

(** [n] times the character [c]. *)
Fixpoint filled (c : ascii) (n : nat) : string :=
  match n with
  | O => EmptyString
  | S n' => String c (filled c n')
  end.

(** An array of 256 bytes that holds no NUL. *)
Definition sample_lineBuf : string := filled "x"%char 256.

(** Values the enumerators can take: the policies in the order the file
    names them, [SP_DEFAULT] below them and the foreground policy as the
    system default. *)
Definition sample_header : SchedPolicyHeader :=
  mkHeader (-1) 0 1 2 3 4 5 6 1.

(** A cgroup file with the cpu controller in second place. *)
Definition sample_cgroup_file : string :=
  ("3:cpuacct:/" ++ String LF "2:cpu:/bg_non_interactive"
   ++ String LF "1:cpuset:/" ++ String LF "")%string.

(** A kernel where every call succeeds, the task files open as
    descriptors 7, 8 and 9 and the calling thread is 4242. *)
Definition sample_kernel : Kernel :=
  mkKernel 4242
    (fun _ => mkRet 0 0)
    (fun path =>
       if String.eqb path "/dev/cpuctl/tasks" then mkRet 7 0
       else if String.eqb path "/dev/cpuctl/bg_non_interactive/tasks"
       then mkRet 8 0
       else mkRet 9 0)
    (fun _ _ => ("system_server", mkRet 13 0))
    (fun _ => mkRet 0 0)
    (fun _ text => mkRet (Z.of_nat (String.length text)) 0)
    (fun _ _ _ => mkRet 0 0)
    (fun _ => mkRet 0 0)
    (fun _ _ _ => mkRet 0 0)
    (fun _ => Some sample_cgroup_file)
    (fun _ => ENOENT)
    sample_lineBuf.

(** The state the sample kernel leaves after [__init_sched]. *)
Definition initialised_sample : SchedState :=
  mkSchedState true true false 1 (-1) "system_server" 8 7 (-1) (-1) (-1) 0.

(** A kernel without the cpuctl hierarchy, where [sched_setscheduler]
    fails. *)
Definition plain_kernel : Kernel :=
  mkKernel 4242
    (fun _ => mkRet (-1) ENOENT)
    (fun _ => mkRet (-1) ENOENT)
    (fun _ _ => ("", mkRet (-1) ENOENT))
    (fun _ => mkRet (-1) 9)
    (fun _ _ => mkRet (-1) 9)
    (fun _ _ _ => mkRet (-1) 1)
    (fun _ => mkRet SCHED_BATCH 0)
    (fun _ _ _ => mkRet 0 0)
    (fun _ => None)
    (fun _ => ENOENT)
    sample_lineBuf.

(** The sample kernel with another cgroup file. *)
Definition with_cgroup_file (k : Kernel) (file : string) : Kernel :=
  mkKernel (k_gettid k) (k_access k) (k_open k) (k_read k) (k_close k)
           (k_write k) (k_sched_setscheduler k) (k_sched_getscheduler k)
           (k_prctl k) (fun _ => Some file) (k_fopen_errno k) (k_lineBuf k).

(* ================================================================== *)
(** * Properties of the mapping classifier                             *)
(* ================================================================== *)

Section Classifier.

(** [has_prefix] is the prefix test. *)
Lemma has_prefix_prefix (s p : string) : has_prefix s p = String.prefix p s.
Proof.
  unfold has_prefix.
  destruct (String.prefix p s) eqn:E.
  - apply prefix_correct in E. rewrite E. apply String.eqb_refl.
  - apply String.eqb_neq. intro H.
    apply prefix_correct in H. congruence.
Qed.

Lemma length_zero_empty (s : string) :
  Nat.eqb (String.length s) 0 = String.eqb s "".
Proof. destruct s; reflexivity. Qed.

(** One loop iteration against the first matching rule of the table. *)
Lemma classify_step_table (c : Classified) (m : Mapping) :
  let t := first_match (rule_table (current_lib c)) m in
  let c' := classify_step c m in
  current_lib c' = (if map_execute m then map_name m else current_lib c)
  /\ heap_mappings c'
     = heap_mappings c ++ (if Target_eqb t ToHeap then [m] else [])
  /\ globals_mappings c'
     = globals_mappings c ++ (if Target_eqb t ToGlobals then [m] else [])
  /\ stack_mappings c'
     = stack_mappings c ++ (if Target_eqb t ToStacks then [m] else [])
  /\ anon_mappings c' = anon_mappings c.
Proof.
  unfold classify_step, rule_table, first_match.
  rewrite !has_prefix_prefix, length_zero_empty.
  destruct (map_execute m); [cbn; rewrite !app_nil_r; auto |].
  destruct (map_read m); [| cbn; rewrite !app_nil_r; auto].
  cbn [negb].
  repeat match goal with
         | |- context [if ?b then _ else _] =>
             match b with
             | Target_eqb _ _ => fail 1
             | _ => destruct b
             end
         end;
    cbn; rewrite ?app_nil_r; auto.
Qed.

Lemma classify_fold_table (ms : list Mapping) : forall c,
  let a := assign_targets (current_lib c) ms in
  let c' := fold_left classify_step ms c in
  heap_mappings c' = heap_mappings c ++ assigned_to ToHeap a
  /\ globals_mappings c' = globals_mappings c ++ assigned_to ToGlobals a
  /\ stack_mappings c' = stack_mappings c ++ assigned_to ToStacks a
  /\ anon_mappings c' = anon_mappings c.
Proof.
  induction ms as [| m ms IH]; intro c; cbn zeta.
  - cbn. rewrite !app_nil_r. auto.
  - cbn [fold_left assign_targets].
    destruct (classify_step_table c m) as (Hl & Hh & Hg & Hs & Ha).
    destruct (IH (classify_step c m)) as (IHh & IHg & IHs & IHa).
    rewrite Hl in IHh, IHg, IHs.
    rewrite IHh, IHg, IHs, IHa, Hh, Hg, Hs, Ha.
    unfold assigned_to. cbn [filter snd].
    repeat split; rewrite <- app_assoc; f_equal;
      destruct (first_match (rule_table (current_lib c)) m); reflexivity.
Qed.

(** The classifier never fails and never fills the anon list. *)
Lemma ClassifyMappings_anon (mappings heap anon globals stacks : list Mapping) :
  fst (ClassifyMappings mappings heap anon globals stacks) = true
  /\ anon_mappings (snd (ClassifyMappings mappings heap anon globals stacks))
     = [].
Proof.
  unfold ClassifyMappings. cbn [fst snd]. split; [reflexivity |].
  now destruct (classify_fold_table mappings (mkClassified "" [] [] [] []))
    as (_ & _ & _ & Ha).
Qed.

End Classifier.

(** C4. For every sequence of mappings, [ClassifyMappings] sends each
    mapping where the first matching rule of the ordered table sends it:
    executable mappings go to no list and become the current library,
    unreadable ones are dropped, then [anon:.bss], the current library's
    name, [anon:libc_malloc], the /dev/ashmem/dalvik prefix, the [stack
    prefix, the empty name and the [anon: prefix other than
    [anon:leak_detector_malloc] decide, and the remaining mappings go to no
    list.  The anon list stays empty. *)
Theorem ClassifyMappings_first_matching_rule :
  forall (mappings heap anon globals stacks : list Mapping),
    let result := ClassifyMappings mappings heap anon globals stacks in
    let table := assign_targets "" mappings in
    fst result = true
    /\ heap_mappings (snd result) = assigned_to ToHeap table
    /\ globals_mappings (snd result) = assigned_to ToGlobals table
    /\ stack_mappings (snd result) = assigned_to ToStacks table
    /\ anon_mappings (snd result) = [].
Proof.
  intros mappings heap anon globals stacks. cbn zeta.
  unfold ClassifyMappings. cbn [fst snd].
  destruct (classify_fold_table mappings (mkClassified "" [] [] [] []))
    as (Hh & Hg & Hs & Ha).
  cbn in Hh, Hg, Hs, Ha. auto.
Qed.

(* ================================================================== *)
(** * Roots and allocations queued by CollectAllocations               *)
(* ================================================================== *)

Section Collect.

Lemma Allocation_roots (w : HeapWalker) (b e : Z) :
  roots (Allocation w b e) = roots w
  /\ root_vals (Allocation w b e) = root_vals w.
Proof.
  unfold Allocation.
  destruct (existsb _ _); cbn; auto.
Qed.

Lemma fold_Allocation_roots {A : Type} (f g : A -> Z) (l : list A) :
  forall w,
    let w' := fold_left (fun w it => Allocation w (f it) (g it)) l w in
    roots w' = roots w /\ root_vals w' = root_vals w.
Proof.
  induction l as [| a l IH]; intro w; cbn.
  - auto.
  - destruct (IH (Allocation w (f a) (g a))) as [H1 H2].
    destruct (Allocation_roots w (f a) (g a)) as [H3 H4].
    split; congruence.
Qed.

Lemma heap_fold_roots (env : Environment) (l : list Mapping) :
  forall w,
    let w' :=
      fold_left
        (fun w it =>
           fold_left
             (fun w (bs : Z * Z) =>
                Allocation w (fst bs) (wrap (fst bs + snd bs)))
             (HeapIterate env it) w) l w in
    roots w' = roots w /\ root_vals w' = root_vals w.
Proof.
  induction l as [| m l IH]; intro w; cbn [fold_left].
  - auto.
  - cbn zeta in IH |- *. 
    destruct (IH (fold_left
                    (fun w (bs : Z * Z) =>
                       Allocation w (fst bs) (wrap (fst bs + snd bs)))
                    (HeapIterate env m) w)) as [H1 H2].
    destruct (fold_Allocation_roots fst
                (fun bs : Z * Z => wrap (fst bs + snd bs))
                (HeapIterate env m) w) as [H3 H4].
    split; congruence.
Qed.

Lemma fold_Root_roots (l : list Mapping) :
  forall w,
    let w' := fold_left (fun w it => Root w (map_begin it) (map_end it)) l w in
    roots w' = roots w ++ map whole_mapping l
    /\ root_vals w' = root_vals w
    /\ allocations w' = allocations w.
Proof.
  induction l as [| m l IH]; intro w; cbn [fold_left map].
  - rewrite app_nil_r. auto.
  - cbn zeta in IH |- *.
    destruct (IH (Root w (map_begin m) (map_end m))) as (H1 & H2 & H3).
    rewrite H1, H2, H3. cbn. rewrite <- app_assoc. auto.
Qed.

Lemma add_stack_roots_roots (thread : ThreadInfo) (stacks : list Mapping) :
  forall w,
    let w' := add_stack_roots thread stacks w in
    roots w' = roots w ++ stack_roots_of stacks thread
    /\ root_vals w' = root_vals w
    /\ allocations w' = allocations w.
Proof.
  unfold add_stack_roots, stack_roots_of.
  induction stacks as [| m stacks IH]; intro w; cbn [fold_left filter map].
  - rewrite app_nil_r. auto.
  - cbn zeta in IH |- *.
    assert (((fst (stack thread) >=? map_begin m)
             && (fst (stack thread) <=? map_end m))
            = contains_stack_top thread m) as ->
      by (unfold contains_stack_top; rewrite Z.geb_leb; reflexivity).
    destruct (contains_stack_top thread m).
    + destruct (IH (Root w (fst (stack thread)) (map_end m))) as (H1 & H2 & H3).
      rewrite H1, H2, H3. cbn. rewrite <- app_assoc. auto.
    + apply IH.
Qed.

Lemma threads_fold_roots (stacks : list Mapping) (threads : list ThreadInfo) :
  forall w,
    let w' :=
      fold_left
        (fun w thread_it =>
           RootVals (add_stack_roots thread_it stacks w) (regs thread_it))
        threads w in
    roots w' = roots w ++ flat_map (stack_roots_of stacks) threads
    /\ root_vals w' = root_vals w ++ map regs threads
    /\ allocations w' = allocations w.
Proof.
  induction threads as [| t threads IH]; intro w; cbn [fold_left flat_map map].
  - rewrite !app_nil_r. auto.
  - cbn zeta in IH |- *.
    destruct (IH (RootVals (add_stack_roots t stacks w) (regs t)))
      as (H1 & H2 & H3).
    destruct (add_stack_roots_roots t stacks w) as (H4 & H5 & H6).
    rewrite H1, H2, H3. cbn [RootVals roots root_vals allocations].
    rewrite H4, H5, H6, <- !app_assoc. auto.
Qed.

End Collect.

(** C9. For every captured thread, [CollectAllocations] queues one root
    [stack_top, m.end) for each stack-classified mapping [m] with
    [m.begin <= stack_top <= m.end] (the upper bound inclusive), so nothing
    below the stack pointer is queued, and it queues the thread's register
    blob whether or not a stack mapping contains the stack pointer.  The
    region roots are those already queued, then the globals mappings, then
    the stack roots thread by thread; the blobs are those already stored,
    then one per thread. *)
Theorem CollectAllocations_stack_and_register_roots :
  forall (env : Environment) (u : MemUnreachable)
         (threads : list ThreadInfo) (mappings : list Mapping),
    let c := snd (ClassifyMappings mappings mappings mappings mappings mappings) in
    let result := CollectAllocations env u threads mappings in
    fst result = true
    /\ roots (heap_walker_ (snd result))
       = roots (heap_walker_ u)
         ++ map whole_mapping (globals_mappings c)
         ++ flat_map (stack_roots_of (stack_mappings c)) threads
    /\ root_vals (heap_walker_ (snd result))
       = root_vals (heap_walker_ u) ++ map regs threads.
Proof.
  intros env u threads mappings. cbn zeta.
  unfold CollectAllocations.
  destruct (ClassifyMappings mappings mappings mappings mappings mappings)
    as [classified c] eqn:E.
  assert (classified = true) as ->.
  { unfold ClassifyMappings in E. congruence. }
  cbn [negb fst snd with_walker heap_walker_].
  match goal with
  | |- context [fold_left _ threads ?w3] =>
      destruct (threads_fold_roots (stack_mappings c) threads w3)
        as (H1 & H2 & _)
  end.
  rewrite H1, H2.
  match goal with
  | |- context [fold_left _ (globals_mappings c) ?w2] =>
      destruct (fold_Root_roots (globals_mappings c) w2) as (H3 & H4 & _)
  end.
  rewrite H3, H4.
  match goal with
  | |- context [fold_left _ (anon_mappings c) ?w1] =>
      destruct (fold_Allocation_roots map_begin map_end (anon_mappings c) w1)
        as (H5 & H6)
  end.
  rewrite H5, H6.
  destruct (heap_fold_roots env (heap_mappings c) (heap_walker_ u))
    as (H7 & H8).
  rewrite H7, H8, <- app_assoc. auto.
Qed.

(* ================================================================== *)
(** * Properties of the heap walker                                    *)
(* ================================================================== *)

Section Walker.

Lemma ptr_modulus_pos : 0 < ptr_modulus.
Proof. reflexivity. Qed.

Lemma wrap_small (x : Z) : 0 <= x < ptr_modulus -> wrap x = x.
Proof. intro H. unfold wrap. apply Z.mod_small. exact H. Qed.

(** ** Marking changes the referenced bits only *)

Lemma reference_ranges (v : Z) (l : list AllocationInfo) :
  map alloc_range (fst (reference v l)) = map alloc_range l.
Proof.
  induction l as [| a l IH]; cbn [reference].
  - reflexivity.
  - destruct (contains (alloc_range a) v).
    + destruct (referenced a); reflexivity.
    + destruct (reference v l) as [rest' found]. cbn in IH |- *.
      now rewrite IH.
Qed.

Lemma scan_value_ranges (st : list AllocationInfo * list Range) (v : Z) :
  map alloc_range (fst (scan_value st v)) = map alloc_range (fst st).
Proof.
  destruct st as [allocs queue]. unfold scan_value.
  destruct (_ && _); [| reflexivity].
  pose proof (reference_ranges v allocs) as H.
  destruct (reference v allocs). exact H.
Qed.

Lemma scan_values_ranges (vals : list Z) :
  forall st,
    map alloc_range (fst (scan_values vals st)) = map alloc_range (fst st).
Proof.
  unfold scan_values.
  induction vals as [| v vals IH]; intro st; cbn [fold_left].
  - reflexivity.
  - rewrite IH. apply scan_value_ranges.
Qed.

Lemma mark_loop_ranges (mem : Memory) (fuel : nat) :
  forall allocs queue,
    map alloc_range (fst (mark_loop fuel mem allocs queue))
    = map alloc_range allocs.
Proof.
  induction fuel as [| f IH]; intros allocs [| r rest]; cbn [mark_loop];
    try reflexivity.
  pose proof (scan_values_ranges (region_words mem r) (allocs, rest)) as H.
  destruct (scan_values (region_words mem r) (allocs, rest)) as [a' q'].
  rewrite IH. exact H.
Qed.

Lemma DetectLeaks_ranges (mem : Memory) (w : HeapWalker) :
  map alloc_range (allocations (DetectLeaks mem w))
  = map alloc_range (allocations w).
Proof.
  unfold DetectLeaks, mark. cbn [allocations].
  pose proof (scan_values_ranges (List.concat (root_vals w))
                (allocations w, roots w)) as H.
  destruct (scan_values _ _) as [a q].
  rewrite mark_loop_ranges. exact H.
Qed.

(** ** Marking drains its queue *)

Lemma reference_measure (v : Z) (l : list AllocationInfo) :
  (List.length (unreferenced (fst (reference v l)))
   + List.length (snd (reference v l))
   = List.length (unreferenced l))%nat.
Proof.
  induction l as [| a l IH]; cbn [reference].
  - reflexivity.
  - destruct (contains (alloc_range a) v).
    + destruct (referenced a) eqn:E; unfold unreferenced; cbn; rewrite E; cbn; lia.
    + destruct (reference v l) as [rest' found].
      unfold unreferenced in IH |- *. cbn in IH |- *.
      destruct (referenced a); cbn; lia.
Qed.

Lemma scan_value_measure (st : list AllocationInfo * list Range) (v : Z) :
  mark_fuel (fst (scan_value st v)) (snd (scan_value st v))
  = mark_fuel (fst st) (snd st).
Proof.
  destruct st as [allocs queue]. unfold scan_value, mark_fuel.
  destruct (_ && _); [| reflexivity].
  pose proof (reference_measure v allocs) as H.
  destruct (reference v allocs) as [a' found]. cbn [fst snd] in H |- *.
  rewrite length_app. lia.
Qed.

Lemma scan_values_measure (vals : list Z) :
  forall st,
    mark_fuel (fst (scan_values vals st)) (snd (scan_values vals st))
    = mark_fuel (fst st) (snd st).
Proof.
  unfold scan_values.
  induction vals as [| v vals IH]; intro st; cbn [fold_left].
  - reflexivity.
  - rewrite IH. apply scan_value_measure.
Qed.

Lemma mark_loop_drains (mem : Memory) (fuel : nat) :
  forall allocs queue,
    (mark_fuel allocs queue <= fuel)%nat ->
    snd (mark_loop fuel mem allocs queue) = [].
Proof.
  induction fuel as [| f IH]; intros allocs [| r rest] H; cbn [mark_loop];
    try reflexivity.
  - unfold mark_fuel in H. cbn in H. lia.
  - pose proof (scan_values_measure (region_words mem r) (allocs, rest)) as M.
    destruct (scan_values (region_words mem r) (allocs, rest)) as [a' q'].
    apply IH. cbn [fst snd] in M. rewrite M.
    unfold mark_fuel in H |- *. cbn in H. lia.
Qed.

(** The fuel given to the work-queue loop is enough: marking ends with an
    empty queue. *)
Lemma mark_drains (mem : Memory) (w : HeapWalker) : snd (mark mem w) = [].
Proof.
  unfold mark.
  destruct (scan_values _ _) as [a q].
  apply mark_loop_drains. lia.
Qed.

(** ** Well-formed indexes *)

Lemma disjoint_from_weaken (l : list Range) (lo lo' : Z) :
  lo' <= lo -> disjoint_from lo l -> disjoint_from lo' l.
Proof.
  destruct l as [| r l]; cbn; [auto |].
  intros H (H1 & H2 & H3 & H4). repeat split; auto. lia.
Qed.

Lemma disjoint_from_filter (p : AllocationInfo -> bool)
    (l : list AllocationInfo) :
  forall lo,
    disjoint_from lo (map alloc_range l) ->
    disjoint_from lo (map alloc_range (filter p l)).
Proof.
  induction l as [| a l IH]; intros lo H; cbn in H |- *.
  - exact I.
  - destruct H as (H1 & H2 & H3 & H4).
    destruct (p a); cbn.
    + repeat split; auto.
    + apply IH. apply disjoint_from_weaken with (lo := range_end (alloc_range a)).
      * lia.
      * exact H4.
Qed.

Lemma disjoint_total_bound (l : list Range) :
  forall lo,
    lo < ptr_modulus -> disjoint_from lo l ->
    Z.of_nat (List.length l) <= total_bytes l
    /\ total_bytes l <= ptr_modulus - 1 - lo.
Proof.
  induction l as [| r l IH]; intros lo Hlo H; cbn [total_bytes fold_right List.length].
  - lia.
  - destruct H as (H1 & H2 & H3 & H4).
    destruct (IH (range_end r) H3 H4) as [IH1 IH2].
    fold (total_bytes l). lia.
Qed.

Lemma sum_sizes_from (l : list Range) :
  forall lo acc,
    0 <= acc <= lo -> disjoint_from lo l ->
    fold_left (fun acc r => wrap (acc + range_size r)) l acc
    = acc + total_bytes l.
Proof.
  induction l as [| r l IH]; intros lo acc Hacc H; cbn [fold_left total_bytes fold_right].
  - lia.
  - destruct H as (H1 & H2 & H3 & H4).
    fold (total_bytes l).
    assert (range_size r = range_end r - range_begin r) as ->.
    { unfold range_size. apply wrap_small. lia. }
    rewrite wrap_small by lia.
    rewrite (IH (range_end r)); [lia | lia | exact H4].
Qed.

Lemma sum_sizes_total (l : list Range) :
  disjoint_from 0 l -> sum_sizes l = total_bytes l.
Proof.
  intro H. unfold sum_sizes.
  rewrite (sum_sizes_from l 0 0); [lia | lia | exact H].
Qed.

Lemma DetectLeaks_unreferenced_disjoint (mem : Memory) (w : HeapWalker) :
  index_ok w -> disjoint_from 0 (unreferenced_ranges (DetectLeaks mem w)).
Proof.
  unfold index_ok, unreferenced_ranges, unreferenced. intro H.
  apply disjoint_from_filter. rewrite DetectLeaks_ranges. exact H.
Qed.

End Walker.

(* ================================================================== *)
(** * The index stays well formed                                      *)
(* ================================================================== *)

Section IndexInvariant.

Lemma insert_by_begin_disjoint (b e : Z) (l : list AllocationInfo) :
  forall lo,
    disjoint_from lo (map alloc_range l) ->
    lo <= b -> b < e < ptr_modulus ->
    existsb (fun a => overlaps (mkRange b e) (alloc_range a)) l = false ->
    disjoint_from lo
      (map alloc_range (insert_by_begin (mkAlloc (mkRange b e) false) l)).
Proof.
  induction l as [| x l IH]; intros lo H Hlo Hbe Hov; cbn in H, Hov |- *.
  - repeat split; lia.
  - destruct H as (H1 & H2 & H3 & H4).
    apply orb_false_iff in Hov. destruct Hov as [Hx Hrest].
    unfold overlaps in Hx. cbn in Hx.
    apply andb_false_iff in Hx.
    rewrite !Z.ltb_ge in Hx.
    destruct (b <=? range_begin (alloc_range x)) eqn:E; cbn.
    + apply Z.leb_le in E. repeat split; try lia; auto.
    + apply Z.leb_gt in E. repeat split; try lia; auto.
      apply IH; auto. lia.
Qed.

Lemma HeapWalker_new_index_ok : index_ok HeapWalker_new.
Proof. exact I. Qed.

(** Inserting a non-empty region of the address space keeps the index
    ordered and free of overlaps; an overlapping region is dropped. *)
Lemma Allocation_index_ok (w : HeapWalker) (b e : Z) :
  index_ok w -> 0 <= b -> b < e < ptr_modulus ->
  index_ok (Allocation w b e).
Proof.
  unfold index_ok, Allocation. intros H Hb Hbe.
  destruct (existsb _ (allocations w)) eqn:E; cbn [allocations].
  - exact H.
  - apply insert_by_begin_disjoint; auto.
Qed.

Lemma Root_index_ok (w : HeapWalker) (b e : Z) :
  index_ok w -> index_ok (Root w b e).
Proof. auto. Qed.

Lemma RootVals_index_ok (w : HeapWalker) (vals : list Z) :
  index_ok w -> index_ok (RootVals w vals).
Proof. auto. Qed.

Lemma DetectLeaks_index_ok (mem : Memory) (w : HeapWalker) :
  index_ok w -> index_ok (DetectLeaks mem w).
Proof.
  unfold index_ok. rewrite DetectLeaks_ranges. auto.
Qed.

Lemma chunks_fold_index_ok (chunks : list (Z * Z)) :
  (forall b s, In (b, s) chunks -> 0 <= b /\ 0 < s /\ b + s < ptr_modulus) ->
  forall w,
    index_ok w ->
    index_ok (fold_left
                (fun w (bs : Z * Z) =>
                   Allocation w (fst bs) (wrap (fst bs + snd bs)))
                chunks w).
Proof.
  induction chunks as [| [b s] chunks IH]; intros Hc w Hw; cbn [fold_left].
  - exact Hw.
  - apply IH.
    + intros b' s' Hin. apply Hc. now right.
    + destruct (Hc b s (or_introl eq_refl)) as (H1 & H2 & H3).
      cbn [fst snd]. rewrite wrap_small by lia.
      apply Allocation_index_ok; auto; lia.
Qed.

(** With such an allocator, the index built by [CollectAllocations] is
    well formed. *)
Lemma CollectAllocations_index_ok (env : Environment) (u : MemUnreachable)
    (threads : list ThreadInfo) (mappings : list Mapping) :
  chunks_ok env ->
  index_ok (heap_walker_ u) ->
  index_ok (heap_walker_ (snd (CollectAllocations env u threads mappings))).
Proof.
  intros Hc Hu. unfold CollectAllocations.
  destruct (ClassifyMappings_anon mappings mappings mappings mappings mappings)
    as (Hok & Hanon).
  destruct (ClassifyMappings mappings mappings mappings mappings mappings)
    as [classified c].
  cbn [fst snd] in Hok, Hanon. subst classified.
  cbn [negb snd with_walker heap_walker_].
  rewrite Hanon. cbn [fold_left].
  unfold index_ok.
  match goal with
  | |- context [fold_left _ threads ?w3] =>
      destruct (threads_fold_roots (stack_mappings c) threads w3)
        as (_ & _ & ->)
  end.
  match goal with
  | |- context [fold_left _ (globals_mappings c) ?w2] =>
      destruct (fold_Root_roots (globals_mappings c) w2) as (_ & _ & ->)
  end.
  fold (index_ok
          (fold_left
             (fun w it =>
                fold_left
                  (fun w (bs : Z * Z) =>
                     Allocation w (fst bs) (wrap (fst bs + snd bs)))
                  (HeapIterate env it) w)
             (heap_mappings c) (heap_walker_ u))).
  generalize (heap_walker_ u) Hu.
  induction (heap_mappings c) as [| m l IH]; intros w Hw; cbn [fold_left].
  - exact Hw.
  - apply IH. apply chunks_fold_index_ok; auto.
    intros b s Hin. unfold HeapIterate in Hin. eapply Hc. exact Hin.
Qed.

End IndexInvariant.

(* ================================================================== *)
(** * The mark phase reaches what is reachable                         *)
(* ================================================================== *)

Section Forall2Facts.

Context {A B : Type}.

Lemma Forall2_with_In (R : A -> B -> Prop) (l : list A) (l' : list B) :
  Forall2 R l l' ->
  Forall2 (fun a b => In a l /\ In b l' /\ R a b) l l'.
Proof.
  induction 1 as [| a b l l' H _ IH].
  - constructor.
  - constructor.
    + repeat split; try (left; reflexivity). exact H.
    + eapply Forall2_impl; [| exact IH].
      intros x y (Hx & Hy & Hr). repeat split; try (right; assumption).
      exact Hr.
Qed.

Lemma Forall2_In_l (R : A -> B -> Prop) (l : list A) (l' : list B) (a : A) :
  Forall2 R l l' -> In a l -> exists b, In b l' /\ R a b.
Proof.
  induction 1 as [| x y l l' H _ IH]; intro Hin; [destruct Hin |].
  destruct Hin as [<- | Hin].
  - exists y. split; [left; reflexivity | exact H].
  - destruct (IH Hin) as (b & Hb & Hr). exists b. split; [right |]; auto.
Qed.

Lemma Forall2_In_r (R : A -> B -> Prop) (l : list A) (l' : list B) (b : B) :
  Forall2 R l l' -> In b l' -> exists a, In a l /\ R a b.
Proof.
  induction 1 as [| x y l l' H _ IH]; intro Hin; [destruct Hin |].
  destruct Hin as [<- | Hin].
  - exists x. split; [left; reflexivity | exact H].
  - destruct (IH Hin) as (a & Ha & Hr). exists a. split; [right |]; auto.
Qed.

Lemma Forall2_compose {C : Type} (R : A -> B -> Prop) (S : B -> C -> Prop)
    (T : A -> C -> Prop) (l1 : list A) (l2 : list B) (l3 : list C) :
  (forall a b c, R a b -> S b c -> T a c) ->
  Forall2 R l1 l2 -> Forall2 S l2 l3 -> Forall2 T l1 l3.
Proof.
  intros Hc H. revert l3.
  induction H as [| a b l1 l2 Hr _ IH]; intros l3 H3; inversion H3; subst.
  - constructor.
  - constructor; [eapply Hc; eassumption | apply IH; assumption].
Qed.

Lemma Forall2_same (R : A -> A -> Prop) (l : list A) :
  (forall a, R a a) -> Forall2 R l l.
Proof. intro H. induction l; constructor; auto. Qed.

End Forall2Facts.

Section Mark.

Lemma disjoint_from_lower (l : list Range) :
  forall lo r, disjoint_from lo l -> In r l -> lo <= range_begin r.
Proof.
  induction l as [| x l IH]; intros lo r H Hin; [destruct Hin |].
  destruct H as (H1 & H2 & H3 & H4).
  destruct Hin as [<- | Hin]; [exact H1 |].
  specialize (IH _ _ H4 Hin). lia.
Qed.

Lemma contains_bounds (r : Range) (v : Z) :
  contains r v = true <-> points_into v r.
Proof.
  unfold contains, points_into.
  rewrite andb_true_iff, Z.leb_le, Z.ltb_lt. tauto.
Qed.

Lemma words_from_spec (mem : Memory) (n : nat) :
  forall addr v,
    In v (words_from mem addr n)
    <-> exists i, 0 <= i < Z.of_nat n
                  /\ read_word mem (addr + word_size * i) = Some v.
Proof.
  induction n as [| n IH]; intros addr v; cbn [words_from].
  - split; [intros [] | intros (i & Hi & _); lia].
  - assert (In v (words_from mem (addr + word_size) n)
            <-> exists i, 1 <= i < Z.of_nat (S n)
                          /\ read_word mem (addr + word_size * i) = Some v)
      as Hrest.
    { rewrite IH. split.
      - intros (i & Hi & E). exists (i + 1). split; [lia |].
        rewrite <- E. f_equal. lia.
      - intros (i & Hi & E). exists (i - 1). split; [lia |].
        rewrite <- E. f_equal. lia. }
    destruct (read_word mem addr) as [x |] eqn:E0.
    + cbn [In]. rewrite Hrest. split.
      * intros [<- | (i & Hi & E)].
        -- exists 0. split; [lia |]. rewrite <- E0. f_equal. lia.
        -- exists i. split; [lia | exact E].
      * intros (i & Hi & E).
        destruct (Z.eq_dec i 0) as [-> | Hne].
        -- left. replace (addr + word_size * 0) with addr in E by lia.
           congruence.
        -- right. exists i. split; [lia | exact E].
    + rewrite Hrest. split.
      * intros (i & Hi & E). exists i. split; [lia | exact E].
      * intros (i & Hi & E).
        destruct (Z.eq_dec i 0) as [-> | Hne].
        -- replace (addr + word_size * 0) with addr in E by lia. congruence.
        -- exists i. split; [lia | exact E].
Qed.

Lemma region_words_spec (mem : Memory) (r : Range) (v : Z) :
  In v (region_words mem r) <-> word_in mem r v.
Proof.
  unfold region_words, word_in. cbv zeta. rewrite words_from_spec.
  unfold align_up.
  assert (word_size = 8) as Hw by reflexivity.
  rewrite !Hw.
  set (b := range_begin r). set (e := range_end r).
  set (first := (b + (8 - 1)) / 8 * 8).
  assert (first mod 8 = 0) as Hal by (unfold first; apply Z.mod_mul; lia).
  assert (b <= first < b + 8) as Hfirst.
  { unfold first.
    pose proof (Z.div_mod (b + (8 - 1)) 8 ltac:(lia)).
    pose proof (Z.mod_pos_bound (b + (8 - 1)) 8 ltac:(lia)). lia. }
  split.
  - intros (i & Hi & E). exists (first + 8 * i). repeat split.
    + replace (first + 8 * i) with (first + i * 8) by lia.
      rewrite Z.mod_add by lia. exact Hal.
    + lia.
    + assert (0 < (e - first) / 8) as Hpos by lia.
      pose proof (Z.div_mod (e - first) 8 ltac:(lia)).
      pose proof (Z.mod_pos_bound (e - first) 8 ltac:(lia)).
      rewrite Z2Nat.id in Hi by lia. lia.
    + exact E.
  - intros (a & Ha & Hb & He & E).
    assert (first <= a) as Hfa.
    { pose proof (Z.div_mod a 8 ltac:(lia)).
      pose proof (Z.div_mod first 8 ltac:(lia)).
      rewrite Ha in *. rewrite Hal in *.
      assert (first / 8 <= a / 8); [| lia].
      destruct (Z_le_gt_dec (first / 8) (a / 8)); [assumption | lia]. }
    exists ((a - first) / 8).
    assert ((a - first) mod 8 = 0) as Hd.
    { rewrite Zminus_mod, Ha, Hal. reflexivity. }
    pose proof (Z.div_mod (a - first) 8 ltac:(lia)) as Hdm.
    rewrite Hd in Hdm.
    split.
    + split; [apply Z.div_pos; lia |].
      assert ((a - first) / 8 < (e - first) / 8).
      { assert ((a - first) / 8 + 1 <= (e - first) / 8); [| lia].
        replace ((a - first) / 8 + 1) with ((a - first + 1 * 8) / 8)
          by (rewrite Z.div_add by lia; reflexivity).
        apply Z.div_le_mono; lia. }
      rewrite Z2Nat.id; [lia |].
      apply Z.div_pos; lia.
    + rewrite <- E. f_equal. lia.
Qed.

(** A value inside an allocation passes the test on the bounds of the
    index. *)
Lemma contains_within_bounds (allocs : list AllocationInfo)
    (a : AllocationInfo) (v : Z) :
  In a allocs -> contains (alloc_range a) v = true ->
  (min_allocation_begin allocs <=? v) && (v <? max_allocation_end allocs)
  = true.
Proof.
  intros Hin Hc. apply contains_bounds in Hc. unfold points_into in Hc.
  rewrite andb_true_iff, Z.leb_le, Z.ltb_lt.
  induction allocs as [| x allocs IH]; [destruct Hin |].
  cbn [min_allocation_begin max_allocation_end fold_right].
  fold (min_allocation_begin allocs). fold (max_allocation_end allocs).
  destruct Hin as [<- | Hin]; [lia |].
  specialize (IH Hin). lia.
Qed.

Lemma reference_spec (v : Z) (l : list AllocationInfo) :
  forall lo,
    disjoint_from lo (map alloc_range l) ->
    Forall2 (marks [v] (snd (reference v l))) l (fst (reference v l))
    /\ pointed (fst (reference v l)) v
    /\ (forall r, In r (snd (reference v l)) ->
          exists a, In a l /\ alloc_range a = r /\ referenced a = false
                    /\ contains r v = true).
Proof.
  induction l as [| a l IH]; intros lo H; cbn [reference].
  - repeat split; [constructor | intros a [] | intros r []].
  - cbn [map] in H. destruct H as (H1 & H2 & H3 & H4).
    assert (forall x, In x l -> contains (alloc_range a) v = true ->
                      contains (alloc_range x) v = false) as Hrest.
    { intros x Hx Hc. apply contains_bounds in Hc.
      pose proof (disjoint_from_lower _ _ (alloc_range x) H4
                    (in_map alloc_range _ _ Hx)) as Hlo.
      destruct (contains (alloc_range x) v) eqn:E; [| reflexivity].
      apply contains_bounds in E. unfold points_into in Hc, E. lia. }
    assert (Forall2 (marks [v] []) l l) as Hsame.
    { apply Forall2_same. intro x. repeat split; auto.
      intros E1 E2. congruence. }
    destruct (contains (alloc_range a) v) eqn:Ec.
    + destruct (referenced a) eqn:Er; cbn [fst snd].
      * split; [| split].
        -- constructor; [| exact Hsame].
           repeat split; auto. intros E1 E2. congruence.
        -- intros x [<- | Hx] Hc; [exact Er |].
           rewrite (Hrest x Hx eq_refl) in Hc. discriminate.
        -- intros r [].
      * split; [| split].
        -- constructor.
           ++ repeat split; cbn [alloc_range referenced]; auto.
              ** intros _. right. exists v. split; [left; reflexivity | exact Ec].
              ** intros _ _. left. reflexivity.
           ++ eapply Forall2_impl; [| exact Hsame].
              intros x y (E1 & E2 & E3 & E4). repeat split; auto.
              intros F1 F2. destruct (E4 F1 F2).
        -- intros x [<- | Hx] Hc; [reflexivity |].
           rewrite (Hrest x Hx eq_refl) in Hc. discriminate.
        -- intros r [<- | []]. exists a.
           repeat split; auto. left. reflexivity.
    + specialize (IH _ H4). destruct (reference v l) as [rest' found].
      cbn [fst snd] in IH |- *. destruct IH as (IH1 & IH2 & IH3).
      split; [| split].
      * constructor; [| exact IH1].
        repeat split; auto. intros E1 E2. congruence.
      * intros x [<- | Hx] Hc; [congruence | auto].
      * intros r Hr. destruct (IH3 r Hr) as (x & Hx & E).
        exists x. split; [right; exact Hx | exact E].
Qed.

Lemma pointed_kept (vals : list Z) (queue : list Range)
    (allocs allocs' : list AllocationInfo) (v : Z) :
  Forall2 (marks vals queue) allocs allocs' ->
  pointed allocs v -> pointed allocs' v.
Proof.
  intros HF Hp a' Hin Hc.
  destruct (Forall2_In_r _ _ _ _ HF Hin) as (a & Ha & E1 & E2 & _).
  apply E2. apply Hp; [exact Ha |]. rewrite <- E1. exact Hc.
Qed.

Lemma scan_value_spec (allocs : list AllocationInfo) (queue : list Range)
    (v : Z) (lo : Z) :
  disjoint_from lo (map alloc_range allocs) ->
  let st := scan_value (allocs, queue) v in
  Forall2 (marks [v] (snd st)) allocs (fst st)
  /\ pointed (fst st) v
  /\ exists new,
       snd st = queue ++ new
       /\ forall r, In r new ->
            exists a, In a allocs /\ alloc_range a = r
                      /\ referenced a = false /\ contains r v = true.
Proof.
  intro H. cbv zeta. unfold scan_value.
  destruct ((min_allocation_begin allocs <=? v)
            && (v <? max_allocation_end allocs)) eqn:Eb.
  - destruct (reference_spec v allocs lo H) as (H1 & H2 & H3).
    destruct (reference v allocs) as [allocs' found]. cbn [fst snd] in *.
    split; [| split].
    + eapply Forall2_impl; [| exact H1].
      intros a a' (E1 & E2 & E3 & E4). repeat split; auto.
      intros F1 F2. apply in_or_app. right. auto.
    + exact H2.
    + exists found. split; [reflexivity | exact H3].
  - cbn [fst snd]. split; [| split].
    + apply Forall2_same. intro a. repeat split; auto.
      intros E1 E2. congruence.
    + intros a Ha Hc.
      rewrite (contains_within_bounds allocs a v Ha Hc) in Eb. discriminate.
    + exists []. rewrite app_nil_r. split; [reflexivity | intros r []].
Qed.

Lemma scan_values_spec (vals : list Z) :
  forall (allocs : list AllocationInfo) (queue : list Range) (lo : Z),
    disjoint_from lo (map alloc_range allocs) ->
    let st := scan_values vals (allocs, queue) in
    Forall2 (marks vals (snd st)) allocs (fst st)
    /\ (forall v, In v vals -> pointed (fst st) v)
    /\ exists new,
         snd st = queue ++ new
         /\ forall r, In r new ->
              exists a v, In a allocs /\ alloc_range a = r
                          /\ referenced a = false
                          /\ In v vals /\ contains r v = true.
Proof.
  unfold scan_values.
  induction vals as [| v vals IH]; intros allocs queue lo H; cbv zeta;
    cbn [fold_left].
  - cbn [fst snd]. split; [| split].
    + apply Forall2_same. intro a. repeat split; auto.
      intros E1 E2. congruence.
    + intros v [].
    + exists []. rewrite app_nil_r. split; [reflexivity | intros r []].
  - destruct (scan_value_spec allocs queue v lo H) as (S1 & S2 & new1 & S3 & S4).
    cbv zeta in S1, S2, S3.
    pose proof (scan_value_ranges (allocs, queue) v) as Hr.
    destruct (scan_value (allocs, queue) v) as [allocs1 queue1].
    cbn [fst snd] in *.
    assert (disjoint_from lo (map alloc_range allocs1)) as H'
      by (rewrite Hr; exact H).
    specialize (IH allocs1 queue1 lo H'). cbv zeta in IH.
    destruct IH as (I1 & I2 & new2 & I3 & I4).
    destruct (fold_left scan_value vals (allocs1, queue1)) as [allocs2 queue2].
    cbn [fst snd] in *. subst queue1 queue2.
    split; [| split].
    + eapply Forall2_compose; [| exact S1 | exact I1].
      intros a b c (E1 & E2 & E3 & E4) (F1 & F2 & F3 & F4).
      repeat split.
      * congruence.
      * auto.
      * intro Hc. destruct (F3 Hc) as [Hb | (x & Hx & Hcx)].
        -- destruct (E3 Hb) as [Ha | (x & Hx & Hcx)]; [left; exact Ha |].
           right. exists x. split; [| exact Hcx].
           destruct Hx as [<- | []]. left. reflexivity.
        -- right. exists x. split; [right; exact Hx |].
           rewrite <- E1. exact Hcx.
      * intros Ha Hc. destruct (referenced b) eqn:Eb.
        -- apply in_or_app. left. apply E4; auto.
        -- rewrite <- E1. apply F4; auto.
    + intros x [<- | Hx].
      * eapply pointed_kept; [exact I1 | exact S2].
      * apply I2. exact Hx.
    + exists (new1 ++ new2). rewrite app_assoc. split; [reflexivity |].
      intros r Hr'. apply in_app_or in Hr'. destruct Hr' as [Hr' | Hr'].
      * destruct (S4 r Hr') as (a & Ha & E1 & E2 & E3).
        exists a, v. repeat split; auto. left. reflexivity.
      * destruct (I4 r Hr') as (b & x & Hb & E1 & E2 & Hx & E3).
        destruct (Forall2_In_r _ _ _ _ S1 Hb) as (a & Ha & G1 & G2 & _).
        exists a, x. repeat split; auto.
        -- congruence.
        -- destruct (referenced a) eqn:Ea; [| reflexivity].
           rewrite (G2 eq_refl) in E2. discriminate.
        -- right. exact Hx.
Qed.

End Mark.

Section MarkInvariant.

Variable mem : Memory.
Variable w : HeapWalker.
Hypothesis Hw : index_ok w.

(** The scan of the register blobs establishes the invariant. *)
Lemma mark_invariant_start :
  let st := scan_values (List.concat (root_vals w)) (allocations w, roots w) in
  mark_invariant mem w (fst st) (snd st) (List.concat (root_vals w)).
Proof.
  cbv zeta.
  destruct (scan_values_spec (List.concat (root_vals w)) (allocations w)
              (roots w) 0 Hw) as (S1 & S2 & new & S3 & S4).
  cbv zeta in S1, S2, S3.
  destruct (scan_values _ _) as [allocs queue]. cbn [fst snd] in *.
  subst queue.
  assert (forall a v, In a (allocations w) -> referenced a = false ->
                      In v (List.concat (root_vals w)) ->
                      contains (alloc_range a) v = true ->
                      reached mem w (alloc_range a)) as Hreach.
  { intros a v Ha Hr Hv Hc. apply in_concat in Hv.
    destruct Hv as (blob & Hb & Hv). apply contains_bounds in Hc.
    eapply reached_by_blob; eassumption. }
  repeat split.
  - eapply Forall2_impl; [| exact (Forall2_with_In _ _ _ S1)].
    intros a a' (Ha & Ha' & E1 & E2 & E3 & E4).
    repeat split; auto.
    + intro Hc. destruct (referenced a) eqn:Ea; [left; reflexivity |].
      right. destruct (E3 Hc) as [C | (v & Hv & Hcv)]; [discriminate |].
      eapply Hreach; eassumption.
    + intro Hc. destruct (referenced a) eqn:Ea; [left; reflexivity |].
      right. left. auto.
  - intros r Hr. apply in_app_or in Hr. destruct Hr as [Hr | Hr];
      [left; exact Hr |].
    right. destruct (S4 r Hr) as (a & v & Ha & <- & E2 & Hv & Hc).
    eapply Hreach; eassumption.
  - exact S2.
  - intros r Hr. left. apply in_or_app. left. exact Hr.
  - intros blob v Hb Hv. apply in_concat. exists blob. auto.
Qed.

(** One iteration of the work-queue loop keeps the invariant. *)
Lemma mark_invariant_step (allocs : list AllocationInfo) (r : Range)
    (rest : list Range) (scanned : list Z) :
  mark_invariant mem w allocs (r :: rest) scanned ->
  let st := scan_values (region_words mem r) (allocs, rest) in
  mark_invariant mem w (fst st) (snd st) (scanned ++ region_words mem r).
Proof.
  intros (I1 & I2 & I3 & I4 & I5). cbv zeta.
  assert (map alloc_range allocs = map alloc_range (allocations w)) as Hranges.
  { clear - I1. induction I1 as [| a0 a l0 l (E & _) _ IH]; cbn [map];
      [reflexivity | congruence]. }
  assert (disjoint_from 0 (map alloc_range allocs)) as Hd
    by (rewrite Hranges; exact Hw).
  destruct (scan_values_spec (region_words mem r) allocs rest 0 Hd)
    as (S1 & S2 & new & S3 & S4).
  cbv zeta in S1, S2, S3.
  destruct (scan_values _ _) as [allocs' queue']. cbn [fst snd] in *.
  subst queue'.
  assert (forall a0 v, In a0 (allocations w) -> referenced a0 = false ->
                       In v (region_words mem r) ->
                       contains (alloc_range a0) v = true ->
                       reached mem w (alloc_range a0)) as Hreach.
  { intros a0 v Ha Hr Hv Hc.
    apply region_words_spec in Hv. apply contains_bounds in Hc.
    destruct (I2 r (or_introl eq_refl)) as [Hroot | Hre].
    - eapply reached_from_root; eassumption.
    - eapply reached_through; eassumption. }
  repeat split.
  - eapply Forall2_compose;
      [| exact (Forall2_with_In _ _ _ I1) | exact S1].
    intros a0 a a' (Ha0 & Ha & E1 & E2 & E3 & E4) (F1 & F2 & F3 & F4).
    repeat split.
    + congruence.
    + auto.
    + intro Hc. destruct (referenced a0) eqn:Ea0; [left; reflexivity |].
      right. destruct (referenced a) eqn:Ea.
      * destruct (E3 eq_refl) as [C | Hre]; [discriminate | exact Hre].
      * destruct (F3 Hc) as [C | (v & Hv & Hcv)]; [discriminate |].
        rewrite E1 in Hcv. eapply Hreach; eassumption.
    + intro Hc. destruct (referenced a0) eqn:Ea0; [left; reflexivity |].
      right. destruct (referenced a) eqn:Ea.
      * destruct (E4 eq_refl) as [C | [Hq | Hs]]; [discriminate | |].
        -- destruct Hq as [<- | Hq].
           ++ right. intros v Hv. apply in_or_app. right. exact Hv.
           ++ left. apply in_or_app. left. exact Hq.
        -- right. intros v Hv. apply in_or_app. left. auto.
      * left. rewrite <- E1. apply F4; auto.
  - intros x Hx. apply in_app_or in Hx. destruct Hx as [Hx | Hx].
    + apply I2. right. exact Hx.
    + right. destruct (S4 x Hx) as (a & v & Ha & <- & E2 & Hv & Hc).
      destruct (Forall2_In_r _ _ _ _ (Forall2_with_In _ _ _ I1) Ha)
        as (a0 & _ & Ha0 & _ & G1 & G2 & _).
      rewrite G1 in Hc |- *.
      eapply Hreach; try eassumption.
      destruct (referenced a0) eqn:Ea0; [| reflexivity].
      rewrite (G2 eq_refl) in E2. discriminate.
  - intros v Hv. apply in_app_or in Hv. destruct Hv as [Hv | Hv].
    + eapply pointed_kept; [exact S1 | apply I3; exact Hv].
    + apply S2. exact Hv.
  - intros x Hx. destruct (I4 x Hx) as [[<- | Hq] | Hs].
    + right. intros v Hv. apply in_or_app. right. exact Hv.
    + left. apply in_or_app. left. exact Hq.
    + right. intros v Hv. apply in_or_app. left. auto.
  - intros blob v Hb Hv. apply in_or_app. left. eauto.
Qed.

Lemma mark_invariant_loop (fuel : nat) :
  forall allocs queue scanned,
    mark_invariant mem w allocs queue scanned ->
    let st := mark_loop fuel mem allocs queue in
    exists scanned', mark_invariant mem w (fst st) (snd st) scanned'.
Proof.
  induction fuel as [| f IH]; intros allocs [| r rest] scanned H; cbv zeta;
    cbn [mark_loop]; try (exists scanned; exact H).
  pose proof (mark_invariant_step allocs r rest scanned H) as Hs.
  cbv zeta in Hs.
  destruct (scan_values (region_words mem r) (allocs, rest)) as [a' q'].
  cbn [fst snd] in Hs. exact (IH _ _ _ Hs).
Qed.

(** What reaching means once the queue is empty: every reached region
    holds a scanned value and has been scanned itself. *)
Lemma reached_scanned (allocs : list AllocationInfo) (scanned : list Z) :
  mark_invariant mem w allocs [] scanned ->
  forall r,
    reached mem w r ->
    (exists v, In v scanned /\ contains r v = true)
    /\ (forall v, In v (region_words mem r) -> In v scanned).
Proof.
  intros (I1 & I2 & I3 & I4 & I5).
  assert (forall a v, In a (allocations w) -> referenced a = false ->
                      In v scanned -> contains (alloc_range a) v = true ->
                      (exists v, In v scanned
                                 /\ contains (alloc_range a) v = true)
                      /\ (forall v, In v (region_words mem (alloc_range a)) ->
                                    In v scanned)) as Hstep.
  { intros a v Ha Hr Hv Hc. split; [exists v; auto |].
    destruct (Forall2_In_l _ _ _ _ (Forall2_with_In _ _ _ I1) Ha)
      as (a' & _ & _ & Ha' & E1 & E2 & E3 & E4).
    assert (referenced a' = true) as Hm.
    { apply (I3 v Hv a' Ha'). rewrite E1. exact Hc. }
    destruct (E4 Hm) as [C | [[] | Hs]]; [congruence | exact Hs]. }
  induction 1 as [blob v a Hb Hv Ha Hr Hc
                 | r v a Hroot Hv Ha Hr Hc
                 | r v a Hre IH Hv Ha Hr Hc];
    apply contains_bounds in Hc.
  - apply (Hstep a v); eauto.
  - apply region_words_spec in Hv. apply (Hstep a v); auto.
    destruct (I4 r Hroot) as [[] | Hs]. auto.
  - apply region_words_spec in Hv. apply (Hstep a v); auto.
    apply IH. exact Hv.
Qed.

(** The mark phase sets the referenced bit of exactly the allocations
    that were referenced before or are reached. *)
Lemma mark_reaches :
  Forall2 (fun a0 a =>
             In a0 (allocations w)
             /\ alloc_range a = alloc_range a0
             /\ (referenced a = false <->
                 referenced a0 = false /\ ~ reached mem w (alloc_range a0)))
          (allocations w) (fst (mark mem w)).
Proof.
  pose proof (mark_drains mem w) as Hq.
  unfold mark in Hq |- *.
  pose proof mark_invariant_start as H0. cbv zeta in H0.
  destruct (scan_values (List.concat (root_vals w)) (allocations w, roots w))
    as [allocs1 queue1]. cbn [fst snd] in H0.
  destruct (mark_invariant_loop (mark_fuel allocs1 queue1) _ _ _ H0)
    as (scanned & HI).
  rewrite Hq in HI.
  pose proof (reached_scanned _ _ HI) as Hrs.
  destruct HI as (I1 & _ & I3 & _).
  eapply Forall2_impl; [| exact (Forall2_with_In _ _ _ I1)].
  intros a0 a (Ha0 & Ha & E1 & E2 & E3 & _).
  split; [exact Ha0 |]. split; [exact E1 |]. split.
  - intro Hf. split.
    + destruct (referenced a0) eqn:Ea0; [| reflexivity].
      rewrite (E2 eq_refl) in Hf. discriminate.
    + intro Hre. destruct (Hrs _ Hre) as ((v & Hv & Hc) & _).
      rewrite (I3 v Hv a Ha) in Hf; [discriminate |].
      rewrite E1. exact Hc.
  - intros (Hf & Hn). destruct (referenced a) eqn:Ea; [| reflexivity].
    destruct (E3 eq_refl) as [C | C]; [congruence | contradiction].
Qed.

End MarkInvariant.

Lemma disjoint_from_NoDup (l : list Range) :
  forall lo, disjoint_from lo l -> NoDup l.
Proof.
  induction l as [| r l IH]; intros lo H; constructor.
  - destruct H as (H1 & H2 & H3 & H4). intro Hin.
    pose proof (disjoint_from_lower _ _ _ H4 Hin). lia.
  - destruct H as (_ & _ & _ & H4). exact (IH _ H4).
Qed.

(** The regions the sweep finds unreferenced are the unreachable regions
    of the index, each once, in index order. *)
Lemma unreferenced_ranges_unreachable (mem : Memory) (w : HeapWalker) :
  index_ok w ->
  NoDup (unreferenced_ranges (DetectLeaks mem w))
  /\ forall r, In r (unreferenced_ranges (DetectLeaks mem w))
               <-> unreachable mem w r.
Proof.
  intro Hw. split.
  - eapply disjoint_from_NoDup. apply DetectLeaks_unreferenced_disjoint.
    exact Hw.
  - pose proof (mark_reaches mem w Hw) as HF.
    intro r. unfold unreferenced_ranges, unreferenced, DetectLeaks.
    cbn [allocations]. rewrite in_map_iff. split.
    + intros (a & <- & Ha). apply filter_In in Ha. destruct Ha as [Ha Hf].
      apply negb_true_iff in Hf.
      destruct (Forall2_In_r _ _ _ _ HF Ha) as (a0 & _ & Ha0 & E1 & E2).
      apply E2 in Hf. destruct Hf as [Hf Hn]. rewrite E1.
      split; [exists a0; auto | exact Hn].
    + intros ((a0 & Ha0 & <- & Hf) & Hn).
      destruct (Forall2_In_l _ _ _ _ HF Ha0) as (a & Ha & _ & E1 & E2).
      exists a. split; [exact E1 |]. apply filter_In. split; [exact Ha |].
      apply negb_true_iff. apply E2. auto.
Qed.

(* ================================================================== *)
(** * The sweep: order and truncation                                  *)
(* ================================================================== *)

Section Sweep.

Lemma leak_before_iff (a b : Range) :
  leak_before a b = true
  <-> range_size b < range_size a
      \/ (range_size a = range_size b /\ range_begin a <= range_begin b).
Proof.
  unfold leak_before.
  rewrite orb_true_iff, andb_true_iff, Z.ltb_lt, Z.eqb_eq, Z.leb_le.
  reflexivity.
Qed.

Lemma leak_before_total (a b : Range) :
  leak_before a b = false -> leak_before b a = true.
Proof.
  intro H. apply leak_before_iff.
  destruct (leak_before a b) eqn:E; [discriminate |].
  assert (~ (range_size b < range_size a
             \/ (range_size a = range_size b
                 /\ range_begin a <= range_begin b))) as N.
  { intro C. apply leak_before_iff in C. congruence. }
  lia.
Qed.

Lemma leak_before_trans (a b c : Range) :
  range_before a b -> range_before b c -> range_before a c.
Proof.
  unfold range_before. lia.
Qed.

Lemma insert_leak_Forall (P : Range -> Prop) (r : Range) (l : list Range) :
  P r -> Forall P l -> Forall P (insert_leak r l).
Proof.
  intros Hr Hl. induction Hl as [| x l Hx Hl IH]; cbn.
  - auto.
  - destruct (leak_before r x); auto.
Qed.

Lemma insert_leak_sorted (r : Range) (l : list Range) :
  StronglySorted range_before l -> StronglySorted range_before (insert_leak r l).
Proof.
  intro H. induction H as [| x l Hs IH Hx]; cbn.
  - repeat constructor.
  - destruct (leak_before r x) eqn:E.
    + apply leak_before_iff in E.
      constructor; [constructor; auto |].
      constructor; [exact E |].
      eapply Forall_impl; [| exact Hx].
      intros y Hy. eapply leak_before_trans; eauto.
    + constructor; [exact IH |].
      apply insert_leak_Forall; [| exact Hx].
      apply leak_before_iff. apply leak_before_total. exact E.
Qed.

Lemma sort_leaks_sorted (l : list Range) :
  StronglySorted range_before (sort_leaks l).
Proof.
  unfold sort_leaks.
  induction l as [| r l IH]; cbn [fold_right].
  - constructor.
  - apply insert_leak_sorted. exact IH.
Qed.

Lemma insert_leak_length (r : Range) (l : list Range) :
  List.length (insert_leak r l) = S (List.length l).
Proof.
  induction l as [| x l IH]; cbn; [reflexivity |].
  destruct (leak_before r x); cbn; [reflexivity | now rewrite IH].
Qed.

Lemma sort_leaks_length (l : list Range) :
  List.length (sort_leaks l) = List.length l.
Proof.
  unfold sort_leaks.
  induction l as [| r l IH]; cbn [fold_right List.length]; [reflexivity |].
  rewrite insert_leak_length. now rewrite IH.
Qed.

(** Sorting keeps exactly the regions it was given. *)
Lemma insert_leak_perm (r : Range) (l : list Range) :
  Permutation (r :: l) (insert_leak r l).
Proof.
  induction l as [| x l IH]; cbn; [reflexivity |].
  destruct (leak_before r x); [reflexivity |].
  rewrite perm_swap. now constructor.
Qed.

Lemma sort_leaks_perm (l : list Range) : Permutation l (sort_leaks l).
Proof.
  unfold sort_leaks.
  induction l as [| r l IH]; cbn [fold_right]; [constructor |].
  rewrite <- insert_leak_perm. now constructor.
Qed.

Lemma In_firstn {A : Type} (n : nat) :
  forall (l : list A) (x : A), In x (firstn n l) -> In x l.
Proof.
  induction n as [| n IH]; intros [| y l] x H; cbn in H |- *; auto;
    try contradiction.
  destruct H as [H | H]; auto.
Qed.

Lemma skipn_zeros (n m : nat) : skipn n (repeat 0 m) = repeat 0 (m - n).
Proof.
  revert m. induction n as [| n IH]; intros [| m]; cbn; auto.
Qed.

Lemma firstn_sorted {A : Type} (R : A -> A -> Prop) (n : nat) :
  forall l, StronglySorted R l -> StronglySorted R (firstn n l).
Proof.
  induction n as [| n IH]; intros l H; cbn.
  - constructor.
  - destruct H as [| x l Hs Hx]; constructor.
    + apply IH. exact Hs.
    + apply Forall_forall. intros y Hy.
      apply In_firstn in Hy.
      revert y Hy. apply Forall_forall. exact Hx.
Qed.

(** The regions emitted by [Leaked]: at most [limit] of them, largest
    first. *)
Lemma Leaked_emitted (mem : Memory) (w : HeapWalker) (limit : Z) :
  let emitted := snd (fst (fst (Leaked mem w limit))) in
  StronglySorted range_before emitted
  /\ List.length emitted
     = Nat.min (Z.to_nat limit)
               (List.length (unreferenced_ranges (DetectLeaks mem w)))
  /\ (forall r, In r emitted ->
                In r (unreferenced_ranges (DetectLeaks mem w))).
Proof.
  unfold Leaked. cbv zeta. cbn [fst snd]. split; [| split].
  - apply firstn_sorted. apply sort_leaks_sorted.
  - rewrite length_firstn, sort_leaks_length. reflexivity.
  - intros r Hr. apply In_firstn in Hr.
    eapply Permutation_in; [| exact Hr].
    symmetry. apply sort_leaks_perm.
Qed.

(** ** From regions to leak records *)

Lemma memcpy_zero_contents (mem : Memory) (src : Z) (n : nat) (bytes : list Z) :
  read_bytes mem src n = Some bytes ->
  List.length bytes = n
  /\ forall i, (i < n)%nat -> mem (src + Z.of_nat i) = Some (nth i bytes 0).
Proof.
  revert src bytes.
  induction n as [| n IH]; intros src bytes H; cbn [read_bytes] in H.
  - injection H as <-. split; [reflexivity | lia].
  - destruct (mem src) as [b |] eqn:Eb; [| discriminate].
    destruct (read_bytes mem (src + 1) n) as [bs |] eqn:Ebs; [| discriminate].
    injection H as <-.
    destruct (IH _ _ Ebs) as [Hl Hn].
    split; [cbn; now rewrite Hl |].
    intros [| i] Hi; cbn [nth].
    + rewrite Z.add_0_r. exact Eb.
    + rewrite <- Hn by lia. f_equal. lia.
Qed.

Lemma read_bytes_fault (mem : Memory) (n : nat) :
  forall src,
    read_bytes mem src n = None ->
    exists i, (i < n)%nat /\ mem (src + Z.of_nat i) = None.
Proof.
  induction n as [| n IH]; intros src H; cbn [read_bytes] in H.
  - discriminate.
  - destruct (mem src) as [b |] eqn:Eb.
    + destruct (read_bytes mem (src + 1) n) as [bs |] eqn:Ebs; [discriminate |].
      destruct (IH _ Ebs) as (i & Hi & Hm).
      exists (S i). split; [lia |].
      rewrite <- Hm. f_equal. lia.
    + exists 0%nat. split; [lia |]. now rewrite Z.add_0_r.
Qed.

Lemma range_size_bounds (r : Range) : 0 <= range_size r < ptr_modulus.
Proof. unfold range_size, wrap. apply Z.mod_pos_bound. reflexivity. Qed.

(** A leak record is built from exactly the bytes that could be read. *)
Lemma make_leak_Some (mem : Memory) (it : Range) (leak : Leak) :
  make_leak mem it = Some leak ->
  leak_begin leak = range_begin it
  /\ leak_size leak = range_size it
  /\ contents_copied mem leak.
Proof.
  unfold make_leak, memcpy. cbv zeta. fold (range_size it).
  change (leak_contents Leak_zero) with (repeat 0 (Z.to_nat contents_length)).
  destruct (read_bytes _ _ _) as [bytes |] eqn:E; [| discriminate].
  intro H.
  assert (leak = mkLeak (range_begin it) (range_size it)
                   (bytes ++ skipn (List.length bytes)
                                   (repeat 0 (Z.to_nat contents_length))))
    as -> by congruence.
  clear H.
  split; [reflexivity |]. split; [reflexivity |].
  destruct (memcpy_zero_contents _ _ _ _ E) as [Hl Hn].
  pose proof (range_size_bounds it) as Hs.
  assert (0 <= Z.min (range_size it) contents_length <= contents_length) as Hm
    by (unfold contents_length; lia).
  unfold contents_copied.
  change (leak_begin (mkLeak ?b ?z ?c)) with b.
  change (leak_size (mkLeak ?b ?z ?c)) with z.
  change (leak_contents (mkLeak ?b ?z ?c)) with c.
  rewrite skipn_zeros.
  split; [| split].
  - rewrite length_app, repeat_length, Hl. lia.
  - intros i Hi. rewrite app_nth1 by lia.
    rewrite <- Hn by lia. f_equal. lia.
  - intros i Hi. rewrite app_nth2 by lia. apply nth_repeat.
Qed.

Lemma make_leak_None (mem : Memory) (it : Range) :
  make_leak mem it = None ->
  exists i, 0 <= i < Z.min (range_size it) contents_length
            /\ mem (range_begin it + i) = None.
Proof.
  unfold make_leak, memcpy. fold (range_size it).
  destruct (read_bytes _ _ _) as [bytes |] eqn:E; [discriminate |].
  intros _. destruct (read_bytes_fault _ _ _ E) as (i & Hi & Hm).
  exists (Z.of_nat i). split; [lia | exact Hm].
Qed.

Lemma make_leaks_Returned (mem : Memory) (leaked : list Range) :
  forall acc result,
    make_leaks mem leaked acc = Returned result ->
    exists built,
      result = acc ++ built
      /\ Forall2 (fun r leak => make_leak mem r = Some leak) leaked built.
Proof.
  induction leaked as [| r leaked IH]; intros acc result H; cbn [make_leaks] in H.
  - injection H as <-. exists []. rewrite app_nil_r. auto.
  - destruct (make_leak mem r) as [leak |] eqn:E; [| discriminate].
    destruct (IH _ _ H) as (built & -> & HF).
    exists (leak :: built). rewrite <- app_assoc. auto.
Qed.

Lemma make_leaks_Fault (mem : Memory) (leaked : list Range) :
  forall acc,
    make_leaks mem leaked acc = Fault ->
    exists r, In r leaked /\ make_leak mem r = None.
Proof.
  induction leaked as [| r leaked IH]; intros acc H; cbn [make_leaks] in H.
  - discriminate.
  - destruct (make_leak mem r) as [leak |] eqn:E.
    + destruct (IH _ H) as (r' & Hin & Hr'). exists r'. split; [now right | auto].
    + exists r. split; [now left | auto].
Qed.

Lemma built_leaks_sorted (mem : Memory) (leaked : list Range)
    (built : list Leak) :
  Forall2 (fun r leak => make_leak mem r = Some leak) leaked built ->
  StronglySorted range_before leaked ->
  StronglySorted leak_order built.
Proof.
  intro HF. induction HF as [| r leak leaked built Hr HF IH]; intro Hs.
  - constructor.
  - apply StronglySorted_inv in Hs. destruct Hs as [Hs Hall].
    constructor; [auto |].
    clear IH Hs.
    destruct (make_leak_Some _ _ _ Hr) as (Hb & Hz & _).
    induction HF as [| r' leak' leaked built Hr' HF IH]; constructor.
    + apply Forall_inv in Hall. unfold range_before in Hall.
      destruct (make_leak_Some _ _ _ Hr') as (Hb' & Hz' & _).
      unfold leak_order. rewrite Hb, Hz, Hb', Hz'. exact Hall.
    + apply IH. now apply Forall_inv_tail in Hall.
Qed.

End Sweep.

(* ================================================================== *)
(** * MemUnreachable::GetUnreachableMemory                             *)
(* ================================================================== *)

Section SweepWrapper.

(** What the wrapper returns, in terms of [Leaked] and the loop that
    builds the records. *)
Lemma MemUnreachable_GetUnreachableMemory_unfold (mem : Memory)
    (u : MemUnreachable) (leaks0 : list Leak) (limit : Z) :
  let w := heap_walker_ u in
  let emitted := snd (fst (fst (Leaked mem w limit))) in
  MemUnreachable_GetUnreachableMemory mem u leaks0 limit
  = match make_leaks mem emitted [] with
    | Returned leaks =>
        Returned (true, with_walker u (DetectLeaks mem w), leaks,
                  wrap (Z.of_nat (List.length
                                    (unreferenced_ranges (DetectLeaks mem w)))),
                  sum_sizes (unreferenced_ranges (DetectLeaks mem w)))
    | Fault => Fault
    end.
Proof. reflexivity. Qed.

Lemma Leaked_totals (mem : Memory) (w : HeapWalker) :
  index_ok w ->
  wrap (Z.of_nat (List.length (unreferenced_ranges (DetectLeaks mem w))))
  = Z.of_nat (List.length (unreferenced_ranges (DetectLeaks mem w)))
  /\ sum_sizes (unreferenced_ranges (DetectLeaks mem w))
     = total_bytes (unreferenced_ranges (DetectLeaks mem w)).
Proof.
  intro H.
  pose proof (DetectLeaks_unreferenced_disjoint mem w H) as D.
  destruct (disjoint_total_bound _ 0 ptr_modulus_pos D) as [B1 B2].
  split.
  - apply wrap_small. lia.
  - apply sum_sizes_total. exact D.
Qed.

End SweepWrapper.

(** C3. For every walker with a well-formed index there is one list of
    leaks, the regions of the allocations that were not referenced before
    the walk and are not reached from a register blob, a root region or a
    reached allocation, each once.  Whatever the limit, the totals reported
    by the sweep and passed on by [MemUnreachable::GetUnreachableMemory]
    are the length of that list and the sum of the sizes of its regions;
    the limit only bounds the number of emitted regions and of returned
    leak records. *)
Theorem GetUnreachableMemory_reports_true_totals :
  forall (mem : Memory) (u : MemUnreachable),
    index_ok (heap_walker_ u) ->
    let w := heap_walker_ u in
    exists all : list Range,
      NoDup all
      /\ (forall r, In r all <-> unreachable mem w r)
      /\ forall (leaks0 : list Leak) (limit : Z),
           (let '(swept, _, emitted, n, b) := Leaked mem w limit in
            swept = true
            /\ n = Z.of_nat (List.length all)
            /\ b = total_bytes all
            /\ List.length emitted
               = Nat.min (Z.to_nat limit) (List.length all))
           /\ match MemUnreachable_GetUnreachableMemory mem u leaks0 limit with
              | Returned (ok, _, leaks, n, b) =>
                  ok = true
                  /\ n = Z.of_nat (List.length all)
                  /\ b = total_bytes all
                  /\ List.length leaks
                     = Nat.min (Z.to_nat limit) (List.length all)
              | Fault => exists r, In r all /\ make_leak mem r = None
              end.
Proof.
  intros mem u H. cbv zeta.
  exists (unreferenced_ranges (DetectLeaks mem (heap_walker_ u))).
  destruct (unreferenced_ranges_unreachable mem (heap_walker_ u) H)
    as [Hnd Hin].
  split; [exact Hnd |]. split; [exact Hin |].
  intros leaks0 limit.
  destruct (Leaked_totals mem (heap_walker_ u) H) as [Hn Hb].
  destruct (Leaked_emitted mem (heap_walker_ u) limit) as (_ & Hlen & Hem).
  cbv zeta in Hlen, Hem.
  split.
  - unfold Leaked in Hlen |- *. cbv zeta in Hlen |- *. cbn [fst snd] in Hlen.
    auto.
  - rewrite MemUnreachable_GetUnreachableMemory_unfold. cbv zeta.
    destruct (make_leaks mem _ []) as [built |] eqn:E.
    + destruct (make_leaks_Returned _ _ _ _ E) as (built' & -> & HF).
      cbn [app]. apply Forall2_length in HF.
      rewrite <- HF, Hlen. auto.
    + destruct (make_leaks_Fault _ _ _ E) as (r & Hr & Hnone).
      exists r. auto.
Qed.

(** C3, at the collection of scenario S5 when the library data points
    into the allocation of 30 bytes and that allocation points to the one
    of 50 bytes: the index built by [CollectAllocations] is well formed,
    and with limit 2 the sweep reports the 3 leaks of 70 bytes that are
    left and returns two records. *)
Lemma GetUnreachableMemory_reports_true_totals_witness :
  let u := child_unreachable S5_env S5_threads S5_mappings in
  index_ok (heap_walker_ u)
  /\ match MemUnreachable_GetUnreachableMemory pointer_memory u [] 2 with
     | Returned (_, _, leaks, n, b) =>
         n = 3 /\ b = 70 /\ map leak_size leaks = [40; 20]
     | Fault => False
     end
  /\ exists all : list Range,
       NoDup all
       /\ (forall r, In r all <-> unreachable pointer_memory (heap_walker_ u) r)
       /\ forall (leaks0 : list Leak) (limit : Z),
            (let '(swept, _, emitted, n, b) :=
               Leaked pointer_memory (heap_walker_ u) limit in
             swept = true
             /\ n = Z.of_nat (List.length all)
             /\ b = total_bytes all
             /\ List.length emitted
                = Nat.min (Z.to_nat limit) (List.length all))
            /\ match MemUnreachable_GetUnreachableMemory
                       pointer_memory u leaks0 limit with
               | Returned (ok, _, leaks, n, b) =>
                   ok = true
                   /\ n = Z.of_nat (List.length all)
                   /\ b = total_bytes all
                   /\ List.length leaks
                      = Nat.min (Z.to_nat limit) (List.length all)
               | Fault => exists r, In r all /\ make_leak pointer_memory r = None
               end.
Proof.
  cbv zeta.
  assert (index_ok (heap_walker_
                      (child_unreachable S5_env S5_threads S5_mappings))) as H.
  { unfold index_ok. vm_compute. intuition discriminate. }
  split; [exact H |].
  split; [vm_compute; repeat split |].
  exact (GetUnreachableMemory_reports_true_totals
           pointer_memory
           (child_unreachable S5_env S5_threads S5_mappings) H).
Defined.

Section LargestFirst.

Lemma range_before_size (a b : Range) :
  range_before a b -> range_size b <= range_size a.
Proof. unfold range_before. lia. Qed.

Lemma sorted_sizes (l : list Range) :
  StronglySorted range_before l ->
  StronglySorted Z.ge (map range_size l).
Proof.
  induction 1 as [| r l Hs IH Hall]; cbn [map]; constructor; [exact IH |].
  apply Forall_forall. intros s Hs'. apply in_map_iff in Hs'.
  destruct Hs' as (x & <- & Hx).
  rewrite Forall_forall in Hall.
  pose proof (range_before_size _ _ (Hall x Hx)). lia.
Qed.

(** A list has one arrangement in decreasing order. *)
Lemma sorted_permutation_unique (l1 : list Z) :
  forall l2,
    StronglySorted Z.ge l1 -> StronglySorted Z.ge l2 ->
    Permutation l1 l2 -> l1 = l2.
Proof.
  induction l1 as [| x l1 IH]; intros l2 H1 H2 HP.
  - apply Permutation_nil in HP. congruence.
  - destruct l2 as [| y l2];
      [apply Permutation_sym, Permutation_nil in HP; discriminate |].
    apply StronglySorted_inv in H1. destruct H1 as [H1 A1].
    apply StronglySorted_inv in H2. destruct H2 as [H2 A2].
    rewrite Forall_forall in A1, A2.
    assert (x = y) as ->.
    { assert (In x (y :: l2)) as Hx
        by (eapply Permutation_in; [exact HP | left; reflexivity]).
      assert (In y (x :: l1)) as Hy
        by (eapply Permutation_in;
            [apply Permutation_sym; exact HP | left; reflexivity]).
      destruct Hx as [-> | Hx]; [reflexivity |].
      destruct Hy as [-> | Hy]; [reflexivity |].
      specialize (A1 _ Hy). specialize (A2 _ Hx). lia. }
    f_equal. apply IH; auto.
    eapply Permutation_cons_inv. exact HP.
Qed.

(** The sum accumulated in a [size_t] depends on the sizes only. *)
Lemma sum_sizes_mod (l : list Range) :
  forall acc,
    fold_left (fun acc r => wrap (acc + range_size r)) l (wrap acc)
    = wrap (acc + fold_right Z.add 0 (map range_size l)).
Proof.
  induction l as [| r l IH]; intro acc; cbn [fold_left map fold_right].
  - f_equal. lia.
  - assert (wrap (wrap acc + range_size r) = wrap (acc + range_size r)) as ->.
    { unfold wrap. apply Zplus_mod_idemp_l. }
    rewrite IH. f_equal. lia.
Qed.

Lemma sum_permutation (l1 l2 : list Z) :
  Permutation l1 l2 -> fold_right Z.add 0 l1 = fold_right Z.add 0 l2.
Proof.
  induction 1; cbn [fold_right]; lia.
Qed.

Lemma built_leaks_fields (mem : Memory) (leaked : list Range)
    (built : list Leak) :
  Forall2 (fun r leak => make_leak mem r = Some leak) leaked built ->
  Forall2 (fun r leak => leak_begin leak = range_begin r
                         /\ leak_size leak = range_size r) leaked built.
Proof.
  intro HF. eapply Forall2_impl; [| exact HF].
  intros r leak H. destruct (make_leak_Some _ _ _ H) as (Hb & Hs & _). auto.
Qed.

Lemma fields_sizes (rs : list Range) (ls : list Leak) :
  Forall2 (fun r leak => leak_begin leak = range_begin r
                         /\ leak_size leak = range_size r) rs ls ->
  map leak_size ls = map range_size rs.
Proof.
  induction 1 as [| r l rs ls (_ & E) _ IH]; cbn [map]; congruence.
Qed.

End LargestFirst.

(** C7. The leak records returned by
    [MemUnreachable::GetUnreachableMemory] are the first [limit] of the
    regions the sweep found unreferenced, arranged in order of decreasing
    size with ties in order of ascending begin: at most [limit] records,
    in that order, none smaller than a region left out.  So for a
    well-formed index whose unreachable allocations have the sizes 10, 20,
    30, 40 and 50, wherever they lie, a collection with limit 3 that
    returns gives three records of sizes 50, 40, 30 and reports 5 leaks of
    150 bytes; scenario S5 is such a collection. *)
Theorem GetUnreachableMemory_sorted_and_truncated :
  (forall (mem : Memory) (u : MemUnreachable) (leaks0 : list Leak)
          (limit : Z),
      exists sorted : list Range,
        Permutation sorted
          (unreferenced_ranges (DetectLeaks mem (heap_walker_ u)))
        /\ StronglySorted range_before sorted
        /\ match MemUnreachable_GetUnreachableMemory mem u leaks0 limit with
           | Returned (_, _, leaks, _, _) =>
               Forall2 (fun r leak => leak_begin leak = range_begin r
                                      /\ leak_size leak = range_size r)
                       (firstn (Z.to_nat limit) sorted) leaks
               /\ (List.length leaks <= Z.to_nat limit)%nat
               /\ StronglySorted leak_order leaks
           | Fault => exists r, In r sorted /\ make_leak mem r = None
           end)
  /\ (forall (mem : Memory) (u : MemUnreachable) (leaks0 : list Leak)
             (all : list Range),
         index_ok (heap_walker_ u) ->
         NoDup all ->
         (forall r, In r all <-> unreachable mem (heap_walker_ u) r) ->
         Permutation (map range_size all) [10; 20; 30; 40; 50] ->
         match MemUnreachable_GetUnreachableMemory mem u leaks0 3 with
         | Returned (ok, _, leaks, n, b) =>
             ok = true
             /\ map leak_size leaks = [50; 40; 30]
             /\ List.length leaks = 3%nat
             /\ n = 5
             /\ b = 150
         | Fault => exists r, In r all /\ make_leak mem r = None
         end)
  /\ (let '(ok, info, _) :=
        GetUnreachableMemory S5_env UnreachableMemoryInfo_new 3 in
      ok = true
      /\ map leak_size (leaks info) = [50; 40; 30]
      /\ List.length (leaks info) = 3%nat
      /\ num_leaks info = 5
      /\ leak_bytes info = 150).
Proof.
  split; [| split].
  - intros mem u leaks0 limit.
    exists (sort_leaks (unreferenced_ranges (DetectLeaks mem (heap_walker_ u)))).
    split; [apply Permutation_sym, sort_leaks_perm |].
    split; [apply sort_leaks_sorted |].
    rewrite MemUnreachable_GetUnreachableMemory_unfold. cbv zeta.
    destruct (Leaked_emitted mem (heap_walker_ u) limit) as (Hs & Hlen & _).
    cbv zeta in Hs, Hlen.
    unfold Leaked in Hs, Hlen |- *. cbv zeta in Hs, Hlen |- *.
    cbn [fst snd] in Hs, Hlen |- *.
    destruct (make_leaks mem _ []) as [built |] eqn:E.
    + destruct (make_leaks_Returned _ _ _ _ E) as (built' & -> & HF).
      cbn [app]. split; [| split].
      * apply built_leaks_fields with (mem := mem). exact HF.
      * apply Forall2_length in HF. rewrite <- HF, Hlen. apply Nat.le_min_l.
      * eapply built_leaks_sorted; eauto.
    + destruct (make_leaks_Fault _ _ _ E) as (r & Hr & Hnone).
      exists r. split; [| exact Hnone].
      apply In_firstn in Hr. exact Hr.
  - intros mem u leaks0 all Hw Hnd Hall Hsizes.
    destruct (unreferenced_ranges_unreachable mem (heap_walker_ u) Hw)
      as [Hnd' Hin'].
    set (leaked := unreferenced_ranges (DetectLeaks mem (heap_walker_ u)))
      in *.
    assert (Permutation leaked all) as HP.
    { apply NoDup_Permutation; auto. intro r. rewrite Hin', Hall. tauto. }
    assert (map range_size (sort_leaks leaked) = [50; 40; 30; 20; 10]) as Hsorted.
    { apply sorted_permutation_unique.
      - apply sorted_sizes, sort_leaks_sorted.
      - repeat constructor; lia.
      - transitivity (map range_size leaked);
          [apply Permutation_map, Permutation_sym, sort_leaks_perm |].
        transitivity (map range_size all); [apply Permutation_map; exact HP |].
        transitivity [10; 20; 30; 40; 50]; [exact Hsizes |].
        apply Permutation_rev with (l := [10; 20; 30; 40; 50]). }
    assert (List.length leaked = 5%nat) as Hlen5.
    { rewrite <- (sort_leaks_length leaked), <- (length_map range_size),
        Hsorted. reflexivity. }
    assert (sum_sizes leaked = 150) as Hsum.
    { unfold sum_sizes. change 0 with (wrap 0) at 1.
      rewrite sum_sizes_mod.
      rewrite (sum_permutation _ [10; 20; 30; 40; 50]);
        [reflexivity |].
      transitivity (map range_size all); [apply Permutation_map; exact HP |].
      exact Hsizes. }
    rewrite MemUnreachable_GetUnreachableMemory_unfold. cbv zeta.
    fold leaked. unfold Leaked. cbv zeta. cbn [fst snd]. fold leaked.
    destruct (make_leaks mem _ []) as [built |] eqn:E.
    + destruct (make_leaks_Returned _ _ _ _ E) as (built' & -> & HF).
      cbn [app].
      pose proof (fields_sizes _ _ (built_leaks_fields _ _ _ HF)) as Hf.
      rewrite <- firstn_map, Hsorted in Hf. cbn [Z.to_nat firstn] in Hf.
      change (Pos.to_nat 3) with 3%nat in Hf. cbn [firstn] in Hf.
      repeat split.
      * exact Hf.
      * rewrite <- (length_map leak_size), Hf. reflexivity.
      * rewrite Hlen5. reflexivity.
      * exact Hsum.
    + destruct (make_leaks_Fault _ _ _ E) as (r & Hr & Hnone).
      exists r. split; [| exact Hnone].
      apply In_firstn in Hr.
      apply Hall. apply Hin'.
      eapply Permutation_in; [| exact Hr].
      apply Permutation_sym, sort_leaks_perm.
  - vm_compute. repeat split.
Qed.

(** C7, at the collection of scenario S5: the five allocations of the
    index, of 10 to 50 bytes, are the unreachable ones. *)
Lemma GetUnreachableMemory_sorted_and_truncated_witness :
  let u := child_unreachable S5_env S5_threads S5_mappings in
  let all := [mkRange 4096 4106; mkRange 4352 4372; mkRange 4608 4638;
              mkRange 4864 4904; mkRange 5120 5170] in
  index_ok (heap_walker_ u)
  /\ NoDup all
  /\ (forall r, In r all <-> unreachable S5_memory (heap_walker_ u) r)
  /\ Permutation (map range_size all) [10; 20; 30; 40; 50]
  /\ match MemUnreachable_GetUnreachableMemory S5_memory u [] 3 with
     | Returned (ok, _, leaks, n, b) =>
         ok = true
         /\ map leak_size leaks = [50; 40; 30]
         /\ List.length leaks = 3%nat
         /\ n = 5
         /\ b = 150
     | Fault => exists r, In r all /\ make_leak S5_memory r = None
     end.
Proof.
  cbv zeta.
  assert (index_ok (heap_walker_
                      (child_unreachable S5_env S5_threads S5_mappings))) as H.
  { unfold index_ok. vm_compute. intuition discriminate. }
  destruct (unreferenced_ranges_unreachable S5_memory _ H) as [Hnd Hin].
  assert (unreferenced_ranges
            (DetectLeaks S5_memory
               (heap_walker_
                  (child_unreachable S5_env S5_threads S5_mappings)))
          = [mkRange 4096 4106; mkRange 4352 4372; mkRange 4608 4638;
             mkRange 4864 4904; mkRange 5120 5170]) as E
    by (vm_compute; reflexivity).
  rewrite E in Hnd, Hin.
  assert (Permutation
            (map range_size
               [mkRange 4096 4106; mkRange 4352 4372; mkRange 4608 4638;
                mkRange 4864 4904; mkRange 5120 5170])
            [10; 20; 30; 40; 50]) as HP
    by (vm_compute; apply Permutation_refl).
  split; [exact H |]. split; [exact Hnd |]. split; [exact Hin |].
  split; [exact HP |].
  destruct GetUnreachableMemory_sorted_and_truncated as (_ & T & _).
  exact (T S5_memory (child_unreachable S5_env S5_threads S5_mappings) []
           _ H Hnd Hin HP).
Defined.

(** C8, as amended. Every leak record returned by
    [MemUnreachable::GetUnreachableMemory] holds the min(size,
    contents_length) bytes found at its begin address, followed by zeros up
    to contents_length.  The copy is a plain [memcpy]: when the call does
    not return, one of those bytes of an emitted region was unreadable and
    the process took a fault. *)
Theorem leak_contents_copied_or_fault :
  forall (mem : Memory) (u : MemUnreachable) (leaks0 : list Leak) (limit : Z),
    match MemUnreachable_GetUnreachableMemory mem u leaks0 limit with
    | Returned (_, _, leaks, _, _) => Forall (contents_copied mem) leaks
    | Fault =>
        exists r i,
          In r (unreferenced_ranges (DetectLeaks mem (heap_walker_ u)))
          /\ 0 <= i < Z.min (range_size r) contents_length
          /\ mem (range_begin r + i) = None
    end.
Proof.
  intros mem u leaks0 limit.
  rewrite MemUnreachable_GetUnreachableMemory_unfold. cbv zeta.
  destruct (Leaked_emitted mem (heap_walker_ u) limit) as (_ & _ & Hin).
  cbv zeta in Hin.
  destruct (make_leaks mem _ []) as [built |] eqn:E.
  - destruct (make_leaks_Returned _ _ _ _ E) as (built' & -> & HF).
    cbn [app]. clear E Hin.
    induction HF as [| r leak l l' Hr HF IH]; constructor; auto.
    now destruct (make_leak_Some _ _ _ Hr) as (_ & _ & Hc).
  - destruct (make_leaks_Fault _ _ _ E) as (r & Hr & Hnone).
    destruct (make_leak_None _ _ Hnone) as (i & Hi & Hm).
    exists r, i. auto.
Qed.

(** C8, the claim as stated fails: with the heap of S5 unreadable from
    address 4100 on, the record asked for by the specification for the
    region [4096, 4106) has the four readable bytes and zeros after them,
    but the code builds no record and the heap walker process is killed. *)
Lemma unreadable_contents_fault_instead_of_zero_fill :
  make_leak torn_memory (mkRange 4096 4106) = None
  /\ make_leak torn_memory (mkRange 4096 4106)
     <> Some (safe_leak torn_memory (mkRange 4096 4106))
  /\ leak_contents (safe_leak torn_memory (mkRange 4096 4106))
     = [1; 2; 3; 4] ++ repeat 0 28
  /\ fst (heap_walker_process (with_memory S5_env torn_memory)
            S5_threads S5_mappings 3) = Killed.
Proof.
  split; [reflexivity |]. split; [discriminate |].
  split; vm_compute; reflexivity.
Qed.

(* ================================================================== *)
(** * The heap walker process and the collection thread                *)
(* ================================================================== *)

Section Child.

Lemma CollectAllocations_succeeds (env : Environment) (u : MemUnreachable)
    (threads : list ThreadInfo) (mappings : list Mapping) :
  fst (CollectAllocations env u threads mappings) = true.
Proof.
  unfold CollectAllocations.
  destruct (ClassifyMappings_anon mappings mappings mappings mappings mappings)
    as (Hok & _).
  destruct (ClassifyMappings mappings mappings mappings mappings mappings)
    as [classified c].
  cbn [fst] in Hok. subst classified. reflexivity.
Qed.

(** The five guarded sends deliver the first [quota] of the six messages
    and succeed when all six are delivered. *)
Lemma sends_deliver (q : nat) (v : UnreachableMemoryInfo) :
  let st := (true, mkSender [] q) in
  let st := and_send st (fun s => SendValue s (num_allocations v)) in
  let st := and_send st (fun s => SendValue s (allocation_bytes v)) in
  let st := and_send st (fun s => SendValue s (num_leaks v)) in
  let st := and_send st (fun s => SendValue s (leak_bytes v)) in
  let st := and_send st (fun s => SendVector s (leaks v)) in
  fst st = (messages_of_run <=? q)%nat
  /\ delivered (snd st) = firstn q (messages_for v).
Proof.
  do 6 (destruct q as [| q]; [split; reflexivity |]).
  split; [reflexivity |].
  unfold messages_for. cbn [firstn]. destruct q; reflexivity.
Qed.

(** How the child ends and what it delivers, step by step. *)
Lemma heap_walker_process_run (env : Environment)
    (thread_info : list ThreadInfo) (mappings : list Mapping) (limit : Z) :
  let u := child_unreachable env thread_info mappings in
  heap_walker_process env thread_info mappings limit
  = if negb (open_sender_ok env) then (Exited 1, [])
    else
      match MemUnreachable_GetUnreachableMemory (memory env) u [] limit with
      | Fault => (Killed, [])
      | Returned (ok, _, leaks, num_leaks, leak_bytes) =>
          let v := mkInfo leaks num_leaks leak_bytes
                          (Allocations u) (AllocationBytes u) in
          if ok && (messages_of_run <=? sender_quota env)%nat
          then (Exited 0, firstn (sender_quota env) (messages_for v))
          else (Exited 3,
                if ok then firstn (sender_quota env) (messages_for v) else [])
      end.
Proof.
  cbv zeta. unfold heap_walker_process, child_unreachable.
  destruct (open_sender_ok env); [| reflexivity]. cbn [negb].
  pose proof (CollectAllocations_succeeds env
                (mkMemUnreachable (parent_pid env) HeapWalker_new)
                thread_info mappings) as Hc.
  destruct (CollectAllocations env _ thread_info mappings) as [collected u].
  cbn [fst snd] in Hc |- *. subst collected. cbn [negb].
  destruct (MemUnreachable_GetUnreachableMemory (memory env) u [] limit)
    as [[[[[ok u'] lk] nl] lb] |]; [| reflexivity].
  destruct ok.
  - pose proof (sends_deliver (sender_quota env)
                  (mkInfo lk nl lb (Allocations u) (AllocationBytes u))) as H.
    cbv zeta in H. cbn [leaks num_leaks leak_bytes num_allocations
                        allocation_bytes] in H.
    destruct H as [H1 H2]. rewrite H1, H2. cbn [andb].
    destruct (messages_of_run <=? sender_quota env)%nat; reflexivity.
  - reflexivity.
Qed.

End Child.

(** C1, as amended. The forked heap walker process exits with status 1
    when opening the pipe sender fails, with status 2 when collecting the
    allocations fails, with status 3 when the sweep or one of the sends
    fails, and with status 0 when all of these succeed; it has no other
    exit status (a fault during the copy of leak contents kills it without
    one).  Failure of thread capture, of the mappings snapshot or of fork
    makes the collection thread return 1 and leaves no child; otherwise
    the thread returns 0. *)
Theorem heap_walker_process_exit_status :
  forall (env : Environment) (thread_info : list ThreadInfo)
         (mappings : list Mapping) (limit : Z),
    let u0 := mkMemUnreachable (parent_pid env) HeapWalker_new in
    let collected := fst (CollectAllocations env u0 thread_info mappings) in
    let u := snd (CollectAllocations env u0 thread_info mappings) in
    (fst (heap_walker_process env thread_info mappings limit)
     = if negb (open_sender_ok env) then Exited 1
       else if negb collected then Exited 2
       else
         match MemUnreachable_GetUnreachableMemory (memory env) u [] limit with
         | Fault => Killed
         | Returned (swept, _, _, _, _) =>
             if swept && (messages_of_run <=? sender_quota env)%nat
             then Exited 0 else Exited 3
         end)
    /\ (let run := collection_thread env limit in
        let started :=
          capture_threads_ok env
          && match captured_thread_info env with Some _ => true | None => false end
          && match process_mappings env with Some _ => true | None => false end
          && (0 <=? fork_result env) in
        thread_ret run = (if started then 0 else 1)
        /\ (started = false <-> walker_process run = None)).
Proof.
  intros env thread_info mappings limit. cbv zeta. split.
  - rewrite heap_walker_process_run. cbv zeta.
    rewrite CollectAllocations_succeeds. unfold child_unreachable.
    destruct (open_sender_ok env); [| reflexivity]. cbn [negb].
    destruct (MemUnreachable_GetUnreachableMemory _ _ _ _)
      as [[[[[ok u'] lk] nl] lb] |]; [| reflexivity].
    destruct (ok && _); reflexivity.
  - unfold collection_thread.
    destruct (capture_threads_ok env); cbn [negb andb];
      [| split; [reflexivity | split; reflexivity]].
    destruct (captured_thread_info env) as [ti |]; cbn [andb];
      [| split; [reflexivity | split; reflexivity]].
    destruct (process_mappings env) as [ms |]; cbn [andb];
      [| split; [reflexivity | split; reflexivity]].
    rewrite Z.leb_antisym.
    destruct (fork_result env <? 0); cbn [negb thread_ret walker_process].
    + split; [reflexivity | split; reflexivity].
    + split; [reflexivity | split; discriminate].
Qed.

(** C1, the claim as stated fails: when the pipe sender cannot be opened,
    which the table counts as a pipe failure with status 3, the child exits
    with status 1. *)
Lemma open_sender_failure_exits_with_1 :
  let env := with_sender S5_env false messages_of_run in
  child_failure env S5_threads S5_mappings = PipeFailure
  /\ table_status (child_failure env S5_threads S5_mappings) = 3
  /\ fst (heap_walker_process env S5_threads S5_mappings 3) = Exited 1
  /\ fst (heap_walker_process env S5_threads S5_mappings 3)
     <> Exited (table_status (child_failure env S5_threads S5_mappings)).
Proof.
  cbv zeta. repeat split; try reflexivity. vm_compute. discriminate.
Qed.

(* ================================================================== *)
(** * The original thread                                              *)
(* ================================================================== *)

Section Parent.

(** The result of the wait does not enter the computation. *)
Lemma original_thread_ignores_wait (env : Environment) (w1 w2 : bool)
    (ret : Z) (receiver_ok : bool)
    (stream : list Message) (info : UnreachableMemoryInfo) :
  original_thread env w1 ret receiver_ok stream info
  = original_thread env w2 ret receiver_ok stream info.
Proof. reflexivity. Qed.

Ltac next_message stream :=
  destruct stream as [| [? | ?] stream];
  cbn [and_receive and_receive_vector Receive ReceiveVector negb].

(** When the call succeeds, the stream began with four values and a
    vector, and every field was stored from them in that order. *)
Lemma original_thread_success (env : Environment) (w : bool) (ret : Z)
    (receiver_ok : bool)
    (stream : list Message) (info info' : UnreachableMemoryInfo)
    (log : list LogLine) :
  original_thread env w ret receiver_ok stream info = (true, info', log) ->
  ret = 0 /\ receiver_ok = true
  /\ exists len rest,
       stream = [MsgValue (num_allocations info');
                 MsgValue (allocation_bytes info');
                 MsgValue (num_leaks info'); MsgValue (leak_bytes info');
                 MsgValue len; MsgElements (leaks info')] ++ rest.
Proof.
  unfold original_thread.
  destruct (ret =? 0) eqn:Eret; cbn [negb]; [| discriminate].
  apply Z.eqb_eq in Eret.
  destruct receiver_ok; cbn [negb]; [| discriminate].
  do 5 (next_message stream; try discriminate).
  destruct stream as [| [? | l] stream]; try discriminate.
  destruct (Z.of_nat (List.length l) =? v3) eqn:El; try discriminate.
  cbn [negb].
  intro H. injection H as <- _.
  repeat split; auto.
  exists v3, stream. reflexivity.
Qed.

(** The call succeeds exactly when the collection thread returned 0, the
    receiver was opened and the stream is complete. *)
Lemma original_thread_result (env : Environment) (w : bool) (ret : Z)
    (receiver_ok : bool)
    (stream : list Message) (info : UnreachableMemoryInfo) :
  fst (fst (original_thread env w ret receiver_ok stream info))
  = (ret =? 0) && receiver_ok && complete_stream stream.
Proof.
  unfold original_thread.
  destruct (ret =? 0); cbn [negb andb]; [| reflexivity].
  destruct receiver_ok; cbn [negb andb]; [| reflexivity].
  do 5 (next_message stream; try reflexivity).
  destruct stream as [| [? | l] stream]; try reflexivity.
  cbn [complete_stream].
  destruct (Z.of_nat (List.length l) =? v3); reflexivity.
Qed.

(** When the call fails after the receiver was opened, the header fields
    received before the failing receive hold the values received, the
    target of the failing receive holds what the failed receive left
    there, and the fields after it are as they were. *)
Lemma original_thread_failure (env : Environment) (w : bool) (ret : Z)
    (receiver_ok : bool)
    (stream : list Message) (info info' : UnreachableMemoryInfo)
    (log : list LogLine) :
  original_thread env w ret receiver_ok stream info = (false, info', log) ->
  (ret <> 0 \/ receiver_ok = false -> info' = info)
  /\ (ret = 0 -> receiver_ok = true ->
      exists vals rest,
        stream = map MsgValue vals ++ rest
        /\ (List.length vals <= 4)%nat
        /\ firstn (List.length vals) (header_values info') = vals
        /\ skipn (S (List.length vals)) (header_values info')
           = skipn (S (List.length vals)) (header_values info)
        /\ ((List.length vals < 4)%nat ->
            fst (Receive rest) = None
            /\ nth (List.length vals) (header_values info') 0
               = failed_receive env
                   (nth (List.length vals) (header_values info) 0) rest
            /\ leaks info' = leaks info)
        /\ (List.length vals = 4%nat ->
            fst (ReceiveVector rest) = None
            /\ leaks info'
               = failed_receive_vector env (leaks info) rest)).
Proof.
  unfold original_thread.
  destruct (ret =? 0) eqn:Eret; cbn [negb].
  2: { apply Z.eqb_neq in Eret. intro H. injection H as <- _.
       split; [reflexivity | contradiction]. }
  apply Z.eqb_eq in Eret.
  destruct receiver_ok; cbn [negb].
  2: { intro H. injection H as <- _.
       split; [reflexivity | discriminate]. }
  assert (forall P : Prop, ret <> 0 \/ true = false -> P) as Hno
    by (intros P [C | C]; [contradiction | discriminate]).
  destruct info as [l nl lb na ab].
  next_message stream.
  1, 3: intro H; injection H as <- _; split; [apply Hno | intros _ _];
        eexists [], _; cbn; repeat split; try reflexivity; lia.
  next_message stream.
  1, 3: intro H; injection H as <- _; split; [apply Hno | intros _ _];
        eexists [_], _; cbn; repeat split; try reflexivity; lia.
  next_message stream.
  1, 3: intro H; injection H as <- _; split; [apply Hno | intros _ _];
        eexists [_; _], _; cbn; repeat split; try reflexivity; lia.
  next_message stream.
  1, 3: intro H; injection H as <- _; split; [apply Hno | intros _ _];
        eexists [_; _; _], _; cbn; repeat split; try reflexivity; lia.
  next_message stream.
  1, 3: intro H; injection H as <- _; split; [apply Hno | intros _ _];
        eexists [_; _; _; _], _; cbn; repeat split; try reflexivity; lia.
  destruct stream as [| [? | l'] stream].
  1, 2: intro H; injection H as <- _; split; [apply Hno | intros _ _];
        eexists [_; _; _; _], _; cbn; repeat split; try reflexivity; lia.
  destruct (Z.of_nat (List.length l') =? v3) eqn:El; cbn [negb];
    [discriminate |].
  intro H; injection H as <- _; split; [apply Hno | intros _ _].
  eexists [_; _; _; _], _. split; [reflexivity |].
  cbn. rewrite El. repeat split; try reflexivity; lia.
Qed.

End Parent.

Section Protocol.

(** The deadline of the wait plays no part in what the collection thread
    and the child do. *)
Lemma collection_thread_with_deadline (env : Environment) (met : bool)
    (limit : Z) :
  collection_thread (with_deadline env met) limit = collection_thread env limit.
Proof. reflexivity. Qed.

(** A collection thread that returned 0 forked a child. *)
Lemma collection_thread_returned_0 (env : Environment) (limit : Z) :
  thread_ret (collection_thread env limit) = 0 ->
  exists thread_info mappings,
    captured_thread_info env = Some thread_info
    /\ process_mappings env = Some mappings
    /\ pipe_stream (collection_thread env limit)
       = snd (heap_walker_process env thread_info mappings limit).
Proof.
  unfold collection_thread, pipe_stream.
  destruct (capture_threads_ok env); cbn [negb]; [| discriminate].
  destruct (captured_thread_info env) as [ti |]; [| discriminate].
  destruct (process_mappings env) as [ms |]; [| discriminate].
  destruct (fork_result env <? 0); [discriminate |].
  intros _. exists ti, ms. cbn [walker_process].
  destruct (heap_walker_process env ti ms limit). auto.
Qed.

End Protocol.

(** C2, as amended. Whenever [GetUnreachableMemory] returns failure: when
    the collection thread returned non-zero or the receiver could not be
    opened, the caller's [info] is unchanged; otherwise the pipe held the
    values [vals] (at most four) followed by [rest] on which the next
    receive fails, the header fields of [info] received before the failing
    receive hold [vals], in the order num_allocations, allocation_bytes,
    num_leaks, leak_bytes, the target of the failing receive holds what the
    failed receive left in it, and the fields after it, the leaks included
    when a header receive fails, are unchanged. *)
Theorem GetUnreachableMemory_failure_keeps_received_prefix :
  forall (env : Environment) (info info' : UnreachableMemoryInfo)
         (limit : Z) (log : list LogLine),
    GetUnreachableMemory env info limit = (false, info', log) ->
    let run := collection_thread env limit in
    (thread_ret run <> 0 \/ open_receiver_ok env = false -> info' = info)
    /\ (thread_ret run = 0 -> open_receiver_ok env = true ->
        exists vals rest,
          pipe_stream run = map MsgValue vals ++ rest
          /\ (List.length vals <= 4)%nat
          /\ firstn (List.length vals) (header_values info') = vals
          /\ skipn (S (List.length vals)) (header_values info')
             = skipn (S (List.length vals)) (header_values info)
          /\ ((List.length vals < 4)%nat ->
              fst (Receive rest) = None
              /\ nth (List.length vals) (header_values info') 0
                 = failed_receive env
                     (nth (List.length vals) (header_values info) 0) rest
              /\ leaks info' = leaks info)
          /\ (List.length vals = 4%nat ->
              fst (ReceiveVector rest) = None
              /\ leaks info'
                 = failed_receive_vector env (leaks info) rest)).
Proof.
  intros env info info' limit log H. cbv zeta.
  unfold GetUnreachableMemory in H. cbv zeta in H.
  exact (original_thread_failure _ _ _ _ _ _ _ _ H).
Qed.

(** C2, at scenario S5 when the pipe takes two messages only: the call
    fails at the third receive, after num_allocations and allocation_bytes
    have been stored. *)
Lemma GetUnreachableMemory_failure_keeps_received_prefix_witness :
  let env := with_sender S5_env true 2 in
  let info' := mkInfo [] 91 92 5 150 in
  GetUnreachableMemory env stale_info 3 = (false, info', [])
  /\ thread_ret (collection_thread env 3) = 0
  /\ open_receiver_ok env = true
  /\ exists vals rest,
       pipe_stream (collection_thread env 3) = map MsgValue vals ++ rest
       /\ (List.length vals <= 4)%nat
       /\ firstn (List.length vals) (header_values info') = vals
       /\ skipn (S (List.length vals)) (header_values info')
          = skipn (S (List.length vals)) (header_values stale_info)
       /\ ((List.length vals < 4)%nat ->
           fst (Receive rest) = None
           /\ nth (List.length vals) (header_values info') 0
              = failed_receive env
                  (nth (List.length vals) (header_values stale_info) 0) rest
           /\ leaks info' = leaks stale_info)
       /\ (List.length vals = 4%nat ->
           fst (ReceiveVector rest) = None
           /\ leaks info'
              = failed_receive_vector env (leaks stale_info) rest).
Proof.
  cbv zeta.
  assert (GetUnreachableMemory (with_sender S5_env true 2) stale_info 3
          = (false, mkInfo [] 91 92 5 150, [])) as H
    by (vm_compute; reflexivity).
  assert (thread_ret (collection_thread (with_sender S5_env true 2) 3) = 0)
    as Hret by (vm_compute; reflexivity).
  assert (open_receiver_ok (with_sender S5_env true 2) = true) as Hopen
    by reflexivity.
  split; [exact H |]. split; [exact Hret |]. split; [exact Hopen |].
  pose proof (GetUnreachableMemory_failure_keeps_received_prefix
                (with_sender S5_env true 2) stale_info
                (mkInfo [] 91 92 5 150) 3 [] H) as T.
  cbv zeta in T. destruct T as [_ T]. exact (T Hret Hopen).
Defined.

(** C2, the claim as stated fails: in scenario S5 with a pipe that takes
    two messages only, the call returns failure and the caller's [info] has
    been overwritten in its first two header fields. *)
Lemma failure_returns_partial_results :
  let '(ok, info, _) :=
    GetUnreachableMemory (with_sender S5_env true 2) stale_info 3 in
  ok = false
  /\ info <> stale_info
  /\ num_allocations stale_info = 93 /\ num_allocations info = 5
  /\ allocation_bytes stale_info = 94 /\ allocation_bytes info = 150.
Proof.
  vm_compute. repeat split; discriminate.
Qed.

(** C5, as amended. The result of the bounded wait is not examined: after
    a timeout the original thread goes on as after a successful wait, and
    [GetUnreachableMemory] reports failure exactly when the collection
    thread returned non-zero, the receiver could not be opened or the
    results on the pipe are incomplete. *)
Theorem semaphore_timeout_is_not_examined :
  forall (env : Environment) (info : UnreachableMemoryInfo) (limit : Z),
    let run := collection_thread env limit in
    GetUnreachableMemory (with_deadline env false) info limit
    = GetUnreachableMemory (with_deadline env true) info limit
    /\ fst (fst (GetUnreachableMemory (with_deadline env false) info limit))
       = (thread_ret run =? 0) && open_receiver_ok env
         && complete_stream (pipe_stream run).
Proof.
  intros env info limit. cbv zeta. split.
  - unfold GetUnreachableMemory. cbv zeta.
    rewrite !collection_thread_with_deadline. reflexivity.
  - unfold GetUnreachableMemory. cbv zeta.
    rewrite collection_thread_with_deadline.
    apply original_thread_result.
Qed.

(** C5, the claim as stated fails: in scenario S5 with the semaphore
    posted after the deadline, the wait times out and the collection is
    reported as a success. *)
Lemma timeout_then_success :
  let env := with_deadline S5_env false in
  posted (collection_thread env 3) && post_within_deadline env = false
  /\ fst (fst (GetUnreachableMemory env UnreachableMemoryInfo_new 3)) = true.
Proof.
  cbv zeta. split; vm_compute; reflexivity.
Qed.

(** C6. The child sends num_allocations, allocation_bytes, num_leaks,
    leak_bytes and then the leak vector, and the original thread receives
    into the fields of [info] in the same order: when
    [GetUnreachableMemory] succeeds, the pipe held exactly these messages
    and every field of the returned [info] is the value computed in the
    child. *)
Theorem results_arrive_field_by_field :
  forall (env : Environment) (info info' : UnreachableMemoryInfo)
         (limit : Z) (log : list LogLine),
    GetUnreachableMemory env info limit = (true, info', log) ->
    child_values env limit = Some info'
    /\ pipe_stream (collection_thread env limit) = messages_for info'.
Proof.
  intros env info info' limit log H.
  unfold GetUnreachableMemory in H. cbv zeta in H.
  destruct (original_thread_success _ _ _ _ _ _ _ _ H)
    as (Hret & _ & len & rest & Hs).
  destruct (collection_thread_returned_0 env limit Hret)
    as (ti & ms & Hti & Hms & Hp).
  rewrite Hp in Hs |- *.
  unfold child_values. rewrite Hti, Hms.
  rewrite heap_walker_process_run in Hs |- *. cbv zeta in Hs |- *.
  destruct (open_sender_ok env); cbn [negb] in Hs |- *; [| discriminate].
  destruct (MemUnreachable_GetUnreachableMemory _ _ _ _)
    as [[[[[ok u'] lk] nl] lb] |]; [| discriminate].
  destruct ok; cbn [andb snd] in Hs |- *; [| discriminate].
  destruct (messages_of_run <=? sender_quota env)%nat;
    cbn [snd] in Hs |- *;
    unfold messages_for in Hs |- *;
    cbn [leaks num_leaks leak_bytes num_allocations allocation_bytes]
      in Hs |- *;
    (destruct (sender_quota env) as [| [| [| [| [| [| q]]]]]];
     cbn [firstn app] in Hs |- *; try discriminate);
    injection Hs as H1 H2 H3 H4 H5 H6 H7;
    destruct info' as [l' nl' lb' na' ab'];
    cbn [leaks num_leaks leak_bytes num_allocations allocation_bytes] in *;
    subst; destruct q; split; reflexivity.
Qed.

(** C6, at scenario S5 with limit 3. *)
Lemma results_arrive_field_by_field_witness :
  fst (fst (GetUnreachableMemory S5_env stale_info 3)) = true
  /\ child_values S5_env 3
     = Some (snd (fst (GetUnreachableMemory S5_env stale_info 3)))
  /\ pipe_stream (collection_thread S5_env 3)
     = messages_for (snd (fst (GetUnreachableMemory S5_env stale_info 3))).
Proof.
  split; [vm_compute; reflexivity |].
  apply (results_arrive_field_by_field S5_env stale_info
           (snd (fst (GetUnreachableMemory S5_env stale_info 3))) 3
           (snd (GetUnreachableMemory S5_env stale_info 3))).
  vm_compute. reflexivity.
Defined.

(** C10. [LogUnreachableMemory] returns what the underlying
    [GetUnreachableMemory] returns; on success it logs every leak of the
    returned vector, each with its "unreachable allocation" line first, and
    it returns success also when leaks were found, as in scenario S5. *)
Theorem LogUnreachableMemory_reports_collection_result :
  (forall (env : Environment) (log_contents : bool) (limit : Z),
      let '(ok, info, log) :=
        GetUnreachableMemory env UnreachableMemoryInfo_new limit in
      LogUnreachableMemory env log_contents limit
      = (ok,
         if ok
         then log ++ flat_map (fun it => LogUnreachable it log_contents)
                              (leaks info)
         else log))
  /\ (forall (leak : Leak) (log_contents : bool),
         exists dump,
           LogUnreachable leak log_contents
           = ALOGE ("unreachable allocation at " ++ hex (leak_begin leak)
                    ++ " of approximate size " ++ dec (leak_size leak))%string
             :: dump)
  /\ (fst (LogUnreachableMemory S5_env false 3) = true
      /\ num_leaks (snd (fst (GetUnreachableMemory
                                S5_env UnreachableMemoryInfo_new 3))) = 5).
Proof.
  split; [| split].
  - intros env log_contents limit. unfold LogUnreachableMemory.
    destruct (GetUnreachableMemory env UnreachableMemoryInfo_new limit)
      as [[ok info] log].
    destruct ok; reflexivity.
  - intros leak log_contents. unfold LogUnreachable. eexists. reflexivity.
  - split; vm_compute; reflexivity.
Qed.

(* ================================================================== *)
(** * Worked scenarios                                                 *)
(* ================================================================== *)

(** The classifier on one mapping of every kind of the table: the data
    mapping of the library, the named .bss, the managed-runtime heap, the
    unnamed mapping and the named anonymous mapping are globals; the
    allocator's arena, the font file and the unreadable .bss are in no
    list. *)
Example ClassifyMappings_every_kind :
  let c := snd (ClassifyMappings table_mappings [] [] [] []) in
  map map_name (globals_mappings c)
  = ["/system/lib/libc.so"; "[anon:.bss]"; "/dev/ashmem/dalvik-main space";
     ""; "[anon:linker_alloc]"]
  /\ map map_name (heap_mappings c) = ["[anon:libc_malloc]"]
  /\ map map_name (stack_mappings c) = ["[stack:2]"]
  /\ anon_mappings c = [].
Proof. vm_compute. repeat split. Qed.

(** Marking follows an interior pointer held in a global and then a
    pointer held in the allocation so reached: of the five allocations of
    S5 the third and the fifth become referenced. *)
Example mark_follows_pointers :
  let w := heap_walker_ (child_unreachable S5_env S5_threads S5_mappings) in
  map referenced (allocations (DetectLeaks pointer_memory w))
  = [false; false; true; false; true]
  /\ snd (fst (fst (fst (Leaked pointer_memory w 10))))
     = DetectLeaks pointer_memory w
  /\ snd (fst (Leaked pointer_memory w 10)) = 3
  /\ snd (Leaked pointer_memory w 10) = 70.
Proof. vm_compute. repeat split. Qed.

(** The lines logged for one leak of 20 bytes whose contents are the
    letters A to T. *)
Example LogUnreachable_lines :
  LogUnreachable
    (mkLeak 4352 20
       (map Z.of_nat (seq 65 20) ++ repeat 0 12))
    true
  = [ALOGE "unreachable allocation at 1100 of approximate size 20";
     ALOGE ("1100: 41 42 43 44 45 46 47 48 49 4a 4b 4c 4d 4e 4f 50 "
            ++ "ABCDEFGHIJKLMNOP" ++ newline)%string;
     ALOGE ("1110: 51 52 53 54 "
            ++ "                                    "
            ++ "QRST" ++ newline)%string].
Proof. vm_compute. reflexivity. Qed.

(* ================================================================== *)
(** * The scheduling-policy helper: writing a thread id                *)
(* ================================================================== *)

Section Itoa.

Lemma digit_value_digit_char (d : Z) :
  0 <= d <= 9 -> digit_value (digit_char d) = d.
Proof.
  intro H. unfold digit_value, digit_char.
  rewrite N_ascii_embedding; lia.
Qed.

Lemma rem_quot_10 (tid : Z) :
  0 < tid ->
  0 <= Z.rem tid 10 <= 9
  /\ 0 <= Z.quot tid 10 < tid
  /\ Z.quot tid 10 * 10 + Z.rem tid 10 = tid.
Proof.
  intro H.
  rewrite Z.rem_mod_nonneg, Z.quot_div_nonneg by lia.
  pose proof (Z.mod_pos_bound tid 10 ltac:(lia)).
  pose proof (Z.div_mod tid 10 ltac:(lia)).
  pose proof (Z.div_lt tid 10 ltac:(lia) ltac:(lia)).
  pose proof (Z.div_pos tid 10 ltac:(lia) ltac:(lia)).
  lia.
Qed.

(** The digits written in front of [text] read back as [tid]. *)
Lemma itoa_loop_value (room : nat) :
  forall tid text,
    0 <= tid < 10 ^ Z.of_nat room ->
    decimal_from 0 (itoa_loop room tid text) = decimal_from tid text.
Proof.
  induction room as [| room IH]; intros tid text H; cbn [itoa_loop].
  - assert (tid = 0) as -> by (cbn in H; lia). reflexivity.
  - destruct (tid >? 0) eqn:E.
    + apply Z.gtb_lt in E.
      destruct (rem_quot_10 tid E) as (Hr & Hq & Hs).
      rewrite IH.
      * cbn [decimal_from]. rewrite digit_value_digit_char by lia.
        now rewrite Hs.
      * rewrite Nat2Z.inj_succ, Z.pow_succ_r in H by lia. lia.
    + assert (tid = 0) as -> by lia. reflexivity.
Qed.

Lemma itoa_loop_digits (room : nat) :
  forall tid text,
    all_digits text = true -> all_digits (itoa_loop room tid text) = true.
Proof.
  induction room as [| room IH]; intros tid text H; cbn [itoa_loop]; auto.
  destruct (tid >? 0) eqn:E; auto.
  apply Z.gtb_lt in E. destruct (rem_quot_10 tid E) as (Hr & _ & _).
  apply IH. cbn [all_digits]. rewrite H, andb_true_r.
  unfold is_digit. rewrite digit_value_digit_char by lia.
  apply andb_true_iff. split; apply Z.leb_le; lia.
Qed.

Lemma itoa_loop_leading (room : nat) :
  forall tid text,
    0 < tid < 10 ^ Z.of_nat room ->
    exists c rest,
      itoa_loop room tid text = String c rest /\ digit_value c <> 0.
Proof.
  induction room as [| room IH]; intros tid text H.
  - cbn in H. lia.
  - cbn [itoa_loop].
    assert ((tid >? 0) = true) as -> by (apply Z.gtb_lt; lia).
    destruct (rem_quot_10 tid ltac:(lia)) as (Hr & Hq & Hs).
    destruct (Z.eq_dec (Z.quot tid 10) 0) as [Hz | Hz].
    + rewrite Hz.
      exists (digit_char (Z.rem tid 10)), text. split.
      * destruct room; reflexivity.
      * rewrite digit_value_digit_char by lia. lia.
    + apply IH.
      rewrite Nat2Z.inj_succ, Z.pow_succ_r in H by lia. lia.
Qed.

Lemma itoa_loop_length (room : nat) :
  forall (digits : nat) tid text,
    0 <= tid < 10 ^ Z.of_nat digits ->
    (String.length (itoa_loop room tid text)
     <= String.length text + digits)%nat.
Proof.
  induction room as [| room IH]; intros digits tid text H; cbn [itoa_loop].
  - lia.
  - destruct (tid >? 0) eqn:E; [| lia].
    apply Z.gtb_lt in E.
    destruct digits as [| digits]; [cbn in H; lia |].
    destruct (rem_quot_10 tid E) as (Hr & Hq & Hs).
    specialize (IH digits (Z.quot tid 10)
                   (String (digit_char (Z.rem tid 10)) text)).
    cbn [String.length] in IH.
    rewrite Nat2Z.inj_succ, Z.pow_succ_r in H by lia.
    assert (0 <= Z.quot tid 10 < 10 ^ Z.of_nat digits) as B by lia.
    specialize (IH B). lia.
Qed.

Lemma INT_MAX_digits : INT_MAX < 10 ^ Z.of_nat 10.
Proof. reflexivity. Qed.

End Itoa.

(** X1. For a thread id in 1 .. INT_MAX and a valid descriptor,
    [add_tid_to_cgroup] attempts exactly one write, of the decimal text of
    the id: the text reads back as the id, holds digits only, has no
    leading zero and at most ten characters, well inside [text[22]]. *)
Theorem add_tid_to_cgroup_writes_decimal :
  forall (k : Kernel) (s : SchedState) (tid fd : Z),
    0 < tid <= INT_MAX -> 0 <= fd ->
    snd (add_tid_to_cgroup k s tid fd) = [ActWrite fd (itoa tid)]
    /\ decimal_value (itoa tid) = tid
    /\ all_digits (itoa tid) = true
    /\ (exists c rest, itoa tid = String c rest /\ digit_value c <> 0)
    /\ (String.length (itoa tid) <= 10)%nat.
Proof.
  intros k s tid fd Htid Hfd.
  pose proof INT_MAX_digits as M.
  assert (0 <= tid < 10 ^ Z.of_nat 21) as B21.
  { split; [lia |].
    apply Z.lt_le_trans with (10 ^ Z.of_nat 10); [lia |].
    apply Z.pow_le_mono_r; lia. }
  split; [| split; [| split; [| split]]].
  - unfold add_tid_to_cgroup.
    assert ((fd <? 0) = false) as -> by (apply Z.ltb_ge; lia).
    cbv zeta.
    destruct (ret_value (k_write k fd (itoa tid)) <? 0); [| reflexivity].
    destruct (errno _ =? ESRCH); reflexivity.
  - unfold decimal_value, itoa. rewrite itoa_loop_value by exact B21.
    reflexivity.
  - apply itoa_loop_digits. reflexivity.
  - apply itoa_loop_leading. lia.
  - apply (itoa_loop_length 21 10 tid EmptyString). lia.
Qed.

(** X1, for thread 4242 and descriptor 8. *)
Lemma add_tid_to_cgroup_writes_decimal_witness :
  snd (add_tid_to_cgroup sample_kernel (SchedState_initial 0) 4242 8)
  = [ActWrite 8 (itoa 4242)]
  /\ decimal_value (itoa 4242) = 4242
  /\ all_digits (itoa 4242) = true
  /\ (exists c rest, itoa 4242 = String c rest /\ digit_value c <> 0)
  /\ (String.length (itoa 4242) <= 10)%nat.
Proof.
  apply add_tid_to_cgroup_writes_decimal; unfold INT_MAX; lia.
Defined.

(** X2. [add_tid_to_cgroup] returns 0 or -1.  It returns -1 exactly when
    the descriptor is negative or the write fails with an [errno] other
    than [ESRCH], and it then leaves [errno] at [EINVAL]; with a negative
    descriptor nothing is written; a write that fails with [ESRCH] counts
    as success and leaves [errno] at [ESRCH]. *)
Theorem add_tid_to_cgroup_result :
  forall (k : Kernel) (s : SchedState) (tid fd : Z),
    let '(ret, s', acts) := add_tid_to_cgroup k s tid fd in
    let w := k_write k fd (itoa tid) in
    (ret = 0 \/ ret = -1)
    /\ (ret = -1 <->
        fd < 0 \/ (ret_value w < 0 /\ ret_errno w <> ESRCH))
    /\ (ret = -1 -> errno s' = EINVAL)
    /\ (fd < 0 -> acts = [])
    /\ (0 <= fd -> ret_value w < 0 -> ret_errno w = ESRCH ->
        ret = 0 /\ errno s' = ESRCH).
Proof.
  intros k s tid fd. unfold add_tid_to_cgroup.
  destruct (fd <? 0) eqn:Efd.
  - apply Z.ltb_lt in Efd. cbv zeta. cbn [errno set_errno].
    intuition (try lia; try congruence).
  - apply Z.ltb_ge in Efd. cbv zeta. unfold after_call.
    destruct (ret_value (k_write k fd (itoa tid)) <? 0) eqn:Ew.
    + apply Z.ltb_lt in Ew. cbn [errno set_errno].
      destruct (ret_errno (k_write k fd (itoa tid)) =? ESRCH) eqn:Ee.
      * apply Z.eqb_eq in Ee. cbn [errno set_errno].
        intuition (try lia; try congruence).
      * apply Z.eqb_neq in Ee. cbn [errno set_errno].
        intuition (try lia; try congruence).
    + apply Z.ltb_ge in Ew.
      intuition (try lia; try congruence).
Qed.

(* ================================================================== *)
(** * The scheduling-policy helper: state and initialisation           *)
(* ================================================================== *)

Lemma set_errno_same (s : SchedState) : set_errno s (errno s) = s.
Proof. destruct s; reflexivity. Qed.

Lemma set_errno_twice (s : SchedState) (a b : Z) :
  set_errno (set_errno s a) b = set_errno s b.
Proof. reflexivity. Qed.

(** A system call changes [errno] at most. *)
Lemma after_call_errno (s : SchedState) (r : Ret) :
  after_call s r = set_errno s (errno (after_call s r)).
Proof.
  unfold after_call. destruct (ret_value r <? 0).
  - reflexivity.
  - symmetry. apply set_errno_same.
Qed.

Lemma after_call_ex (s : SchedState) (r : Ret) :
  exists e, after_call s r = set_errno s e.
Proof. eexists. apply after_call_errno. Qed.

(** Replaces every state reached by a system call by the state before the
    call with some [errno]. *)
Ltac forget_calls :=
  repeat match goal with
         | |- context [after_call ?a ?r] =>
             let e := fresh "e" in
             let H := fresh "H" in
             destruct (after_call_ex a r) as [e H]; rewrite H; clear H
         end.

(** [add_tid_to_cgroup] changes [errno] at most. *)
Lemma add_tid_to_cgroup_state (k : Kernel) (s : SchedState) (tid fd : Z) :
  let s' := snd (fst (add_tid_to_cgroup k s tid fd)) in
  s' = set_errno s (errno s').
Proof.
  unfold add_tid_to_cgroup.
  destruct (fd <? 0); [reflexivity |]. cbv zeta.
  rewrite (after_call_errno s (k_write k fd (itoa tid))).
  destruct (ret_value _ <? 0); [| reflexivity].
  destruct (errno _ =? ESRCH); reflexivity.
Qed.

(** A failed [add_tid_to_cgroup] returns -1 with [errno] at [EINVAL]. *)
Lemma add_tid_to_cgroup_failed (k : Kernel) (s : SchedState) (tid fd : Z) :
  fst (fst (add_tid_to_cgroup k s tid fd)) <> 0 ->
  fst (fst (add_tid_to_cgroup k s tid fd)) = -1
  /\ errno (snd (fst (add_tid_to_cgroup k s tid fd))) = EINVAL.
Proof.
  unfold add_tid_to_cgroup.
  destruct (fd <? 0); [intros _; split; reflexivity |]. cbv zeta.
  destruct (ret_value _ <? 0); [| intro C; now elim C].
  destruct (errno _ =? ESRCH); [intro C; now elim C |].
  intros _. split; reflexivity.
Qed.

Lemma add_tid_to_cgroup_actions (k : Kernel) (s : SchedState) (tid fd : Z) :
  snd (add_tid_to_cgroup k s tid fd)
  = if fd <? 0 then [] else [ActWrite fd (itoa tid)].
Proof.
  unfold add_tid_to_cgroup.
  destruct (fd <? 0); [reflexivity |]. cbv zeta.
  destruct (ret_value _ <? 0); [| reflexivity].
  destruct (errno _ =? ESRCH); reflexivity.
Qed.

(** [__initialize] touches [proc_name] and [errno] only. *)
Lemma once_initialize_fields (k : Kernel) (s : SchedState) :
  let s' := once_initialize k s in
  sched_once s' = sched_once s
  /\ cpuset_once s' = cpuset_once s
  /\ __sys_supports_schedgroups s' = __sys_supports_schedgroups s
  /\ __sys_supports_cpusets s' = __sys_supports_cpusets s
  /\ bg_cgroup_fd s' = bg_cgroup_fd s
  /\ fg_cgroup_fd s' = fg_cgroup_fd s
  /\ system_bg_cpuset_fd s' = system_bg_cpuset_fd s
  /\ bg_cpuset_fd s' = bg_cpuset_fd s
  /\ fg_cpuset_fd s' = fg_cpuset_fd s.
Proof.
  unfold once_initialize, __initialize.
  destruct (the_once s); [cbv zeta; repeat split |].
  cbv zeta.
  destruct (k_read k _ 254) as [bytes rr].
  destruct (_ >? 0); forget_calls; repeat split.
Qed.

(** After [__init_sched] the variables of the scheduling groups agree,
    provided the descriptors were -1 before. *)
Lemma __init_sched_consistent (k : Kernel) (s : SchedState) :
  fg_cgroup_fd s = -1 -> bg_cgroup_fd s = -1 ->
  let s' := __init_sched k s in
  sched_once s' = sched_once s
  /\ ((__sys_supports_schedgroups s' = 1
       /\ 0 <= fg_cgroup_fd s' /\ 0 <= bg_cgroup_fd s')
      \/ (__sys_supports_schedgroups s' = 0
          /\ fg_cgroup_fd s' = -1 /\ bg_cgroup_fd s' = -1)).
Proof.
  intros Hfg Hbg. unfold __init_sched.
  destruct (once_initialize_fields k s)
    as (H1 & _ & _ & _ & H5 & H6 & _).
  cbv zeta in H1, H5, H6 |- *.
  set (s0 := once_initialize k s) in *.
  destruct (ret_value (k_access k "/dev/cpuctl/tasks") =? 0).
  2: { forget_calls. cbn. rewrite H1, H5, H6. auto. }
  forget_calls.
  cbn [fg_cgroup_fd bg_cgroup_fd set_fg_cgroup_fd set_bg_cgroup_fd
       set_errno set_supports_schedgroups __sys_supports_schedgroups
       sched_once].
  destruct (ret_value (k_open k "/dev/cpuctl/tasks") <? 0) eqn:Efg;
    destruct (ret_value (k_open k "/dev/cpuctl/bg_non_interactive/tasks") <? 0)
      eqn:Ebg;
    cbn [fg_cgroup_fd bg_cgroup_fd set_fg_cgroup_fd set_bg_cgroup_fd
         set_errno set_supports_schedgroups __sys_supports_schedgroups
         sched_once Z.eqb];
    rewrite ?Efg, ?Ebg;
    cbn [fg_cgroup_fd bg_cgroup_fd set_fg_cgroup_fd set_bg_cgroup_fd
         set_errno set_supports_schedgroups __sys_supports_schedgroups
         sched_once Z.eqb];
    forget_calls;
    cbn [fg_cgroup_fd bg_cgroup_fd set_fg_cgroup_fd set_bg_cgroup_fd
         set_errno set_supports_schedgroups __sys_supports_schedgroups
         sched_once];
    apply Z.ltb_lt in Efg || apply Z.ltb_ge in Efg;
    apply Z.ltb_lt in Ebg || apply Z.ltb_ge in Ebg;
    (split; [exact H1 |]); auto.
Qed.

(** [pthread_once(&sched_once, __init_sched)] keeps the variables in
    agreement and leaves the routine run. *)
Lemma once_init_sched_consistent (k : Kernel) (s : SchedState) :
  schedgroups_consistent s ->
  schedgroups_consistent (once_init_sched k s)
  /\ sched_once (once_init_sched k s) = true.
Proof.
  unfold schedgroups_consistent, once_init_sched.
  destruct (sched_once s) eqn:E.
  - rewrite E. auto.
  - intros [Hfg Hbg].
    destruct (__init_sched_consistent k (set_sched_once s true) Hfg Hbg)
      as [Ho Hc].
    cbv zeta in Ho, Hc. cbn [sched_once set_sched_once] in Ho.
    rewrite Ho. auto.
Qed.

(** Once the routine has run, [pthread_once] does nothing. *)
Lemma once_init_sched_done (k : Kernel) (s : SchedState) :
  sched_once s = true -> once_init_sched k s = s.
Proof. unfold once_init_sched. now intros ->. Qed.


(* ================================================================== *)
(** * The scheduling-policy helper: set_sched_policy                   *)
(* ================================================================== *)

(** [set_sched_policy] once [pthread_once] has been taken: the two
    branches, with the state [s1] that initialisation leaves. *)
Lemma set_sched_policy_unfold (h : SchedPolicyHeader) (k : Kernel)
    (s : SchedState) (tid policy : Z) :
  let t := target_tid k tid in
  let p := _policy h policy in
  let s1 := once_init_sched k s in
  set_sched_policy h k s tid policy
  = if negb (__sys_supports_schedgroups s1 =? 0) && negb (p =? SP_REALTIME h)
    then
      let fd :=
        if p =? SP_BACKGROUND h then bg_cgroup_fd s1
        else if (p =? SP_FOREGROUND h) || (p =? SP_AUDIO_APP h)
                || (p =? SP_AUDIO_SYS h)
        then fg_cgroup_fd s1
        else -1 in
      let r := add_tid_to_cgroup k s1 t fd in
      if negb (fst (fst r) =? 0)
      then (- EINVAL, snd (fst r), snd r)
      else
        (0,
         after_call (snd (fst r))
                    (k_prctl k PR_SET_TIMERSLACK_PID (slack_of h p) t),
         snd r ++ [ActTimerSlack (slack_of h p) t])
    else
      let posix_policy :=
        if p =? SP_BACKGROUND h then SCHED_BATCH
        else if p =? SP_REALTIME h then SCHED_RR
        else SCHED_NORMAL in
      let priority :=
        if p =? SP_BACKGROUND h then 0
        else if p =? SP_REALTIME h then 1
        else 0 in
      (0,
       after_call
         (after_call s1 (k_sched_setscheduler k t posix_policy priority))
         (k_prctl k PR_SET_TIMERSLACK_PID (slack_of h p) t),
       [ActSetScheduler t posix_policy priority;
        ActTimerSlack (slack_of h p) t]).
Proof.
  cbv zeta. unfold set_sched_policy, target_tid, slack_of. cbv zeta.
  destruct (negb (__sys_supports_schedgroups (once_init_sched k s) =? 0)
            && negb (_policy h policy =? SP_REALTIME h)); [| reflexivity].
  match goal with
  | |- context [add_tid_to_cgroup ?k0 ?s0 ?t0 ?fd0] =>
      pose proof (add_tid_to_cgroup_failed k0 s0 t0 fd0) as F;
      destruct (add_tid_to_cgroup k0 s0 t0 fd0) as [[added s2] acts]
  end.
  cbn [fst snd] in F |- *.
  destruct (added =? 0) eqn:E; cbn [negb andb]; [reflexivity |].
  apply Z.eqb_neq in E. destruct (F E) as [_ ->]. reflexivity.
Qed.

(** X3. [set_sched_policy] returns 0 or [-EINVAL].  When it returns 0 its
    last action sets the timer slack of the target thread, to the
    background value exactly for the background policy, and no other action
    touches the timer slack; when it returns [-EINVAL], [errno] is [EINVAL]
    and the timer slack is not set.  The test on [ESRCH] and [ENOENT] made
    after a failed [add_tid_to_cgroup] never holds, because that function
    fails with [errno] at [EINVAL] only. *)
Theorem set_sched_policy_result :
  forall (h : SchedPolicyHeader) (k : Kernel) (s : SchedState)
         (tid policy : Z),
    let '(ret, s', acts) := set_sched_policy h k s tid policy in
    let slack :=
      ActTimerSlack (slack_of h (_policy h policy)) (target_tid k tid) in
    (ret = 0
     /\ exists before,
          acts = before ++ [slack]
          /\ forallb (fun a => negb (is_timer_slack a)) before = true)
    \/ (ret = - EINVAL
        /\ errno s' = EINVAL
        /\ forallb (fun a => negb (is_timer_slack a)) acts = true).
Proof.
  intros h k s tid policy.
  rewrite set_sched_policy_unfold. cbv zeta.
  destruct (negb _ && negb _).
  - match goal with
    | |- context [add_tid_to_cgroup ?k0 ?s0 ?t0 ?fd0] =>
        pose proof (add_tid_to_cgroup_failed k0 s0 t0 fd0) as F;
        pose proof (add_tid_to_cgroup_actions k0 s0 t0 fd0) as A;
        destruct (add_tid_to_cgroup k0 s0 t0 fd0) as [[added s2] acts]
    end.
    cbn [fst snd] in F, A |- *.
    assert (forallb (fun a => negb (is_timer_slack a)) acts = true) as W
      by (rewrite A; destruct (_ <? 0); reflexivity).
    destruct (added =? 0) eqn:E; cbn [negb].
    + left. split; [reflexivity |]. exists acts. auto.
    + right. apply Z.eqb_neq in E. destruct (F E) as [_ Herr]. auto.
  - left. split; [reflexivity |].
    eexists [_]. split; reflexivity.
Qed.

(** X4. With scheduling groups supported, a policy that has a group and is
    not the real-time policy makes [set_sched_policy] write the thread id
    to the task file of its group: the background file for the background
    policy, the foreground file for the foreground and the two audio
    policies.  The call returns 0 when the write succeeds or fails with
    [ESRCH], and [-EINVAL] when it fails with any other [errno], [ENOENT]
    included. *)
Theorem set_sched_policy_writes_group :
  forall (h : SchedPolicyHeader) (k : Kernel) (s : SchedState)
         (tid policy : Z),
    schedgroups_consistent s ->
    let s1 := once_init_sched k s in
    let p := _policy h policy in
    let t := target_tid k tid in
    __sys_supports_schedgroups s1 <> 0 ->
    has_schedgroup h p = true ->
    p <> SP_REALTIME h ->
    let fd := if p =? SP_BACKGROUND h then bg_cgroup_fd s1
              else fg_cgroup_fd s1 in
    let w := k_write k fd (itoa t) in
    let '(ret, _, acts) := set_sched_policy h k s tid policy in
    0 <= fd
    /\ filter is_write acts = [ActWrite fd (itoa t)]
    /\ ret = (if (ret_value w <? 0) && negb (ret_errno w =? ESRCH)
              then - EINVAL else 0).
Proof.
  intros h k s tid policy Hc. cbv zeta. intros Hs Hg Hrt.
  destruct (once_init_sched_consistent k s Hc) as [Hc1 Ho].
  unfold schedgroups_consistent in Hc1. rewrite Ho in Hc1.
  destruct Hc1 as [(_ & Hfg & Hbg) | (C & _)]; [| contradiction].
  rewrite set_sched_policy_unfold. cbv zeta.
  assert ((__sys_supports_schedgroups (once_init_sched k s) =? 0) = false)
    as -> by (now apply Z.eqb_neq).
  assert ((_policy h policy =? SP_REALTIME h) = false) as ->
    by (now apply Z.eqb_neq).
  cbn [negb andb].
  set (fd := if _policy h policy =? SP_BACKGROUND h
             then bg_cgroup_fd (once_init_sched k s)
             else fg_cgroup_fd (once_init_sched k s)).
  assert ((if _policy h policy =? SP_BACKGROUND h
           then bg_cgroup_fd (once_init_sched k s)
           else if (_policy h policy =? SP_FOREGROUND h)
                   || (_policy h policy =? SP_AUDIO_APP h)
                   || (_policy h policy =? SP_AUDIO_SYS h)
                then fg_cgroup_fd (once_init_sched k s) else -1) = fd) as ->.
  { unfold fd, has_schedgroup in *.
    destruct (_policy h policy =? SP_BACKGROUND h); [reflexivity |].
    cbn [orb] in Hg. rewrite Hg. reflexivity. }
  assert (0 <= fd) as Hfd
    by (unfold fd; destruct (_ =? SP_BACKGROUND h); assumption).
  pose proof (add_tid_to_cgroup_actions k (once_init_sched k s)
                (target_tid k tid) fd) as A.
  assert ((fd <? 0) = false) as Efd by (apply Z.ltb_ge; exact Hfd).
  rewrite Efd in A.
  assert (fst (fst (add_tid_to_cgroup k (once_init_sched k s)
                      (target_tid k tid) fd))
          = if (ret_value (k_write k fd (itoa (target_tid k tid))) <? 0)
               && negb (ret_errno (k_write k fd (itoa (target_tid k tid)))
                        =? ESRCH)
            then -1 else 0) as R.
  { unfold add_tid_to_cgroup. rewrite Efd. cbv zeta. unfold after_call.
    destruct (ret_value _ <? 0); [| reflexivity].
    cbn [errno set_errno andb].
    destruct (ret_errno _ =? ESRCH); reflexivity. }
  destruct (add_tid_to_cgroup k (once_init_sched k s) (target_tid k tid) fd)
    as [[added s2] acts].
  cbn [fst snd] in A, R |- *. subst acts added.
  destruct (_ && _); cbn [negb Z.eqb]; repeat split; auto.
Qed.

(** X4, for the background policy on the sample kernel: the id of the
    caller goes to descriptor 8. *)
Lemma set_sched_policy_writes_group_witness :
  schedgroups_consistent (SchedState_initial 0)
  /\ let '(ret, _, acts) :=
       set_sched_policy sample_header sample_kernel (SchedState_initial 0)
                        0 (SP_BACKGROUND sample_header) in
     0 <= 8
     /\ filter is_write acts = [ActWrite 8 (itoa 4242)]
     /\ ret = 0.
Proof.
  assert (schedgroups_consistent (SchedState_initial 0)) as H
    by (split; reflexivity).
  split; [exact H |].
  assert (__sys_supports_schedgroups
            (once_init_sched sample_kernel (SchedState_initial 0)) <> 0) as Hs
    by (vm_compute; discriminate).
  assert (has_schedgroup sample_header
            (_policy sample_header (SP_BACKGROUND sample_header)) = true)
    as Hg by reflexivity.
  assert (_policy sample_header (SP_BACKGROUND sample_header)
          <> SP_REALTIME sample_header) as Hr by (vm_compute; discriminate).
  exact (set_sched_policy_writes_group sample_header sample_kernel
           (SchedState_initial 0) 0 (SP_BACKGROUND sample_header)
           H Hs Hg Hr).
Defined.

(** X5. With scheduling groups supported, a policy that has no group and
    is not the real-time policy (the system policy, or a value outside of
    the enumeration) makes [set_sched_policy] return [-EINVAL] with [errno]
    at [EINVAL]: nothing is written, the scheduler is not called and the
    timer slack is not set. *)
Theorem set_sched_policy_without_group :
  forall (h : SchedPolicyHeader) (k : Kernel) (s : SchedState)
         (tid policy : Z),
    let s1 := once_init_sched k s in
    let p := _policy h policy in
    __sys_supports_schedgroups s1 <> 0 ->
    has_schedgroup h p = false ->
    p <> SP_REALTIME h ->
    set_sched_policy h k s tid policy = (- EINVAL, set_errno s1 EINVAL, []).
Proof.
  intros h k s tid policy. cbv zeta. intros Hs Hg Hrt.
  rewrite set_sched_policy_unfold. cbv zeta.
  assert ((__sys_supports_schedgroups (once_init_sched k s) =? 0) = false)
    as -> by (now apply Z.eqb_neq).
  assert ((_policy h policy =? SP_REALTIME h) = false) as ->
    by (now apply Z.eqb_neq).
  cbn [negb andb].
  unfold has_schedgroup in Hg.
  apply orb_false_iff in Hg. destruct Hg as [Hg Has].
  apply orb_false_iff in Hg. destruct Hg as [Hg Haa].
  apply orb_false_iff in Hg. destruct Hg as [Hbg Hfg].
  rewrite Hbg, Hfg, Haa, Has. reflexivity.
Qed.

(** X5, for the system policy on the sample kernel. *)
Lemma set_sched_policy_without_group_witness :
  set_sched_policy sample_header sample_kernel (SchedState_initial 0)
                   0 (SP_SYSTEM sample_header)
  = (- EINVAL,
     set_errno (once_init_sched sample_kernel (SchedState_initial 0)) EINVAL,
     []).
Proof.
  apply set_sched_policy_without_group.
  - vm_compute. discriminate.
  - reflexivity.
  - vm_compute. discriminate.
Defined.

(** X6. Without scheduling groups, and always for the real-time policy,
    [set_sched_policy] writes to no task file: it calls
    [sched_setscheduler] with [SCHED_BATCH] for the background policy,
    [SCHED_RR] at priority 1 for the real-time policy and [SCHED_NORMAL]
    otherwise, then sets the timer slack, and returns 0 whatever these
    calls answer. *)
Theorem set_sched_policy_by_scheduler :
  forall (h : SchedPolicyHeader) (k : Kernel) (s : SchedState)
         (tid policy : Z),
    let s1 := once_init_sched k s in
    let p := _policy h policy in
    let t := target_tid k tid in
    __sys_supports_schedgroups s1 = 0 \/ p = SP_REALTIME h ->
    let '(ret, _, acts) := set_sched_policy h k s tid policy in
    ret = 0
    /\ acts
       = [ (if p =? SP_BACKGROUND h then ActSetScheduler t SCHED_BATCH 0
            else if p =? SP_REALTIME h then ActSetScheduler t SCHED_RR 1
            else ActSetScheduler t SCHED_NORMAL 0);
           ActTimerSlack (slack_of h p) t ].
Proof.
  intros h k s tid policy. cbv zeta. intros H.
  rewrite set_sched_policy_unfold. cbv zeta.
  assert (negb (__sys_supports_schedgroups (once_init_sched k s) =? 0)
          && negb (_policy h policy =? SP_REALTIME h) = false) as ->.
  { destruct H as [H | H].
    - rewrite H. reflexivity.
    - rewrite H, Z.eqb_refl. apply andb_false_r. }
  split; [reflexivity |].
  destruct (_ =? SP_BACKGROUND h); [reflexivity |].
  destruct (_ =? SP_REALTIME h); reflexivity.
Qed.

(** X6, on a kernel without the cpuctl hierarchy where
    [sched_setscheduler] fails: the foreground policy still returns 0. *)
Lemma set_sched_policy_by_scheduler_witness :
  let '(ret, _, acts) :=
    set_sched_policy sample_header plain_kernel (SchedState_initial 0)
                     77 (SP_FOREGROUND sample_header) in
  ret = 0
  /\ acts = [ActSetScheduler 77 SCHED_NORMAL 0;
             ActTimerSlack TIMER_SLACK_FG 77].
Proof.
  assert (__sys_supports_schedgroups
            (once_init_sched plain_kernel (SchedState_initial 0)) = 0
          \/ _policy sample_header (SP_FOREGROUND sample_header)
             = SP_REALTIME sample_header) as H
    by (left; vm_compute; reflexivity).
  exact (set_sched_policy_by_scheduler sample_header plain_kernel
           (SchedState_initial 0) 77 (SP_FOREGROUND sample_header) H).
Defined.

(** The state [set_sched_policy] leaves is the state after initialisation
    with some [errno]. *)
Lemma set_sched_policy_state (h : SchedPolicyHeader) (k : Kernel)
    (s : SchedState) (tid policy : Z) :
  exists e,
    snd (fst (set_sched_policy h k s tid policy))
    = set_errno (once_init_sched k s) e.
Proof.
  rewrite set_sched_policy_unfold. cbv zeta.
  destruct (negb _ && negb _).
  - match goal with
    | |- context [add_tid_to_cgroup ?k0 ?s0 ?t0 ?fd0] =>
        pose proof (add_tid_to_cgroup_state k0 s0 t0 fd0) as St;
        destruct (add_tid_to_cgroup k0 s0 t0 fd0) as [[added s2] acts]
    end.
    cbv zeta in St. cbn [fst snd] in St |- *.
    destruct (negb (added =? 0)); cbn [fst snd].
    + eexists. exact St.
    + forget_calls. rewrite St. eexists. reflexivity.
  - cbn [fst snd]. forget_calls. eexists. reflexivity.
Qed.

(** The state [get_sched_policy] leaves is the state after initialisation
    with some [errno]. *)
Lemma get_sched_policy_state (h : SchedPolicyHeader) (k : Kernel)
    (s : SchedState) (tid : Z) :
  match get_sched_policy h k s tid with
  | Some (_, _, s') => exists e, s' = set_errno (once_init_sched k s) e
  | None => True
  end.
Proof.
  unfold get_sched_policy. cbv zeta.
  destruct (negb _).
  - unfold getSchedulerGroup.
    destruct (k_fopen_cgroup k _) as [file |].
    + destruct (scan_cgroup _ file _ 32) as [buf | | |]; auto.
      * destruct (String.eqb buf ""); [| destruct (String.eqb buf _)];
          eexists; first [reflexivity | symmetry; apply set_errno_same].
      * eexists. symmetry. apply set_errno_same.
    + eexists. reflexivity.
  - forget_calls.
    repeat match goal with
           | |- context [if ?b then _ else _] => destruct b
           end;
      eexists; reflexivity.
Qed.

(** [__init_cpuset] leaves the variables of the scheduling groups
    alone. *)
Lemma once_init_cpuset_fields (use_cpusets : bool) (k : Kernel)
    (s : SchedState) :
  let s' := once_init_cpuset use_cpusets k s in
  sched_once s' = sched_once s
  /\ __sys_supports_schedgroups s' = __sys_supports_schedgroups s
  /\ bg_cgroup_fd s' = bg_cgroup_fd s
  /\ fg_cgroup_fd s' = fg_cgroup_fd s.
Proof.
  unfold once_init_cpuset.
  destruct (cpuset_once s); [cbv zeta; auto |].
  unfold __init_cpuset.
  destruct (once_initialize_fields k (set_cpuset_once s true))
    as (H1 & _ & H3 & _ & H5 & H6 & _).
  cbv zeta in H1, H3, H5, H6 |- *.
  cbn [sched_once __sys_supports_schedgroups bg_cgroup_fd fg_cgroup_fd
       set_cpuset_once] in H1, H3, H5, H6.
  set (s0 := once_initialize k (set_cpuset_once s true)) in *.
  destruct use_cpusets; [| auto].
  destruct (ret_value (k_access k "/dev/cpuset/tasks") =? 0).
  2: { forget_calls. cbn. auto. }
  forget_calls.
  repeat match goal with
         | |- context [if ?b then _ else _] => destruct b
         end;
    forget_calls; cbn; auto.
Qed.

Lemma schedgroups_consistent_fields (s s' : SchedState) :
  sched_once s' = sched_once s ->
  __sys_supports_schedgroups s' = __sys_supports_schedgroups s ->
  bg_cgroup_fd s' = bg_cgroup_fd s ->
  fg_cgroup_fd s' = fg_cgroup_fd s ->
  schedgroups_consistent s -> schedgroups_consistent s'.
Proof.
  unfold schedgroups_consistent. intros -> -> -> ->. auto.
Qed.

(** X7. The entry points keep the variables of the scheduling groups in
    agreement.  From a state where they agree (before [__init_sched] has
    run both descriptors are -1, as in the initial state; afterwards
    either the groups are supported and both task files are open, or they
    are not and both descriptors are -1), [set_sched_policy] and
    [get_sched_policy] leave [__init_sched] run, with the groups supported
    and both task files open, or not supported and both descriptors -1.
    [set_cpuset_policy] does the same when it falls back on
    [set_sched_policy], that is without [USE_CPUSETS] or without cpusets;
    when it writes to a cpuset it leaves the variables of the scheduling
    groups as they were, initialised or not. *)
Theorem schedgroups_stay_consistent :
  forall (use_cpusets : bool) (h : SchedPolicyHeader) (k : Kernel)
         (s : SchedState) (tid policy : Z),
    schedgroups_consistent s ->
    (let s' := snd (fst (set_sched_policy h k s tid policy)) in
     schedgroups_consistent s' /\ sched_once s' = true)
    /\ match get_sched_policy h k s tid with
       | Some (_, _, s') => schedgroups_consistent s' /\ sched_once s' = true
       | None => True
       end
    /\ (let s' := snd (fst (set_cpuset_policy use_cpusets h k s tid policy)) in
        schedgroups_consistent s'
        /\ if negb use_cpusets
              || (__sys_supports_cpusets (once_init_cpuset use_cpusets k s)
                  =? 0)
           then sched_once s' = true
           else sched_once s' = sched_once s
                /\ __sys_supports_schedgroups s'
                   = __sys_supports_schedgroups s
                /\ fg_cgroup_fd s' = fg_cgroup_fd s
                /\ bg_cgroup_fd s' = bg_cgroup_fd s).
Proof.
  intros use_cpusets h k s tid policy Hc.
  destruct (once_init_sched_consistent k s Hc) as [Hc1 Ho].
  assert (forall e, schedgroups_consistent (set_errno (once_init_sched k s) e)
                    /\ sched_once (set_errno (once_init_sched k s) e) = true)
    as Hset by (intro e; split; [exact Hc1 | exact Ho]).
  split; [| split].
  - cbv zeta. destruct (set_sched_policy_state h k s tid policy) as [e ->].
    apply Hset.
  - pose proof (get_sched_policy_state h k s tid) as G.
    destruct (get_sched_policy h k s tid) as [[[ret out] s'] |]; [| exact I].
    destruct G as [e ->]. apply Hset.
  - cbv zeta. unfold set_cpuset_policy.
    destruct (negb use_cpusets); cbn [orb].
    { destruct (set_sched_policy_state h k s tid policy) as [e ->].
      apply Hset. }
    cbv zeta.
    destruct (once_init_cpuset_fields use_cpusets k s) as (F1 & F2 & F3 & F4).
    cbv zeta in F1, F2, F3, F4.
    pose proof (schedgroups_consistent_fields _ _ F1 F2 F3 F4 Hc) as Hc2.
    destruct (__sys_supports_cpusets _ =? 0).
    + destruct (set_sched_policy_state h k
                  (once_init_cpuset use_cpusets k s)
                  (if tid =? 0 then k_gettid k else tid) policy) as [e ->].
      apply (once_init_sched_consistent k _ Hc2).
    + match goal with
      | |- context [add_tid_to_cgroup ?k0 ?s0 ?t0 ?fd0] =>
          pose proof (add_tid_to_cgroup_state k0 s0 t0 fd0) as St;
          destruct (add_tid_to_cgroup k0 s0 t0 fd0) as [[added s2] acts]
      end.
      cbv zeta in St. cbn [fst snd] in St.
      destruct (negb (added =? 0) && _); cbn [fst snd];
        rewrite St; (split; [exact Hc2 | auto]).
Qed.

(** X7, from the initial state on the sample kernel. *)
Lemma schedgroups_stay_consistent_witness :
  schedgroups_consistent (SchedState_initial 0)
  /\ (let s' :=
        snd (fst (set_sched_policy sample_header sample_kernel
                    (SchedState_initial 0) 0 (SP_DEFAULT sample_header))) in
      schedgroups_consistent s' /\ sched_once s' = true).
Proof.
  assert (schedgroups_consistent (SchedState_initial 0)) as H
    by (split; reflexivity).
  split; [exact H |].
  exact (proj1 (schedgroups_stay_consistent true sample_header sample_kernel
                  (SchedState_initial 0) 0 (SP_DEFAULT sample_header) H)).
Defined.

(** X8. Once [__init_sched] has run, [set_sched_policy] and
    [get_sched_policy] change none of the file-scope variables: the
    support flags, the process name, the five descriptors and the three
    once controls are after the call what they were before it, and of the
    state only [errno] can differ. *)
Theorem initialised_state_is_kept :
  forall (h : SchedPolicyHeader) (k : Kernel) (s : SchedState)
         (tid policy : Z),
    sched_once s = true ->
    (let s' := snd (fst (set_sched_policy h k s tid policy)) in
     s' = set_errno s (errno s'))
    /\ match get_sched_policy h k s tid with
       | Some (_, _, s') => s' = set_errno s (errno s')
       | None => True
       end.
Proof.
  intros h k s tid policy Ho. split.
  - cbv zeta. destruct (set_sched_policy_state h k s tid policy) as [e ->].
    rewrite (once_init_sched_done k s Ho). reflexivity.
  - pose proof (get_sched_policy_state h k s tid) as G.
    destruct (get_sched_policy h k s tid) as [[[ret out] s'] |]; [| exact I].
    destruct G as [e ->].
    rewrite (once_init_sched_done k s Ho). reflexivity.
Qed.

(** X8, for a call on the sample kernel in an initialised state. *)
Lemma initialised_state_is_kept_witness :
  sched_once initialised_sample = true
  /\ (let s' :=
        snd (fst (set_sched_policy sample_header sample_kernel
                    initialised_sample 0 (SP_SYSTEM sample_header))) in
      s' = set_errno initialised_sample (errno s')).
Proof.
  assert (sched_once initialised_sample = true) as H by reflexivity.
  split; [exact H |].
  exact (proj1 (initialised_state_is_kept sample_header sample_kernel
                  initialised_sample 0 (SP_SYSTEM sample_header) H)).
Defined.

(* ================================================================== *)
(** * The scheduling-policy helper: names and reading a policy         *)
(* ================================================================== *)

Lemma NoDup_fst_unique {A : Type} (l : list (Z * A)) (i : Z) (x y : A) :
  NoDup (map fst l) -> In (i, x) l -> In (i, y) l -> x = y.
Proof.
  induction l as [| [j z] l IH]; intros N Hx Hy; [contradiction |].
  cbn [map fst] in N. apply NoDup_cons_iff in N. destruct N as [Nin N].
  destruct Hx as [Hx | Hx]; destruct Hy as [Hy | Hy].
  - congruence.
  - exfalso. apply Nin. injection Hx as -> _.
    apply (in_map fst) in Hy. exact Hy.
  - exfalso. apply Nin. injection Hy as -> _.
    apply (in_map fst) in Hx. exact Hx.
  - auto.
Qed.

(** With distinct designators, an element of [strings] holds the text of
    its initialiser. *)
Lemma strings_designated (h : SchedPolicyHeader) (i : Z) (name : string) :
  NoDup (map fst (strings_initializers h)) ->
  In (i, name) (strings_initializers h) ->
  strings h i = Some name.
Proof.
  intros N Hin. unfold strings.
  destruct (find (fun e => fst e =? i) (rev (strings_initializers h)))
    as [[j name'] |] eqn:F.
  - apply find_some in F. destruct F as [Hin' Hj].
    cbn [fst] in Hj. apply Z.eqb_eq in Hj. subst j.
    apply in_rev in Hin'. cbn [option_map snd].
    f_equal. eapply NoDup_fst_unique; eauto.
  - exfalso.
    apply in_rev in Hin.
    pose proof (find_none _ _ F (i, name) Hin) as C.
    cbn [fst] in C. rewrite Z.eqb_refl in C. discriminate.
Qed.

Lemma strings_not_designated (h : SchedPolicyHeader) (i : Z) :
  (forall name, ~ In (i, name) (strings_initializers h)) ->
  strings h i = None.
Proof.
  intro Hno. unfold strings.
  destruct (find (fun e => fst e =? i) (rev (strings_initializers h)))
    as [[j name'] |] eqn:F; [| reflexivity].
  apply find_some in F. destruct F as [Hin' Hj].
  cbn [fst] in Hj. apply Z.eqb_eq in Hj. subst j.
  apply in_rev in Hin'. now elim (Hno name').
Qed.

(** X9. With the designators of [strings] distinct and inside the array,
    [get_sched_policy_name] gives a policy that is not negative after the
    mapping of [SP_DEFAULT] the text of its initialiser, and the text
    "error" when it has none, in particular when it is [SP_CNT] or
    more. *)
Theorem get_sched_policy_name_table :
  forall (h : SchedPolicyHeader) (policy : Z),
    designators_ok h ->
    let p := _policy h policy in
    0 <= p ->
    (forall name,
        In (p, name) (strings_initializers h) ->
        get_sched_policy_name h policy = Some name)
    /\ ((forall name, ~ In (p, name) (strings_initializers h)) ->
        get_sched_policy_name h policy = Some "error")
    /\ (SP_CNT h <= p -> get_sched_policy_name h policy = Some "error").
Proof.
  intros h policy [N B] p Hp. subst p.
  unfold get_sched_policy_name. cbv zeta.
  assert ((_policy h policy <? 0) = false) as E0 by (apply Z.ltb_ge; lia).
  split; [| split].
  - intros name Hin.
    rewrite Forall_forall in B. specialize (B _ Hin). cbn [fst] in B.
    assert ((_policy h policy <? SP_CNT h) = true) as ->
      by (apply Z.ltb_lt; lia).
    rewrite E0, (strings_designated h _ name N Hin). reflexivity.
  - intro Hno. rewrite E0, (strings_not_designated h _ Hno).
    destruct (_ <? SP_CNT h); reflexivity.
  - intro Hge.
    assert ((_policy h policy <? SP_CNT h) = false) as ->
      by (apply Z.ltb_ge; lia).
    reflexivity.
Qed.

(** X9, for [SP_DEFAULT] with the sample values: the name is that of the
    foreground policy. *)
Lemma get_sched_policy_name_table_witness :
  designators_ok sample_header
  /\ 0 <= _policy sample_header (SP_DEFAULT sample_header)
  /\ get_sched_policy_name sample_header (SP_DEFAULT sample_header)
     = Some "fg".
Proof.
  assert (designators_ok sample_header) as H.
  { split.
    - cbn. repeat constructor; cbn; intuition discriminate.
    - repeat constructor; cbn; lia. }
  assert (0 <= _policy sample_header (SP_DEFAULT sample_header)) as Hp
    by (vm_compute; discriminate).
  split; [exact H |]. split; [exact Hp |].
  apply (proj1 (get_sched_policy_name_table sample_header
                  (SP_DEFAULT sample_header) H Hp) "fg").
  cbn. auto.
Defined.

(* ================================================================== *)
(** * The scheduling-policy helper: reading the cgroup file            *)
(* ================================================================== *)

Lemma append_assoc_string (a b c : string) :
  ((a ++ b) ++ c = a ++ (b ++ c))%string.
Proof. induction a as [| x a IH]; cbn; [reflexivity | now rewrite IH]. Qed.

Lemma length_append_string (a b : string) :
  String.length (a ++ b) = (String.length a + String.length b)%nat.
Proof. induction a as [| x a IH]; cbn; [reflexivity | now rewrite IH]. Qed.

Lemma free_of_app (c : ascii) (a b : string) :
  free_of c (a ++ b) = free_of c a && free_of c b.
Proof.
  induction a as [| x a IH]; cbn [append free_of]; [reflexivity |].
  rewrite IH. apply andb_assoc.
Qed.

Lemma c_str_free (s : string) : free_of NUL s = true -> c_str s = s.
Proof.
  induction s as [| x s IH]; cbn [c_str free_of]; [reflexivity |].
  intro H. apply andb_true_iff in H. destruct H as [Hx Hs].
  apply negb_true_iff in Hx. rewrite Hx, IH by exact Hs. reflexivity.
Qed.

Lemma split_colon_app (a b : string) :
  free_of COLON a = true ->
  split_colon (a ++ String COLON b) = (a, Some b).
Proof.
  induction a as [| x a IH]; cbn [append split_colon free_of].
  - intros _. rewrite Ascii.eqb_refl. reflexivity.
  - intro H. apply andb_true_iff in H. destruct H as [Hx Ha].
    apply negb_true_iff in Hx. rewrite Hx, IH by exact Ha. reflexivity.
Qed.

Lemma split_colon_free (a : string) :
  free_of COLON a = true -> split_colon a = (a, None).
Proof.
  induction a as [| x a IH]; cbn [split_colon free_of].
  - intros _. reflexivity.
  - intro H. apply andb_true_iff in H. destruct H as [Hx Ha].
    apply negb_true_iff in Hx. rewrite Hx, IH by exact Ha. reflexivity.
Qed.


Lemma length_substring_le (n : nat) (s : string) :
  (String.length (substring 0 n s) <= n)%nat.
Proof.
  revert s. induction n as [| n IH]; intros [| x s]; cbn; try lia.
  specialize (IH s). lia.
Qed.


(** Every [fgets] that returns a line shortens the stream. *)
Lemma fgets_take_remaining (k : nat) :
  forall stream,
    (String.length (snd (fgets_take k stream)) <= String.length stream)%nat.
Proof.
  induction k as [| k IH]; intros [| c rest];
    cbn [fgets_take snd String.length]; try lia.
  destruct (Ascii.eqb c LF); cbn [snd String.length]; [lia |].
  specialize (IH rest). destruct (fgets_take k rest).
  cbn [snd] in *. lia.
Qed.

Lemma fgets_take_S_shortens (k : nat) (c : ascii) (rest : string) :
  (String.length (snd (fgets_take (S k) (String c rest)))
   <= String.length rest)%nat.
Proof.
  cbn [fgets_take].
  destruct (Ascii.eqb c LF); cbn [snd]; [lia |].
  pose proof (fgets_take_remaining k rest) as L.
  destruct (fgets_take k rest). exact L.
Qed.

Lemma fgets_shortens (stream lineBuf remaining : string) :
  fgets 255 stream = Some (lineBuf, remaining) ->
  (String.length remaining < String.length stream)%nat.
Proof.
  destruct stream as [| c rest]; [discriminate |].
  unfold fgets. change (255 - 1)%nat with (S 253).
  pose proof (fgets_take_S_shortens 253 c rest) as L.
  destruct (fgets_take (S 253) (String c rest)) as [l r].
  cbn [snd] in L.
  intro H. assert (remaining = r) as -> by congruence.
  cbn [String.length]. lia.
Qed.

(** The fuel given to the loop of [getSchedulerGroup] is enough. *)
Lemma scan_cgroup_fuel (bufLen : Z) (fuel : nat) :
  forall stream lineBuf,
    (String.length stream < fuel)%nat ->
    scan_cgroup fuel stream lineBuf bufLen <> FuelExhausted.
Proof.
  induction fuel as [| fuel IH]; intros stream lineBuf H; [lia |].
  cbn [scan_cgroup].
  destruct (fgets 255 stream) as [[line remaining] |] eqn:F;
    [| discriminate].
  apply fgets_shortens in F. cbv zeta.
  destruct (scan_cgroup_line _ bufLen); try discriminate.
  apply IH. lia.
Qed.

(** A group found in a line fits the buffer with its terminator. *)
Lemma scan_cgroup_line_fits (lineBuf : string) (bufLen : Z) (buf : string) :
  scan_cgroup_line lineBuf bufLen = GroupFound buf ->
  Z.of_nat (String.length buf) < bufLen.
Proof.
  unfold scan_cgroup_line. cbv zeta.
  destruct (strsep _) as [[t1 |] n1]; [| discriminate].
  destruct (strsep n1) as [[subsys |] n2]; [| discriminate].
  destruct (negb _); [discriminate |].
  destruct (strsep n2) as [[grp |] n3]; [| discriminate].
  destruct (match grp with
            | EmptyString => _
            | String _ tail => Some tail
            end) as [g |]; [| discriminate].
  set (len := if bufLen <=? Z.of_nat (String.length g)
              then wrap (bufLen - 1) else Z.of_nat (String.length g)).
  assert (0 <= len) as Hlen.
  { unfold len. destruct (_ <=? _); [| lia].
    unfold wrap. apply Z.mod_pos_bound. reflexivity. }
  destruct (bufLen <=? len) eqn:E; [discriminate |].
  apply Z.leb_gt in E. intro H. injection H as <-.
  pose proof (length_substring_le (Z.to_nat len) (drop_last g)). lia.
Qed.

Lemma scan_cgroup_fits (bufLen : Z) (fuel : nat) :
  forall stream lineBuf buf,
    scan_cgroup fuel stream lineBuf bufLen = Group buf ->
    Z.of_nat (String.length buf) < bufLen.
Proof.
  induction fuel as [| fuel IH]; intros stream lineBuf buf;
    cbn [scan_cgroup]; [discriminate |].
  destruct (fgets 255 stream) as [[line remaining] |]; [| discriminate].
  cbv zeta.
  destruct (scan_cgroup_line _ bufLen) eqn:L; try discriminate.
  - apply IH.
  - intro H. injection H as <-. eapply scan_cgroup_line_fits. exact L.
Qed.

Lemma split_colon_spec (s : string) :
  match split_colon s with
  | (token, Some rest) => s = (token ++ String COLON rest)%string
  | (token, None) => s = token
  end.
Proof.
  induction s as [| c s IH]; cbn [split_colon]; [reflexivity |].
  destruct (Ascii.eqb c COLON) eqn:E.
  - apply Ascii.eqb_eq in E. subst c. reflexivity.
  - destruct (split_colon s) as [token [rest |]]; cbn [append]; congruence.
Qed.

(** With room in [buf], the loop steps outside of an array only on a line
    that ends behind the colon of its "cpu" field, and then only when the
    array holds no NUL behind the terminator of the line. *)
Lemma scan_cgroup_line_outside (lineBuf : string) (bufLen : Z) :
  1 <= bufLen < ptr_modulus ->
  scan_cgroup_line lineBuf bufLen = OutOfBuffer ->
  (exists id, c_str lineBuf = (id ++ ":cpu:")%string)
  /\ terminated (skip_chars (S (String.length (c_str lineBuf))) lineBuf)
     = None.
Proof.
  intro Hb. unfold scan_cgroup_line. cbv zeta. unfold strsep at 1.
  pose proof (split_colon_spec (c_str lineBuf)) as S1.
  destruct (split_colon (c_str lineBuf)) as [t1 [r1 |]];
    [| discriminate].
  unfold strsep at 1.
  pose proof (split_colon_spec r1) as S2.
  destruct (split_colon r1) as [subsys n2].
  destruct (String.eqb subsys "cpu") eqn:Ecpu; cbn [negb]; [| discriminate].
  apply String.eqb_eq in Ecpu. subst subsys.
  destruct n2 as [r2 |]; cbn [strsep]; [| discriminate].
  pose proof (split_colon_spec r2) as S3.
  destruct (split_colon r2) as [grp n3].
  assert (forall g : string,
             (let len := Z.of_nat (String.length g) in
              let grp := drop_last g in
              let len := if bufLen <=? len then wrap (bufLen - 1) else len in
              if bufLen <=? len then OutOfBuffer
              else GroupFound (substring 0 (Z.to_nat len) grp))
             <> OutOfBuffer) as Hroom.
  { intro g. cbv zeta.
    destruct (bufLen <=? Z.of_nat (String.length g)) eqn:E.
    - rewrite wrap_small by lia.
      assert ((bufLen <=? bufLen - 1) = false) as -> by (apply Z.leb_gt; lia).
      discriminate.
    - rewrite E. discriminate. }
  destruct grp as [| c tail].
  - destruct n3 as [r3 |].
    + intro C. elim (Hroom r3). exact C.
    + destruct (terminated _) as [g |] eqn:T.
      * intro C. elim (Hroom g). exact C.
      * intros _. split; [| reflexivity].
        exists t1. rewrite S1, S2, S3. reflexivity.
  - intro C. elim (Hroom tail). exact C.
Qed.

(** X11. Whatever the cgroup file and the array hold, a group returned by
    [getSchedulerGroup] is shorter than [bufLen], so it fits [buf] with
    its terminator, and the loop over the lines always ends.  With room in
    [buf], an iteration steps outside of an array only on a line that ends
    behind the colon of its "cpu" field, when the array holds no NUL
    behind the terminator of the line. *)
Theorem getSchedulerGroup_fits_buffer :
  (forall (k : Kernel) (s : SchedState) (tid bufLen : Z),
      match fst (getSchedulerGroup k s tid bufLen) with
      | Group buf => Z.of_nat (String.length buf) < bufLen
      | FuelExhausted => False
      | GroupError | GroupOutOfBuffer => True
      end)
  /\ (forall (lineBuf : string) (bufLen : Z),
         1 <= bufLen < ptr_modulus ->
         scan_cgroup_line lineBuf bufLen = OutOfBuffer ->
         (exists id, c_str lineBuf = (id ++ ":cpu:")%string)
         /\ terminated
              (skip_chars (S (String.length (c_str lineBuf))) lineBuf)
            = None).
Proof.
  split; [| exact scan_cgroup_line_outside].
  intros k s tid bufLen. unfold getSchedulerGroup.
  destruct (k_fopen_cgroup k tid) as [file |]; cbn [fst]; [| exact I].
  pose proof (scan_cgroup_fuel bufLen (S (String.length file)) file
                (substring 0 256 (k_lineBuf k)) ltac:(lia)) as F.
  pose proof (scan_cgroup_fits bufLen (S (String.length file)) file
                (substring 0 256 (k_lineBuf k))) as B.
  destruct (scan_cgroup _ file _ bufLen); auto.
Qed.

(** X11, for the line "2:cpu:" stored in an array that holds no other
    NUL. *)
Lemma getSchedulerGroup_fits_buffer_witness :
  1 <= 32 < ptr_modulus
  /\ scan_cgroup_line (fgets_store sample_lineBuf "2:cpu:") 32 = OutOfBuffer
  /\ (exists id,
        c_str (fgets_store sample_lineBuf "2:cpu:") = (id ++ ":cpu:")%string)
  /\ terminated
       (skip_chars
          (S (String.length (c_str (fgets_store sample_lineBuf "2:cpu:"))))
          (fgets_store sample_lineBuf "2:cpu:"))
     = None.
Proof.
  assert (1 <= 32 < ptr_modulus) as B by (unfold ptr_modulus, ptr_bits; lia).
  assert (scan_cgroup_line (fgets_store sample_lineBuf "2:cpu:") 32
          = OutOfBuffer) as H by (vm_compute; reflexivity).
  split; [exact B |]. split; [exact H |].
  destruct getSchedulerGroup_fits_buffer as [_ T].
  exact (T _ _ B H).
Defined.

(** The loop of [getSchedulerGroup] ends. *)
Lemma getSchedulerGroup_ends (k : Kernel) (s : SchedState) (tid bufLen : Z) :
  fst (getSchedulerGroup k s tid bufLen) <> FuelExhausted.
Proof.
  unfold getSchedulerGroup.
  destruct (k_fopen_cgroup k tid) as [file |]; cbn [fst]; [| discriminate].
  apply scan_cgroup_fuel. lia.
Qed.

(** X10. Whenever [get_sched_policy] returns, it returns 0 and stores a
    policy, or returns -1 and stores nothing.  The policy stored is
    [SP_FOREGROUND] or [SP_BACKGROUND], or, without scheduling groups only,
    [SP_REALTIME].  It does not return only when scheduling groups are
    supported and [getSchedulerGroup] steps outside of [lineBuf]. *)
Theorem get_sched_policy_reports :
  forall (h : SchedPolicyHeader) (k : Kernel) (s : SchedState) (tid : Z),
    let s1 := once_init_sched k s in
    let t := if tid =? 0 then k_gettid k else tid in
    match get_sched_policy h k s tid with
    | Some (ret, out, _) =>
        (ret = 0
         /\ (out = Some (SP_FOREGROUND h) \/ out = Some (SP_BACKGROUND h)
             \/ (out = Some (SP_REALTIME h)
                 /\ __sys_supports_schedgroups s1 = 0)))
        \/ (ret = -1 /\ out = None)
    | None =>
        __sys_supports_schedgroups s1 <> 0
        /\ fst (getSchedulerGroup k s1 t 32) = GroupOutOfBuffer
    end.
Proof.
  intros h k s tid. cbv zeta. unfold get_sched_policy. cbv zeta.
  destruct (__sys_supports_schedgroups (once_init_sched k s) =? 0) eqn:E;
    cbn [negb].
  - apply Z.eqb_eq in E.
    repeat match goal with
           | |- context [if ?b then _ else _] => destruct b
           end; auto 6.
  - apply Z.eqb_neq in E.
    pose proof (getSchedulerGroup_ends k (once_init_sched k s)
                  (if tid =? 0 then k_gettid k else tid) 32) as Hf.
    destruct (getSchedulerGroup k _ _ 32) as [[buf | | |] s2]; auto.
    + destruct (String.eqb buf ""); [auto |].
      destruct (String.eqb buf "bg_non_interactive"); auto 6.
    + contradiction Hf. reflexivity.
Qed.



Lemma fgets_take_line (body rest : string) :
  forall k,
    free_of LF body = true -> (String.length body < k)%nat ->
    fgets_take k (body ++ String LF rest)
    = ((body ++ String LF EmptyString)%string, rest).
Proof.
  induction body as [| x body IH]; intros k Hfree Hlen;
    (destruct k as [| k]; [cbn [String.length] in Hlen; lia |]);
    cbn [append fgets_take].
  - rewrite Ascii.eqb_refl. reflexivity.
  - cbn [free_of] in Hfree. apply andb_true_iff in Hfree.
    destruct Hfree as [Hx Hfree]. apply negb_true_iff in Hx. rewrite Hx.
    rewrite IH; [reflexivity | exact Hfree |].
    cbn [String.length] in Hlen. lia.
Qed.

(** [fgets] returns a complete line whole. *)
Lemma fgets_complete_line (line rest : string) :
  complete_line line ->
  fgets 255 (line ++ rest) = Some (line, rest).
Proof.
  intros (body & -> & Hfree & Hlen).
  rewrite append_assoc_string. cbn [append].
  rewrite length_append_string in Hlen. cbn [String.length] in Hlen.
  unfold fgets. change (255 - 1)%nat with 254%nat.
  rewrite fgets_take_line by (auto; lia).
  destruct body; reflexivity.
Qed.

Lemma c_str_stored (line tail : string) :
  c_str (line ++ String NUL tail) = c_str line.
Proof.
  induction line as [| x line IH]; cbn [append c_str].
  - rewrite Ascii.eqb_refl. reflexivity.
  - destruct (Ascii.eqb x NUL); [reflexivity | now rewrite IH].
Qed.

Lemma terminated_app (a b g : string) :
  terminated a = Some g -> terminated (a ++ b) = Some g.
Proof.
  revert g. induction a as [| x a IH]; intro g; cbn [append terminated];
    [discriminate |].
  destruct (Ascii.eqb x NUL); [auto |].
  destruct (terminated a) as [t |]; [| discriminate].
  rewrite (IH t eq_refl). auto.
Qed.

Lemma skip_chars_app (n : nat) :
  forall a b,
    skip_chars n (a ++ b) = (skip_chars n a ++ b)%string
    \/ skip_chars n a = EmptyString.
Proof.
  induction n as [| n IH]; intros a b.
  - left. destruct a; reflexivity.
  - destruct a as [| x a]; cbn [append skip_chars].
    + right. reflexivity.
    + apply IH.
Qed.

(** What the loop does with a line does not depend on the bytes behind
    its terminator, unless the line alone makes it read there. *)
Lemma scan_cgroup_line_stored (line tail : string) (bufLen : Z) :
  scan_cgroup_line line bufLen <> OutOfBuffer ->
  scan_cgroup_line (line ++ String NUL tail) bufLen
  = scan_cgroup_line line bufLen.
Proof.
  unfold scan_cgroup_line. cbv zeta. rewrite c_str_stored.
  destruct (strsep (Some (c_str line))) as [[t1 |] n1]; [| reflexivity].
  destruct (strsep n1) as [[subsys |] n2]; [| reflexivity].
  destruct (negb _); [reflexivity |].
  destruct (strsep n2) as [[grp |] n3]; [| reflexivity].
  destruct grp as [| c tail']; [| reflexivity].
  destruct n3 as [r |]; [reflexivity |].
  destruct (terminated (skip_chars (S (String.length (c_str line))) line))
    as [g |] eqn:E; [| intro C; contradiction C; reflexivity].
  intros _.
  destruct (skip_chars_app (S (String.length (c_str line))) line
              (String NUL tail)) as [-> | C].
  - rewrite (terminated_app _ _ _ E). reflexivity.
  - rewrite C in E. discriminate.
Qed.

Lemma scan_cgroup_complete_line (fuel : nat) (line rest lineBuf : string)
    (bufLen : Z) :
  complete_line line ->
  scan_cgroup (S fuel) (line ++ rest) lineBuf bufLen
  = match scan_cgroup_line (fgets_store lineBuf line) bufLen with
    | NextLine =>
        scan_cgroup fuel rest (lineBuf_skipped (fgets_store lineBuf line))
                    bufLen
    | BadData => GroupError
    | GroupFound buf => Group buf
    | OutOfBuffer => GroupOutOfBuffer
    end.
Proof.
  intro H. cbn [scan_cgroup]. rewrite fgets_complete_line by exact H.
  reflexivity.
Qed.

(** More fuel than the length of the stream is as good as any. *)
Lemma scan_cgroup_enough (bufLen : Z) (f1 : nat) :
  forall f2 stream lineBuf,
    (String.length stream < f1)%nat -> (String.length stream < f2)%nat ->
    scan_cgroup f1 stream lineBuf bufLen
    = scan_cgroup f2 stream lineBuf bufLen.
Proof.
  induction f1 as [| f1 IH]; intros f2 stream lineBuf H1 H2; [lia |].
  destruct f2 as [| f2]; [lia |].
  cbn [scan_cgroup].
  destruct (fgets 255 stream) as [[line remaining] |] eqn:F;
    [| reflexivity].
  apply fgets_shortens in F. cbv zeta.
  destruct (scan_cgroup_line _ bufLen); try reflexivity.
  apply IH; lia.
Qed.

Lemma complete_line_length (line : string) :
  complete_line line -> (1 <= String.length line)%nat.
Proof.
  intros (body & -> & _ & _). rewrite length_append_string.
  cbn [String.length]. lia.
Qed.

(** Skipped lines are passed over; they leave their bytes in the array. *)
Lemma scan_cgroup_skips (bufLen : Z) (skipped : list string) :
  Forall (fun l => complete_line l /\ scan_cgroup_line l bufLen = NextLine)
         skipped ->
  forall rest lineBuf,
    exists lineBuf',
      scan_cgroup (S (String.length (join_lines skipped ++ rest)))
                  (join_lines skipped ++ rest) lineBuf bufLen
      = scan_cgroup (S (String.length rest)) rest lineBuf' bufLen.
Proof.
  intro H. induction H as [| l ls [Hl Hn] _ IH]; intros rest lineBuf.
  - exists lineBuf. reflexivity.
  - cbn [join_lines fold_right]. fold (join_lines ls).
    rewrite append_assoc_string.
    rewrite scan_cgroup_complete_line by exact Hl.
    unfold fgets_store at 1.
    rewrite scan_cgroup_line_stored by (rewrite Hn; discriminate).
    rewrite Hn.
    destruct (IH rest (lineBuf_skipped (fgets_store lineBuf l)))
      as (lineBuf' & E).
    exists lineBuf'. rewrite <- E.
    apply scan_cgroup_enough; [| lia].
    pose proof (complete_line_length l Hl).
    rewrite (length_append_string l). lia.
Qed.

(** X13. [getSchedulerGroup] passes over the lines it skips, and the first
    line that is not skipped decides: its group is returned, or -1 when it
    is malformed, whatever follows it in the file.  A file that holds
    skipped lines only gives -1. *)
Theorem getSchedulerGroup_first_deciding_line :
  forall (k : Kernel) (s : SchedState) (tid bufLen : Z)
         (skipped : list string),
    Forall (fun l => complete_line l /\ scan_cgroup_line l bufLen = NextLine)
           skipped ->
    (k_fopen_cgroup k tid = Some (join_lines skipped) ->
     fst (getSchedulerGroup k s tid bufLen) = GroupError)
    /\ (forall line rest,
           complete_line line ->
           k_fopen_cgroup k tid
           = Some (join_lines skipped ++ line ++ rest)%string ->
           (forall buf,
               scan_cgroup_line line bufLen = GroupFound buf ->
               fst (getSchedulerGroup k s tid bufLen) = Group buf)
           /\ (scan_cgroup_line line bufLen = BadData ->
               fst (getSchedulerGroup k s tid bufLen) = GroupError)).
Proof.
  intros k s tid bufLen skipped H. split.
  - intro F. unfold getSchedulerGroup. rewrite F. cbn [fst].
    destruct (scan_cgroup_skips bufLen skipped H EmptyString
                (substring 0 256 (k_lineBuf k))) as (lineBuf' & S).
    assert (forall a : string, (a ++ "")%string = a) as app_nil
      by (intro a; induction a as [| x a IH]; cbn; [| rewrite IH];
          reflexivity).
    rewrite app_nil in S. rewrite S. reflexivity.
  - intros line rest Hl F. unfold getSchedulerGroup. rewrite F. cbn [fst].
    destruct (scan_cgroup_skips bufLen skipped H (line ++ rest)%string
                (substring 0 256 (k_lineBuf k))) as (lineBuf' & S).
    rewrite S.
    rewrite scan_cgroup_complete_line by exact Hl.
    split.
    + intros buf E. unfold fgets_store at 1.
      rewrite scan_cgroup_line_stored by (rewrite E; discriminate).
      rewrite E. reflexivity.
    + intros E. unfold fgets_store at 1.
      rewrite scan_cgroup_line_stored by (rewrite E; discriminate).
      rewrite E. reflexivity.
Qed.

(** X13, for the sample file: the cpuacct line is skipped and the cpu line
    gives the group, the cpuset line after it is not read. *)
Lemma getSchedulerGroup_first_deciding_line_witness :
  Forall (fun l => complete_line l /\ scan_cgroup_line l 32 = NextLine)
         ["3:cpuacct:/" ++ String LF ""]%string
  /\ complete_line ("2:cpu:/bg_non_interactive" ++ String LF "")
  /\ fst (getSchedulerGroup sample_kernel (SchedState_initial 0) 4242 32)
     = Group "bg_non_interactive".
Proof.
  assert (Forall (fun l => complete_line l
                           /\ scan_cgroup_line l 32 = NextLine)
                 ["3:cpuacct:/" ++ String LF ""]%string) as H.
  { constructor; [| constructor]. split; [| reflexivity].
    exists "3:cpuacct:/". repeat split. cbn. lia. }
  assert (complete_line ("2:cpu:/bg_non_interactive" ++ String LF "")) as Hl.
  { exists "2:cpu:/bg_non_interactive". repeat split. cbn. lia. }
  split; [exact H |]. split; [exact Hl |].
  destruct (getSchedulerGroup_first_deciding_line
              sample_kernel (SchedState_initial 0) 4242 32 _ H) as [_ D].
  destruct (D ("2:cpu:/bg_non_interactive" ++ String LF "")%string
              ("1:cpuset:/" ++ String LF "")%string Hl eq_refl) as [G _].
  apply G. reflexivity.
Defined.

(** A last line "2:cpu:" without a newline, behind a longer line: the
    group is read from the bytes the earlier line left behind the
    terminator, here "ct" of "cpuacct".  Alone in the file and with no NUL
    in the array, the same line makes [strlen] run past the array. *)
Example getSchedulerGroup_reads_stale_bytes :
  fst (getSchedulerGroup
         (with_cgroup_file sample_kernel
            ("3:cpuacct:/abc" ++ String LF "2:cpu:"))
         (SchedState_initial 0) 4242 32)
  = Group "c"
  /\ fst (getSchedulerGroup (with_cgroup_file sample_kernel "2:cpu:")
            (SchedState_initial 0) 4242 32)
     = GroupOutOfBuffer.
Proof. vm_compute. split; reflexivity. Qed.

Lemma c_str_keeps_free (c : ascii) (s : string) :
  free_of c s = true -> free_of c (c_str s) = true.
Proof.
  induction s as [| x s IH]; cbn [c_str free_of]; [reflexivity |].
  intro H. apply andb_true_iff in H. destruct H as [Hx Hs].
  destruct (Ascii.eqb x NUL); [reflexivity |].
  cbn [free_of]. rewrite Hx, IH by exact Hs. reflexivity.
Qed.

(** X14. A line is malformed, and ends the search with -1, when it holds
    no colon at all, or when its second field is "cpu" and no colon
    follows it.  A line with a single colon whose second field is not
    "cpu" is not malformed: it is skipped. *)
Theorem scan_cgroup_line_malformed :
  forall (bufLen : Z),
    (forall line,
        free_of COLON line = true -> scan_cgroup_line line bufLen = BadData)
    /\ (forall id,
           free_of COLON id = true -> free_of NUL id = true ->
           scan_cgroup_line (id ++ ":cpu") bufLen = BadData)
    /\ (forall id subsys,
           free_of COLON id = true -> free_of COLON subsys = true ->
           free_of NUL (id ++ subsys) = true -> subsys <> "cpu" ->
           scan_cgroup_line (id ++ String COLON subsys) bufLen = NextLine).
Proof.
  intro bufLen. split; [| split].
  - intros line H. unfold scan_cgroup_line. cbv zeta.
    unfold strsep at 1.
    rewrite split_colon_free by (apply c_str_keeps_free; exact H).
    reflexivity.
  - intros id Hc Hn. unfold scan_cgroup_line. cbv zeta.
    rewrite c_str_free by (rewrite free_of_app, Hn; reflexivity).
    change (id ++ ":cpu")%string with (id ++ String COLON "cpu")%string.
    unfold strsep at 1. rewrite split_colon_app by exact Hc.
    reflexivity.
  - intros id subsys Hc Hs Hn Hne.
    rewrite free_of_app in Hn. apply andb_true_iff in Hn.
    destruct Hn as [Nid Nsub].
    unfold scan_cgroup_line. cbv zeta.
    rewrite c_str_free
      by (rewrite free_of_app, Nid;
          change (free_of NUL (String COLON subsys))
            with (free_of NUL subsys);
          exact Nsub).
    unfold strsep at 1. rewrite split_colon_app by exact Hc.
    unfold strsep at 1. rewrite split_colon_free by exact Hs.
    apply String.eqb_neq in Hne. rewrite Hne. reflexivity.
Qed.

(* ================================================================== *)
(** * The scheduling-policy helper: set_cpuset_policy                  *)
(* ================================================================== *)



(* ================================================================== *)
(** * Further properties of the unreachable-memory detector            *)
(* ================================================================== *)

Lemma prefix_iff_append (p s : string) :
  String.prefix p s = true <-> exists t, s = (p ++ t)%string.
Proof.
  revert s. induction p as [| a p IH]; intro s.
  - destruct s; cbn; (split; [intros _; eexists; reflexivity | reflexivity]).
  - destruct s as [| b s]; cbn [String.prefix append].
    + split; [discriminate | intros [t C]; discriminate].
    + destruct (ascii_dec a b) as [-> | N].
      * rewrite IH. split; intros [t H]; exists t; congruence.
      * split; [discriminate | intros [t C]; congruence].
Qed.

(** X16. [has_prefix s prefix] holds exactly when [s] is [prefix] followed
    by something; in particular a string shorter than the prefix does not
    have it, and every string has the empty prefix. *)
Theorem has_prefix_iff :
  forall (s prefix : string),
    (has_prefix s prefix = true <-> exists t, s = (prefix ++ t)%string)
    /\ ((String.length s < String.length prefix)%nat ->
        has_prefix s prefix = false)
    /\ has_prefix s "" = true.
Proof.
  intros s p. rewrite !has_prefix_prefix. split; [| split].
  - apply prefix_iff_append.
  - intro H. destruct (String.prefix p s) eqn:E; [| reflexivity].
    apply prefix_iff_append in E. destruct E as [t ->].
    rewrite length_append_string in H. lia.
  - destruct s; reflexivity.
Qed.

Lemma classified_from_step (ms : list Mapping) (c : Classified) (m : Mapping) :
  In m ms -> classified_from ms c -> classified_from ms (classify_step c m).
Proof.
  intros Hin (Hh & Hs & Hg & Ha). unfold classify_step.
  destruct (map_execute m) eqn:Ex;
    [repeat split; assumption |].
  destruct (map_read m) eqn:Rd; cbn [negb];
    [| repeat split; assumption].
  assert (Forall (fun m => In m ms /\ map_read m = true
                           /\ map_execute m = false)
                 (globals_mappings c ++ [m])) as Hg'.
  { apply Forall_app. split; [assumption |].
    constructor; [repeat split; assumption | constructor]. }
  cbv zeta.
  destruct (String.eqb (map_name m) "[anon:.bss]");
    [repeat split; assumption |].
  destruct (String.eqb (map_name m) (current_lib c));
    [repeat split; assumption |].
  destruct (String.eqb (map_name m) "[anon:libc_malloc]") eqn:En.
  { apply String.eqb_eq in En. repeat split; try assumption.
    cbn [emplace_heap heap_mappings]. apply Forall_app.
    split; [assumption |].
    constructor; [repeat split; assumption | constructor]. }
  destruct (has_prefix (map_name m) "/dev/ashmem/dalvik");
    [repeat split; assumption |].
  destruct (has_prefix (map_name m) "[stack") eqn:Es.
  { repeat split; try assumption.
    cbn [emplace_stack stack_mappings]. apply Forall_app.
    split; [assumption |].
    constructor; [repeat split; assumption | constructor]. }
  destruct (Nat.eqb (String.length (map_name m)) 0);
    [repeat split; assumption |].
  destruct (has_prefix (map_name m) "[anon:"
            && negb (String.eqb (map_name m) "[anon:leak_detector_malloc]"));
    repeat split; assumption.
Qed.

Lemma classified_from_fold (ms : list Mapping) :
  forall (l : list Mapping) (c : Classified),
    (forall m, In m l -> In m ms) -> classified_from ms c ->
    classified_from ms (fold_left classify_step l c).
Proof.
  induction l as [| m l IH]; intros c Hl Hc; [exact Hc |].
  cbn [fold_left]. apply IH.
  - intros x Hx. apply Hl. right. exact Hx.
  - apply classified_from_step; [apply Hl; left; reflexivity | exact Hc].
Qed.

(** X17. Whatever the vectors held before, after [ClassifyMappings] every
    entry of the heap, stack and globals vectors is a readable,
    non-executable mapping of the input; heap entries are named
    "[anon:libc_malloc]", stack entries have a name that starts with
    "[stack", and the anon vector is left empty. *)
Theorem ClassifyMappings_vectors_sound :
  forall (mappings heap anon globals stacks : list Mapping),
    fst (ClassifyMappings mappings heap anon globals stacks) = true
    /\ classified_from mappings
         (snd (ClassifyMappings mappings heap anon globals stacks)).
Proof.
  intros. split; [reflexivity |]. cbn [ClassifyMappings snd].
  apply classified_from_fold; [auto |].
  repeat split; constructor.
Qed.

Lemma never_classified_step (c : Classified) (m : Mapping) :
  (map_execute m = true -> map_name m <> arena_name) ->
  current_lib c <> arena_name -> never_classified arena_name c ->
  current_lib (classify_step c m) <> arena_name
  /\ never_classified arena_name (classify_step c m).
Proof.
  intros Hx Hl Hn. unfold never_classified in *.
  rewrite !Forall_app in Hn. destruct Hn as (Hh & Hg & Hs).
  unfold classify_step.
  destruct (map_execute m) eqn:Ex.
  { split; [exact (Hx eq_refl) |].
    cbn [set_current_lib heap_mappings globals_mappings stack_mappings].
    rewrite !Forall_app. auto. }
  assert (Forall (fun x => map_name x <> arena_name) (heap_mappings c)
          /\ Forall (fun x => map_name x <> arena_name) (globals_mappings c)
          /\ Forall (fun x => map_name x <> arena_name) (stack_mappings c))
    as Hsame by auto.
  destruct (map_read m); cbn [negb];
    [| split; [exact Hl | rewrite !Forall_app; exact Hsame]].
  cbv zeta.
  destruct (String.eqb (map_name m) "[anon:.bss]") eqn:E1.
  { apply String.eqb_eq in E1. split; [exact Hl |].
    cbn [emplace_globals heap_mappings globals_mappings stack_mappings].
    rewrite !Forall_app. repeat split; auto.
    constructor; [| constructor]. rewrite E1. discriminate. }
  destruct (String.eqb (map_name m) (current_lib c)) eqn:E2.
  { apply String.eqb_eq in E2. split; [exact Hl |].
    cbn [emplace_globals heap_mappings globals_mappings stack_mappings].
    rewrite !Forall_app. repeat split; auto.
    constructor; [| constructor]. rewrite E2. exact Hl. }
  destruct (String.eqb (map_name m) "[anon:libc_malloc]") eqn:E3.
  { apply String.eqb_eq in E3. split; [exact Hl |].
    cbn [emplace_heap heap_mappings globals_mappings stack_mappings].
    rewrite !Forall_app. repeat split; auto.
    constructor; [| constructor]. rewrite E3. discriminate. }
  destruct (has_prefix (map_name m) "/dev/ashmem/dalvik") eqn:E4.
  { split; [exact Hl |].
    cbn [emplace_globals heap_mappings globals_mappings stack_mappings].
    rewrite !Forall_app. repeat split; auto.
    constructor; [| constructor]. intro C. rewrite C in E4. discriminate. }
  destruct (has_prefix (map_name m) "[stack") eqn:E5.
  { split; [exact Hl |].
    cbn [emplace_stack heap_mappings globals_mappings stack_mappings].
    rewrite !Forall_app. repeat split; auto.
    constructor; [| constructor]. intro C. rewrite C in E5. discriminate. }
  destruct (Nat.eqb (String.length (map_name m)) 0) eqn:E6.
  { split; [exact Hl |].
    cbn [emplace_globals heap_mappings globals_mappings stack_mappings].
    rewrite !Forall_app. repeat split; auto.
    constructor; [| constructor]. intro C. rewrite C in E6. discriminate. }
  destruct (has_prefix (map_name m) "[anon:") eqn:E7; cbn [andb];
    [| split; [exact Hl | rewrite !Forall_app; exact Hsame]].
  destruct (String.eqb (map_name m) "[anon:leak_detector_malloc]") eqn:E8;
    cbn [negb];
    [split; [exact Hl | rewrite !Forall_app; exact Hsame] |].
  split; [exact Hl |].
  cbn [emplace_globals heap_mappings globals_mappings stack_mappings].
  rewrite !Forall_app. repeat split; auto.
  constructor; [| constructor]. intro C.
  apply String.eqb_neq in E8. exact (E8 C).
Qed.

Lemma never_classified_fold :
  forall (l : list Mapping) (c : Classified),
    (forall m, In m l -> map_execute m = true -> map_name m <> arena_name) ->
    current_lib c <> arena_name -> never_classified arena_name c ->
    never_classified arena_name (fold_left classify_step l c).
Proof.
  induction l as [| m l IH]; intros c Hl Hc Hn; [exact Hn |].
  cbn [fold_left].
  destruct (never_classified_step c m) as [H1 H2]; auto.
  { apply Hl. left. reflexivity. }
  apply IH; auto. intros x Hx. apply Hl. right. exact Hx.
Qed.

(** X18. The detector's own arena is never a root or a heap: unless an
    executable mapping itself carries the name
    "[anon:leak_detector_malloc]", no vector that [ClassifyMappings] fills
    holds a mapping of that name. *)
Theorem ClassifyMappings_skips_own_arena :
  forall (mappings heap anon globals stacks : list Mapping),
    (forall m, In m mappings -> map_execute m = true ->
               map_name m <> arena_name) ->
    never_classified arena_name
      (snd (ClassifyMappings mappings heap anon globals stacks)).
Proof.
  intros mappings heap anon globals stacks H.
  cbn [ClassifyMappings snd]. apply never_classified_fold.
  - exact H.
  - discriminate.
  - constructor.
Qed.

(** X18, for mappings of every kind after the library of S5: the only
    executable mapping is the library text. *)
Lemma ClassifyMappings_skips_own_arena_witness :
  (forall m, In m table_mappings -> map_execute m = true ->
             map_name m <> arena_name)
  /\ never_classified arena_name
       (snd (ClassifyMappings table_mappings [] [] [] [])).
Proof.
  assert (forall m, In m table_mappings -> map_execute m = true ->
                    map_name m <> arena_name) as H.
  { intros m Hin Hx. unfold table_mappings in Hin. cbn [In] in Hin.
    repeat (destruct Hin as [<- | Hin];
            [first [discriminate Hx | intro C; discriminate C] |]).
    destruct Hin. }
  split; [exact H |].
  exact (ClassifyMappings_skips_own_arena table_mappings [] [] [] [] H).
Defined.

(* ================================================================== *)
(** * Where the reported leaks come from                               *)
(* ================================================================== *)

Lemma insert_by_begin_Forall (P : Range -> Prop) (a : AllocationInfo)
    (l : list AllocationInfo) :
  P (alloc_range a) -> Forall P (map alloc_range l) ->
  Forall P (map alloc_range (insert_by_begin a l)).
Proof.
  intros Ha. induction l as [| b l IH]; intro Hl; cbn [insert_by_begin map].
  - constructor; [exact Ha | constructor].
  - destruct (range_begin (alloc_range a) <=? range_begin (alloc_range b)).
    + constructor; [exact Ha | exact Hl].
    + cbn [map] in Hl |- *. inversion Hl as [| ? ? Hb Hr]; subst.
      constructor; [exact Hb | exact (IH Hr)].
Qed.

Lemma Allocation_Forall (P : Range -> Prop) (w : HeapWalker) (b e : Z) :
  P (mkRange b e) -> Forall P (map alloc_range (allocations w)) ->
  Forall P (map alloc_range (allocations (Allocation w b e))).
Proof.
  intros Hp Hw. unfold Allocation. cbv zeta.
  destruct (existsb _ _); [exact Hw |].
  cbn [allocations]. apply insert_by_begin_Forall; assumption.
Qed.

Lemma chunks_fold_Forall (P : Range -> Prop) (chunks : list (Z * Z)) :
  (forall bs, In bs chunks -> P (mkRange (fst bs) (wrap (fst bs + snd bs)))) ->
  forall w,
    Forall P (map alloc_range (allocations w)) ->
    Forall P (map alloc_range
                (allocations
                   (fold_left
                      (fun w (bs : Z * Z) =>
                         Allocation w (fst bs) (wrap (fst bs + snd bs)))
                      chunks w))).
Proof.
  induction chunks as [| bs chunks IH]; intros Hc w Hw; cbn [fold_left].
  - exact Hw.
  - apply IH.
    + intros x Hx. apply Hc. right. exact Hx.
    + apply Allocation_Forall; [apply Hc; left; reflexivity | exact Hw].
Qed.

Lemma CollectAllocations_index_provenance (env : Environment)
    (u : MemUnreachable) (threads : list ThreadInfo)
    (mappings : list Mapping) :
  Forall (fun r => In r (map alloc_range (allocations (heap_walker_ u)))
                   \/ enumerated env mappings r)
         (map alloc_range
            (allocations
               (heap_walker_
                  (snd (CollectAllocations env u threads mappings))))).
Proof.
  unfold CollectAllocations.
  pose proof (classified_from_fold mappings mappings
                (mkClassified "" [] [] [] [])) as Hc.
  destruct (ClassifyMappings_anon mappings mappings mappings mappings mappings)
    as (Hok & Hanon).
  unfold ClassifyMappings in *. cbv zeta in *.
  set (c := fold_left classify_step mappings (mkClassified "" [] [] [] []))
    in *.
  cbn [fst snd] in Hok, Hanon.
  cbn [negb snd with_walker heap_walker_].
  rewrite Hanon. cbn [fold_left].
  match goal with
  | |- context [fold_left _ threads ?w3] =>
      destruct (threads_fold_roots (stack_mappings c) threads w3)
        as (_ & _ & ->)
  end.
  match goal with
  | |- context [fold_left _ (globals_mappings c) ?w2] =>
      destruct (fold_Root_roots (globals_mappings c) w2) as (_ & _ & ->)
  end.
  assert (classified_from mappings c) as (Hheap & _).
  { apply Hc; [auto |]. repeat split; constructor. }
  set (P := fun r => In r (map alloc_range (allocations (heap_walker_ u)))
                     \/ enumerated env mappings r).
  assert (Forall P (map alloc_range (allocations (heap_walker_ u)))) as Hw.
  { apply Forall_forall. intros r Hr. left. exact Hr. }
  revert Hw. generalize (heap_walker_ u).
  induction Hheap as [| m l (Hin & Hr & Hx & Hn) _ IH]; intros w Hw;
    cbn [fold_left].
  - exact Hw.
  - apply IH. apply chunks_fold_Forall; [| exact Hw].
    intros bs Hbs. right. exists m, bs. repeat split; assumption.
Qed.

(** X19. Every region of the allocation index after [CollectAllocations]
    was in the index before or was reported by [malloc_iterate] on a
    readable, non-executable mapping named "[anon:libc_malloc]"; no other
    mapping contributes an allocation. *)
Theorem CollectAllocations_index_from_allocator :
  forall (env : Environment) (u : MemUnreachable)
         (threads : list ThreadInfo) (mappings : list Mapping),
    Forall (fun r => In r (map alloc_range (allocations (heap_walker_ u)))
                     \/ enumerated env mappings r)
           (map alloc_range
              (allocations
                 (heap_walker_
                    (snd (CollectAllocations env u threads mappings))))).
Proof. exact CollectAllocations_index_provenance. Qed.

Lemma unreferenced_ranges_In (w : HeapWalker) (r : Range) :
  In r (unreferenced_ranges w) -> In r (map alloc_range (allocations w)).
Proof.
  unfold unreferenced_ranges, unreferenced. rewrite !in_map_iff.
  intros (a & Ha & Hin). apply filter_In in Hin.
  exists a. tauto.
Qed.

(** X20. A collection that starts from an empty index reports only blocks
    the allocator enumerated: when the sweep that follows
    [CollectAllocations] returns, every leak record has the begin and the
    size of a region reported by [malloc_iterate] on a mapping named
    "[anon:libc_malloc]". *)
Theorem reported_leaks_come_from_allocator :
  forall (env : Environment) (pid : Z) (threads : list ThreadInfo)
         (mappings : list Mapping) (leaks0 : list Leak) (limit : Z),
    let u := snd (CollectAllocations env
                    (mkMemUnreachable pid HeapWalker_new) threads mappings) in
    match MemUnreachable_GetUnreachableMemory (memory env) u leaks0 limit with
    | Returned (_, _, leaks, _, _) =>
        Forall (fun leak =>
                  exists r, enumerated env mappings r
                            /\ leak_begin leak = range_begin r
                            /\ leak_size leak = range_size r)
               leaks
    | Fault => True
    end.
Proof.
  intros env pid threads mappings leaks0 limit. cbv zeta.
  rewrite MemUnreachable_GetUnreachableMemory_unfold. cbv zeta.
  set (u := snd (CollectAllocations env (mkMemUnreachable pid HeapWalker_new)
                   threads mappings)).
  destruct (Leaked_emitted (memory env) (heap_walker_ u) limit)
    as (_ & _ & Hin).
  cbv zeta in Hin. revert Hin.
  generalize (snd (fst (fst (Leaked (memory env) (heap_walker_ u) limit)))).
  intros emitted Hin.
  destruct (make_leaks (memory env) emitted []) as [leaks |] eqn:E;
    [| exact I].
  destruct (make_leaks_Returned _ _ _ _ E) as (built & -> & HF).
  cbn [app]. clear E.
  pose proof (CollectAllocations_index_provenance env
                (mkMemUnreachable pid HeapWalker_new) threads mappings) as Hidx.
  fold u in Hidx. rewrite Forall_forall in Hidx.
  revert Hin. induction HF as [| r leak rs ls Hm _ IH]; intro Hin.
  - constructor.
  - constructor.
    + destruct (make_leak_Some _ _ _ Hm) as (Hb & Hs & _).
      exists r. split; [| split; assumption].
      assert (In r (map alloc_range (allocations (heap_walker_ u)))) as Hr.
      { rewrite <- (DetectLeaks_ranges (memory env)).
        apply unreferenced_ranges_In. apply Hin. left. reflexivity. }
      destruct (Hidx r Hr) as [C | Hen]; [exact (False_ind _ C) | exact Hen].
    + apply IH. intros x Hx. apply Hin. right. exact Hx.
Qed.

(* ================================================================== *)
(** * The calling thread and the child                                 *)
(* ================================================================== *)

(** A complete stream holds at least six messages. *)
Lemma complete_stream_firstn (q : nat) (l : list Message) :
  complete_stream (firstn q l) = true -> (6 <= q)%nat.
Proof.
  do 6 (destruct q as [| q];
        [repeat (destruct l as [| [? | ?] l]; cbn; try discriminate) |]).
  intros _. lia.
Qed.

(** X21. A call of [GetUnreachableMemory] that reports success had its
    semaphore posted and a heap walker process that opened its sender,
    delivered at least six messages and exited with status 0: when no
    child is forked, or the child is killed or exits with another status,
    the call fails. *)
Theorem success_needs_clean_child_exit :
  forall (env : Environment) (info : UnreachableMemoryInfo) (limit : Z),
    fst (fst (GetUnreachableMemory env info limit)) = true ->
    let run := collection_thread env limit in
    posted run = true
    /\ open_receiver_ok env = true
    /\ open_sender_ok env = true
    /\ 0 <= fork_result env
    /\ exists msgs,
         walker_process run = Some (Exited 0, msgs)
         /\ (6 <= List.length msgs)%nat.
Proof.
  intros env info limit H. cbv zeta.
  unfold GetUnreachableMemory in H. cbv zeta in H.
  rewrite original_thread_result in H.
  apply andb_prop in H. destruct H as [H Hc].
  apply andb_prop in H. destruct H as [Hret Hrecv].
  revert Hret Hc. unfold collection_thread, pipe_stream.
  destruct (capture_threads_ok env); cbn [negb thread_ret];
    [| discriminate].
  destruct (captured_thread_info env) as [ti |]; [| discriminate].
  destruct (process_mappings env) as [ms |]; [| discriminate].
  destruct (fork_result env <? 0) eqn:Ef; [discriminate |].
  apply Z.ltb_ge in Ef.
  cbn [thread_ret posted walker_process]. intros _.
  rewrite heap_walker_process_run. cbv zeta.
  destruct (open_sender_ok env); cbn [negb]; [| discriminate].
  destruct (MemUnreachable_GetUnreachableMemory _ _ _ _)
    as [[[[[ok u'] lk] nl] lb] |]; [| discriminate].
  destruct ok; cbn [andb]; [| discriminate].
  destruct (messages_of_run <=? sender_quota env)%nat eqn:Eq.
  - intros _. repeat split; auto.
    eexists. split; [reflexivity |].
    apply Nat.leb_le in Eq. rewrite length_firstn.
    unfold messages_for. cbn [List.length].
    unfold messages_of_run in Eq. lia.
  - intro Hc. apply complete_stream_firstn in Hc.
    apply Nat.leb_gt in Eq. unfold messages_of_run in Eq. lia.
Qed.

(** X21, in scenario S5. *)
Lemma success_needs_clean_child_exit_witness :
  fst (fst (GetUnreachableMemory S5_env stale_info 3)) = true
  /\ posted (collection_thread S5_env 3) = true
  /\ open_receiver_ok S5_env = true
  /\ open_sender_ok S5_env = true
  /\ 0 <= fork_result S5_env
  /\ exists msgs,
       walker_process (collection_thread S5_env 3) = Some (Exited 0, msgs)
       /\ (6 <= List.length msgs)%nat.
Proof.
  assert (fst (fst (GetUnreachableMemory S5_env stale_info 3)) = true) as H
    by (vm_compute; reflexivity).
  split; [exact H |].
  exact (success_needs_clean_child_exit S5_env stale_info 3 H).
Defined.

(* ================================================================== *)
(** * The shape of the log                                             *)
(* ================================================================== *)

Lemma LogUnreachable_length (leak : Leak) (log_contents : bool) :
  List.length (LogUnreachable leak log_contents)
  = (1 + if log_contents then rows_of (leak_size leak) else 0)%nat.
Proof.
  unfold LogUnreachable. cbn [List.length]. f_equal.
  destruct log_contents; [| reflexivity].
  cbv zeta. rewrite length_map, length_seq.
  unfold rows_of, contents_length, bytes_per_line.
  destruct (leak_size leak <=? 0) eqn:E0.
  - apply Z.leb_le in E0.
    assert ((Z.min (leak_size leak) 32 + 16 - 1) / 16 <= 0) as Hd.
    { apply Z.lt_succ_r. apply Z.div_lt_upper_bound; lia. }
    lia.
  - apply Z.leb_gt in E0.
    destruct (leak_size leak <=? 16) eqn:E1.
    + apply Z.leb_le in E1.
      assert ((Z.min (leak_size leak) 32 + 16 - 1) / 16 = 1) as ->.
      { symmetry. apply Z.div_unique with
                    (r := Z.min (leak_size leak) 32 + 16 - 1 - 16); lia. }
      reflexivity.
    + apply Z.leb_gt in E1.
      assert ((Z.min (leak_size leak) 32 + 16 - 1) / 16 = 2) as ->.
      { symmetry. apply Z.div_unique with
                    (r := Z.min (leak_size leak) 32 + 16 - 1 - 32); lia. }
      reflexivity.
Qed.

(** What the calling thread logs in [GetUnreachableMemory]: two lines on
    success, nothing on failure. *)
Lemma original_thread_log (env : Environment) (w : bool) (ret : Z)
    (receiver_ok : bool)
    (stream : list Message) (info : UnreachableMemoryInfo) :
  List.length (snd (original_thread env w ret receiver_ok stream info))
  = if fst (fst (original_thread env w ret receiver_ok stream info))
    then 2%nat else 0%nat.
Proof.
  unfold original_thread.
  destruct (ret =? 0); cbn [negb]; [| reflexivity].
  destruct receiver_ok; cbn [negb]; [| reflexivity].
  do 5 (destruct stream as [| [? | ?] stream];
        cbn [and_receive and_receive_vector Receive ReceiveVector negb];
        try reflexivity).
  destruct stream as [| [? | l] stream]; try reflexivity.
  destruct (Z.of_nat (List.length l) =? v3); reflexivity.
Qed.

Lemma flat_map_LogUnreachable_length (log_contents : bool) (l : list Leak) :
  List.length (flat_map (fun it => LogUnreachable it log_contents) l)
  = (List.length l
     + if log_contents
       then list_sum (map (fun it => rows_of (leak_size it)) l) else 0)%nat.
Proof.
  induction l as [| a l IH]; cbn [flat_map List.length map list_sum].
  - destruct log_contents; reflexivity.
  - rewrite length_app, IH, LogUnreachable_length.
    unfold list_sum. cbn [fold_right].
    destruct log_contents; lia.
Qed.

Lemma rows_sum_bound (l : list Leak) :
  (list_sum (map (fun it => rows_of (leak_size it)) l)
   <= 2 * List.length l)%nat.
Proof.
  unfold list_sum.
  induction l as [| a l IH]; cbn [map fold_right List.length]; [lia |].
  assert (rows_of (leak_size a) <= 2)%nat
    by (unfold rows_of; destruct (_ <=? 0); [lia |];
        destruct (_ <=? 16); lia).
  lia.
Qed.

(** X22. Of the lines this translation unit writes in the calling thread:
    when the collection succeeds, [LogUnreachableMemory] has logged the two
    lines of [GetUnreachableMemory], then for every leak of the returned
    vector one header line and, with [log_contents], one dump row per 16
    bytes of the first 32 bytes of the leak: none for an empty leak, one up
    to 16 bytes, two beyond; so at most three lines per leak.  When the
    collection fails, [LogUnreachableMemory] adds no line to those of
    [GetUnreachableMemory]. *)
Theorem LogUnreachableMemory_line_count :
  forall (env : Environment) (log_contents : bool) (limit : Z),
    let ok :=
      fst (fst (GetUnreachableMemory env UnreachableMemoryInfo_new limit)) in
    let info :=
      snd (fst (GetUnreachableMemory env UnreachableMemoryInfo_new limit)) in
    let lines := snd (LogUnreachableMemory env log_contents limit) in
    if ok
    then List.length lines
         = (2 + List.length (leaks info)
            + if log_contents
              then list_sum (map (fun it => rows_of (leak_size it))
                                 (leaks info))
              else 0)%nat
         /\ (List.length lines <= 2 + 3 * List.length (leaks info))%nat
    else lines
         = snd (GetUnreachableMemory env UnreachableMemoryInfo_new limit).
Proof.
  intros env log_contents limit. cbv zeta.
  unfold LogUnreachableMemory. cbv zeta.
  unfold GetUnreachableMemory. cbv zeta.
  pose proof (original_thread_log env
                (posted (collection_thread env limit)
                 && post_within_deadline env)
                (thread_ret (collection_thread env limit))
                (open_receiver_ok env)
                (pipe_stream (collection_thread env limit))
                UnreachableMemoryInfo_new) as Hlog.
  destruct (original_thread _ _ _ _ _ _) as [[ok info] log].
  cbn [fst snd] in Hlog |- *.
  destruct ok; cbn [negb snd].
  - rewrite length_app, flat_map_LogUnreachable_length, Hlog.
    pose proof (rows_sum_bound (leaks info)) as Hb.
    destruct log_contents; lia.
  - reflexivity.
Qed.

Lemma length_concat_string (k : nat) (l : list string) :
  Forall (fun s => String.length s = k) l ->
  String.length (String.concat "" l) = (k * List.length l)%nat.
Proof.
  induction 1 as [| s l Hs Hl IH]; cbn [String.concat List.length].
  - cbn [String.length]. lia.
  - destruct l as [| t l].
    + rewrite Hs. cbn [List.length]. lia.
    + cbn [append]. rewrite length_append_string, IH, Hs.
      cbn [List.length]. lia.
Qed.

Lemma In_skipn {A : Type} (n : nat) :
  forall (l : list A) (x : A), In x (skipn n l) -> In x l.
Proof.
  induction n as [| n IH]; intros [| a l] x H; cbn [skipn] in H; auto.
  right. apply IH. exact H.
Qed.

Lemma hex_byte_length (b : Z) :
  0 <= b < 128 -> String.length (hex_byte b) = 2%nat.
Proof.
  intro Hb.
  assert (forallb (fun n => Nat.eqb (String.length (hex_byte (Z.of_nat n))) 2)
                  (seq 0 128) = true) as H by (vm_compute; reflexivity).
  rewrite forallb_forall in H.
  specialize (H (Z.to_nat b)). rewrite Z2Nat.id in H by lia.
  apply Nat.eqb_eq. apply H. apply in_seq. lia.
Qed.

Lemma shown_char_length (b : Z) : String.length (shown_char b) = 1%nat.
Proof. unfold shown_char. destruct (_ || _); reflexivity. Qed.

(** X23. A dump row lines its columns up.  For a row that starts inside
    the dumped bytes, whose bytes are below 128 (where the conversion to
    [int] does not depend on the signedness of [char]), the line is the
    address, ": ", a hexadecimal area that is always 48 characters wide
    (three per byte, padded for a short last row), one character per byte
    of the row, and a newline. *)
Theorem dump_line_layout :
  forall (leak : Leak) (bytes i : Z),
    0 <= i < bytes ->
    bytes <= Z.of_nat (List.length (leak_contents leak)) ->
    Forall (fun b => 0 <= b < 128) (leak_contents leak) ->
    exists cells,
      dump_line leak bytes i
      = (hex (wrap (leak_begin leak + i)) ++ ": " ++ cells
         ++ String.concat "" (map shown_char (dump_row leak bytes i))
         ++ newline)%string
      /\ String.length cells = 48%nat
      /\ String.length
           (String.concat "" (map shown_char (dump_row leak bytes i)))
         = List.length (dump_row leak bytes i)
      /\ Z.of_nat (List.length (dump_row leak bytes i))
         = Z.min 16 (bytes - i).
Proof.
  intros leak bytes i Hi Hlen Hb.
  unfold dump_line, bytes_per_line. cbv zeta. fold (dump_row leak bytes i).
  assert (Z.of_nat (List.length (dump_row leak bytes i)) = Z.min 16 (bytes - i))
    as Hrow.
  { unfold dump_row. rewrite length_firstn, length_skipn. lia. }
  assert (Forall (fun b => 0 <= b < 128) (dump_row leak bytes i)) as Hrb.
  { apply Forall_forall. intros b Hin. unfold dump_row in Hin.
    apply In_firstn in Hin. apply In_skipn in Hin.
    revert b Hin. apply Forall_forall. exact Hb. }
  eexists. split; [| split; [| split]].
  - rewrite <- (append_assoc_string
                  (String.concat "" (map (fun b => (hex_byte b ++ " ")%string)
                                         (dump_row leak bytes i)))).
    reflexivity.
  - rewrite length_append_string.
    rewrite (length_concat_string 3), (length_concat_string 3).
    + rewrite length_map, repeat_length. lia.
    + apply Forall_forall. intros s Hs. apply repeat_spec in Hs.
      subst s. reflexivity.
    + apply Forall_forall. intros s Hs. apply in_map_iff in Hs.
      destruct Hs as (b & <- & Hin).
      rewrite length_append_string, hex_byte_length; [reflexivity |].
      revert b Hin. apply Forall_forall. exact Hrb.
  - rewrite (length_concat_string 1).
    + rewrite length_map. lia.
    + apply Forall_forall. intros s Hs. apply in_map_iff in Hs.
      destruct Hs as (b & <- & _). apply shown_char_length.
  - exact Hrow.
Qed.

(** X23, for the second row of a leak of 20 bytes holding the letters A
    to T. *)
Lemma dump_line_layout_witness :
  0 <= 16 < 20
  /\ 20 <= Z.of_nat (List.length (leak_contents letters_leak))
  /\ Forall (fun b => 0 <= b < 128) (leak_contents letters_leak)
  /\ exists cells,
       dump_line letters_leak 20 16
       = (hex (wrap (leak_begin letters_leak + 16)) ++ ": " ++ cells
          ++ String.concat "" (map shown_char (dump_row letters_leak 20 16))
          ++ newline)%string
       /\ String.length cells = 48%nat
       /\ String.length
            (String.concat "" (map shown_char (dump_row letters_leak 20 16)))
          = List.length (dump_row letters_leak 20 16)
       /\ Z.of_nat (List.length (dump_row letters_leak 20 16))
          = Z.min 16 (20 - 16).
Proof.
  assert (0 <= 16 < 20) as H1 by lia.
  assert (20 <= Z.of_nat (List.length (leak_contents letters_leak))) as H2
    by (vm_compute; discriminate).
  assert (Forall (fun b => 0 <= b < 128) (leak_contents letters_leak)) as H3.
  { apply Forall_forall. intros b Hin.
    unfold letters_leak in Hin. cbn [leak_contents] in Hin.
    apply in_app_or in Hin. destruct Hin as [Hin | Hin].
    - apply in_map_iff in Hin. destruct Hin as (n & <- & Hn).
      apply in_seq in Hn. lia.
    - apply repeat_spec in Hin. lia. }
  repeat (split; [assumption |]).
  exact (dump_line_layout letters_leak 20 16 H1 H2 H3).
Defined.
